(** * Verification of the generation-pipeline core of the vibe repository

    A shallow embedding of the TypeScript sources under [src/]: the
    model-provider configuration, the credential lookup, the retry and
    fallback helpers, the session state object, the SSE heartbeat helper,
    the agent cloning and template selection entry points, the two
    extension-to-MIME tables with the type modules around them, the status
    stream route, the phase generation step, the file upload hook and the
    user files controller.  Three parts of the repository are not under
    [src/] and are modelled from the specification, each under a comment
    that says so: the post-phase corrector, the fallback of the Inference
    Gateway and the id generator.

    Modelling conventions
    - a JavaScript string is a [string]; [toLowerCase] and [toUpperCase]
      are modelled on strings of ASCII characters, and the facts that rest
      on the case mapping carry [isAscii] as a hypothesis;
    - a JavaScript number used as a counter, a delay or a time stamp is a
      [Z];
    - [undefined] and [null] are [None] unless both occur at one place;
    - a function that may throw returns a [Completion];
    - calls to collaborators (the model provider, the template service, the
      logger, timers) are recorded in an explicit trace, and what the
      collaborator answers is an argument of the embedded function. *)

From Stdlib Require Import ZArith QArith Lia List Bool Ascii String.
From stdpp Require Import base option list gmap strings.
Import ListNotations.

Local Open Scope string_scope.
Local Open Scope Z_scope.

(** ** JavaScript values and string primitives *)

Module Js.

(** Outcome of running a function body: a returned value or a thrown one. *)
Inductive Completion (E A : Type) : Type :=
| Return (a : A)
| Throw (e : E).
Arguments Return {E A} a.
Arguments Throw {E A} e.

Definition isThrow {E A} (c : Completion E A) : bool :=
  match c with Throw _ => true | Return _ => false end.

Definition lowerChar (c : ascii) : ascii :=
  let n := N_of_ascii c in
  if ((65 <=? n) && (n <=? 90))%N then ascii_of_N (n + 32) else c.

Definition upperChar (c : ascii) : ascii :=
  let n := N_of_ascii c in
  if ((97 <=? n) && (n <=? 122))%N then ascii_of_N (n - 32) else c.

Fixpoint mapChars (f : ascii -> ascii) (s : string) : string :=
  match s with
  | EmptyString => EmptyString
  | String c s' => String (f c) (mapChars f s')
  end.

(** A string all of whose characters are ASCII (code units below 128). *)
Definition isAsciiChar (c : ascii) : bool := (N_of_ascii c <? 128)%N.

Fixpoint isAscii (s : string) : bool :=
  match s with
  | EmptyString => true
  | String c s' => isAsciiChar c && isAscii s'
  end.

(** [s.toLowerCase()] and [s.toUpperCase()] on strings of ASCII characters
    ([isAscii]), where JavaScript maps the letters [A-Z] and [a-z] one
    to one and keeps the length.  Outside ASCII JavaScript follows the
    Unicode case mappings, which may change other characters and the length
    of the string; these two definitions leave such characters alone, so a
    fact that rests on the case mapping is stated for ASCII strings. *)
Definition toLowerCase : string -> string := mapChars lowerChar.
Definition toUpperCase : string -> string := mapChars upperChar.

(** [s.replaceAll(a, b)] for one-character [a] and [b] *)
Definition replaceAll (a b : ascii) : string -> string :=
  mapChars (fun c => if Ascii.eqb c a then b else c).

Fixpoint lastIndexOfFrom (c : ascii) (s : string) (i found : Z) : Z :=
  match s with
  | EmptyString => found
  | String a s' => lastIndexOfFrom c s' (i + 1) (if Ascii.eqb a c then i else found)
  end.

(** [s.lastIndexOf(c)]: the index of the last [c], or [-1] *)
Definition lastIndexOf (c : ascii) (s : string) : Z := lastIndexOfFrom c s 0 (-1).

Fixpoint dropChars (n : nat) (s : string) : string :=
  match n, s with
  | O, _ => s
  | S n', String _ s' => dropChars n' s'
  | S _, EmptyString => EmptyString
  end.

Fixpoint takeChars (n : nat) (s : string) : string :=
  match n, s with
  | S n', String c s' => String c (takeChars n' s')
  | _, _ => EmptyString
  end.

(** [s.substring(start)]: a negative [start] counts as 0, one past the end
    gives the empty string *)
Definition substringFrom (start : Z) (s : string) : string :=
  dropChars (Z.to_nat (Z.max 0 start)) s.

(** [s.substring(0, n)] for [n >= 0] *)
Definition substringTo (n : Z) (s : string) : string :=
  takeChars (Z.to_nat (Z.max 0 n)) s.

(** [s.split(c)] for a one-character separator: never the empty array *)
Fixpoint split (sep : ascii) (s : string) : list string :=
  match s with
  | EmptyString => [EmptyString]
  | String a s' =>
      if Ascii.eqb a sep then EmptyString :: split sep s'
      else match split sep s' with
           | w :: ws => String a w :: ws
           | [] => [String a EmptyString]
           end
  end.

(** [arr[0]] and [arr.pop()] as reads; [None] is [undefined] *)
Definition first (l : list string) : option string := head l.
Definition pop (l : list string) : option string := last l.

Definition contains (c : ascii) (s : string) : bool :=
  existsb (Ascii.eqb c) (list_ascii_of_string s).

(** What reading a property of an object literal can give: one of the
    literal's own string values, or a member inherited from
    [Object.prototype] (named by its key). *)
Inductive PropertyValue : Type :=
| OwnString (s : string)
| Inherited (member : string).

Definition objectPrototypeMembers : list string :=
  [ "constructor"; "__proto__"; "hasOwnProperty"; "isPrototypeOf";
    "propertyIsEnumerable"; "toLocaleString"; "toString"; "valueOf";
    "__defineGetter__"; "__defineSetter__"; "__lookupGetter__";
    "__lookupSetter__" ].

Fixpoint assoc (k : string) (m : list (string * string)) : option string :=
  match m with
  | [] => None
  | (k', v) :: m' => if String.eqb k k' then Some v else assoc k m'
  end.

(** [obj[k]] on an object literal [obj]; [None] is [undefined] *)
Definition getProperty (obj : list (string * string)) (k : string) : option PropertyValue :=
  match assoc k obj with
  | Some v => Some (OwnString v)
  | None =>
      if existsb (String.eqb k) objectPrototypeMembers then Some (Inherited k) else None
  end.

(** JavaScript truthiness of a property read *)
Definition truthy (v : option PropertyValue) : bool :=
  match v with
  | None => false
  | Some (OwnString s) => negb (String.eqb s "")
  | Some (Inherited _) => true
  end.

End Js.

(** ** The two extension-to-MIME tables bundled in filesRoutes.ts *)

(** Lines 111-446 of the bundle: extensions are keyed with their dot and an
    unknown extension is generic binary data. *)
Module CodeFileTypes.
Import Js.

Definition mimeMap : list (string * string) :=
  [ (".js", "text/javascript"); (".jsx", "text/javascript");
    (".mjs", "text/javascript"); (".cjs", "text/javascript");
    (".ts", "text/typescript"); (".tsx", "text/typescript");
    (".html", "text/html"); (".htm", "text/html");
    (".css", "text/css"); (".scss", "text/css");
    (".sass", "text/css"); (".less", "text/css");
    (".json", "application/json"); (".yaml", "text/yaml");
    (".yml", "text/yaml"); (".xml", "application/xml");
    (".csv", "text/csv");
    (".py", "text/x-python"); (".pyw", "text/x-python");
    (".pyx", "text/x-python");
    (".java", "text/x-java-source"); (".kt", "text/x-kotlin");
    (".kts", "text/x-kotlin"); (".scala", "text/x-scala");
    (".c", "text/x-c"); (".h", "text/x-c");
    (".cpp", "text/x-c++"); (".cc", "text/x-c++");
    (".cxx", "text/x-c++"); (".hpp", "text/x-c++");
    (".hh", "text/x-c++");
    (".rs", "text/x-rust");
    (".go", "text/x-go");
    (".rb", "text/x-ruby"); (".erb", "text/x-ruby");
    (".php", "text/x-php");
    (".swift", "text/x-swift");
    (".sh", "application/x-sh"); (".bash", "application/x-sh");
    (".zsh", "application/x-sh"); (".fish", "application/x-sh");
    (".sql", "application/sql");
    (".md", "text/markdown"); (".mdx", "text/markdown");
    (".txt", "text/plain"); (".text", "text/plain");
    (".zip", "application/zip"); (".tar", "application/x-tar");
    (".gz", "application/gzip"); (".tgz", "application/gzip") ].

(** [filename.toLowerCase().substring(filename.lastIndexOf('.'))]: the index
    is that of the last dot in the name as given, applied to the lowercased
    name.  On a name of ASCII characters the two have the same length and
    the cut falls on the dot. *)
Definition extensionOf (filename : string) : string :=
  substringFrom (lastIndexOf "." filename) (toLowerCase filename).

(** [mimeMap[ext] || 'application/octet-stream'] *)
Definition getMimeTypeFromExtension (filename : string) : PropertyValue :=
  let ext := extensionOf filename in
  let hit := getProperty mimeMap ext in
  if truthy hit then default (OwnString "application/octet-stream") hit
  else OwnString "application/octet-stream".

End CodeFileTypes.

(** Lines 447-743 of the bundle: extensions are keyed without the dot and an
    unknown extension is [null]. *)
Module ArchiveFileTypes.
Import Js.

Definition extensionMap : list (string * string) :=
  [ ("png", "image/png"); ("jpg", "image/jpeg"); ("jpeg", "image/jpeg");
    ("webp", "image/webp");
    ("txt", "text/plain"); ("md", "text/markdown");
    ("js", "application/javascript"); ("mjs", "application/javascript");
    ("cjs", "application/javascript"); ("ts", "application/typescript");
    ("tsx", "application/typescript"); ("jsx", "application/javascript");
    ("html", "text/html"); ("css", "text/css");
    ("json", "application/json"); ("xml", "application/xml");
    ("py", "text/x-python");
    ("java", "text/x-java-source");
    ("c", "text/x-c"); ("cpp", "text/x-c++src"); ("cc", "text/x-c++src");
    ("cxx", "text/x-c++src"); ("h", "text/x-c"); ("hpp", "text/x-c++src");
    ("go", "text/x-go"); ("rs", "text/x-rust"); ("rb", "text/x-ruby");
    ("php", "text/x-php"); ("swift", "text/x-swift"); ("kt", "text/x-kotlin");
    ("cs", "text/x-csharp"); ("sh", "text/x-sh"); ("bash", "text/x-sh");
    ("yaml", "application/x-yaml"); ("yml", "application/x-yaml");
    ("toml", "application/toml");
    ("zip", "application/zip"); ("gz", "application/gzip");
    ("tar", "application/x-tar") ].

(** [filename.toLowerCase().split('.').pop()] *)
Definition extensionOf (filename : string) : option string :=
  pop (split "." (toLowerCase filename)).

(** [ext ? extensionMap[ext] || null : null]; [None] is [null] *)
Definition getMimeTypeFromExtension (filename : string) : option PropertyValue :=
  match extensionOf filename with
  | None => None
  | Some ext =>
      if String.eqb ext "" then None
      else
        let hit := getProperty extensionMap ext in
        if truthy hit then hit else None
  end.

End ArchiveFileTypes.

(** ** Model identifiers and agent configuration
    (config.types.ts, config.ts) *)

Module Config.
Import Js.

Inductive AIModels : Type :=
| DISABLED
| GEMINI_3_PRO
| GEMINI_2_5_PRO
| CLAUDE_SONNET_4_5
| CLAUDE_HAIKU_4_5
| GROK_4_1_FAST_REASONING
| GROK_CODE_FAST_1.

(** The string value of each enum member *)
Definition modelId (m : AIModels) : string :=
  match m with
  | DISABLED => "disabled"
  | GEMINI_3_PRO => "google-ai-studio/gemini-3-pro"
  | GEMINI_2_5_PRO => "google-ai-studio/gemini-2.5-pro"
  | CLAUDE_SONNET_4_5 => "anthropic/claude-sonnet-4-5-20250929"
  | CLAUDE_HAIKU_4_5 => "anthropic/claude-haiku-4-5-20251001"
  | GROK_4_1_FAST_REASONING => "grok/grok-4-1-fast-reasoning"
  | GROK_CODE_FAST_1 => "grok/grok-code-fast-1"
  end.

Inductive ReasoningEffort : Type := low | medium | high.

(** [name] and [fallbackModel] are [AIModels | string]: the identifier string *)
Record ModelConfig : Type := {
  name : string;
  reasoning_effort : option ReasoningEffort;
  max_tokens : option Z;
  temperature : option Q;
  fallbackModel : option string;
}.

Record AgentConfig : Type := {
  templateSelection : ModelConfig;
  blueprint : ModelConfig;
  projectSetup : ModelConfig;
  phaseGeneration : ModelConfig;
  phaseImplementation : ModelConfig;
  firstPhaseImplementation : ModelConfig;
  codeReview : ModelConfig;
  fileRegeneration : ModelConfig;
  screenshotAnalysis : ModelConfig;
  realtimeCodeFixer : ModelConfig;
  fastCodeFixer : ModelConfig;
  conversationalResponse : ModelConfig;
  deepDebugger : ModelConfig;
}.

Definition profile (m : AIModels) (effort : option ReasoningEffort) (tokens : Z)
  (temp : Q) (fallback : AIModels) : ModelConfig :=
  {| name := modelId m; reasoning_effort := effort; max_tokens := Some tokens;
     temperature := Some temp; fallbackModel := Some (modelId fallback) |}.

Definition AGENT_CONFIG : AgentConfig := {|
  templateSelection :=
    profile CLAUDE_HAIKU_4_5 None 2000 (6 # 10) GROK_CODE_FAST_1;
  blueprint :=
    profile CLAUDE_SONNET_4_5 (Some medium) 64000 (7 # 10) GROK_4_1_FAST_REASONING;
  projectSetup :=
    profile CLAUDE_SONNET_4_5 (Some low) 10000 (2 # 10) GROK_4_1_FAST_REASONING;
  phaseGeneration :=
    profile CLAUDE_SONNET_4_5 (Some low) 32000 (2 # 10) GROK_4_1_FAST_REASONING;
  firstPhaseImplementation :=
    profile CLAUDE_SONNET_4_5 (Some low) 64000 (2 # 10) GROK_4_1_FAST_REASONING;
  phaseImplementation :=
    profile CLAUDE_SONNET_4_5 (Some low) 64000 (2 # 10) GROK_4_1_FAST_REASONING;
  realtimeCodeFixer :=
    profile DISABLED (Some low) 32000 1 CLAUDE_HAIKU_4_5;
  fastCodeFixer :=
    profile DISABLED None 64000 0 CLAUDE_SONNET_4_5;
  conversationalResponse :=
    profile CLAUDE_HAIKU_4_5 (Some low) 4000 0 GROK_CODE_FAST_1;
  deepDebugger :=
    profile CLAUDE_SONNET_4_5 (Some high) 8000 (5 # 10) GROK_4_1_FAST_REASONING;
  codeReview :=
    profile CLAUDE_SONNET_4_5 (Some medium) 32000 (1 # 10) GROK_4_1_FAST_REASONING;
  fileRegeneration :=
    profile GROK_CODE_FAST_1 (Some low) 32000 0 CLAUDE_SONNET_4_5;
  screenshotAnalysis :=
    profile CLAUDE_SONNET_4_5 (Some medium) 8000 (1 # 10) GROK_4_1_FAST_REASONING;
|}.

(** [Object.values(AIModels)] *)
Definition ALL_AI_MODELS : list string :=
  map modelId
    [ DISABLED; GEMINI_3_PRO; GEMINI_2_5_PRO; CLAUDE_SONNET_4_5;
      CLAUDE_HAIKU_4_5; GROK_4_1_FAST_REASONING; GROK_CODE_FAST_1 ].

Definition isValidAIModel (model : string) : bool :=
  existsb (String.eqb model) ALL_AI_MODELS.

Definition getValidAIModelsArray : list string := ALL_AI_MODELS.

End Config.

(** ** Credential and endpoint resolution (core.ts, as documented in the
    provider configuration guide) *)

Module Core.
Import Js.

(** The worker environment: variable name to value; an unset variable reads
    as [undefined]. *)
Abbreviation Env := (gmap string string).

Record Configuration : Type := {
  baseURL : string;
  apiKey : option string;
}.

(** Modelled from the spec: [isValidApiKey] is called by [getApiKey] but its
    body is not under src/.  The spec calls a credential invalid when it is
    absent, too short or a placeholder value; the provider guide gives the
    bounds: length at least 10, and neither [none] nor [default]. *)
Definition isValidApiKey (key : option string) : bool :=
  match key with
  | None => false
  | Some k =>
      (10 <=? String.length k)%nat
      && negb (String.eqb k "none") && negb (String.eqb k "default")
  end.

Section Gateway.

(** The validity check used by [getApiKey], and the URL the AI binding
    reports for the gateway named [voither] when it answers:
    [await env.AI.gateway('voither').getUrl()].  The binding is consulted
    only when [CLOUDFLARE_AI_GATEWAY_URL] is not set; a binding that is
    missing or rejects is not part of this embedding. *)
Variable validate : option string -> bool.
Variable bindingUrl : string.

(** [`${provider.toUpperCase().replaceAll('-', '_')}_API_KEY`] *)
Definition envKeyOf (provider : string) : string :=
  replaceAll "-" "_" (toUpperCase provider) ++ "_API_KEY".

(** The body has no [throw]: whatever the environment holds, it returns. *)
Definition getApiKey (provider : string) (env : Env) (userId : string)
  : Completion string (option string) :=
  let envKey := envKeyOf provider in
  let apiKey := env !! envKey in
  if negb (validate apiKey)
  then Return (env !! "CLOUDFLARE_AI_GATEWAY_TOKEN")
  else Return apiKey.

Definition buildGatewayUrl (env : Env) : string :=
  match env !! "CLOUDFLARE_AI_GATEWAY_URL" with
  | Some url => if String.eqb url "" then bindingUrl ++ "compat" else url
  | None => bindingUrl ++ "compat"
  end.

(** [model.split('/')[0]] *)
Definition providerOf (model : string) : option string :=
  first (split "/" model).

Definition getConfigurationForModel (model : string) (env : Env) (userId : string)
  : Completion string Configuration :=
  let url := buildGatewayUrl env in
  match providerOf model with
  | None => Throw "TypeError: undefined provider"
  | Some provider =>
      match getApiKey provider env userId with
      | Return key => Return {| baseURL := url; apiKey := key |}
      | Throw e => Throw e
      end
  end.

End Gateway.

End Core.

(** ** Bounded retry with exponential backoff (the retry utility of the
    pipeline engineering guides) *)

Module Retry.
Import Js.

(** What the retry loop does to the outside world, in order. *)
Inductive Event : Type :=
| Invoke (attempt : Z)
| Sleep (delayMs : Z).

Definition isInvoke (ev : Event) : bool :=
  match ev with Invoke _ => true | Sleep _ => false end.

Section WithRetry.
Context {T E : Type}.

Record RetryOptions : Type := {
  maxAttempts : Z;
  backoffMs : Z;
  maxBackoffMs : option Z;
  shouldRetry : option (E -> bool);
}.

Variable options : RetryOptions.

(** The wrapped operation: what its invocation made at a given attempt
    number produces. *)
Variable fn : Z -> Completion E T.

(** [maxBackoffMs = 30000] in the destructuring *)
Definition maxBackoff : Z := default 30000 (maxBackoffMs options).

(** [Math.min(backoffMs * Math.pow(2, attempt - 1), maxBackoffMs)] *)
Definition delayAfter (attempt : Z) : Z :=
  Z.min (backoffMs options * 2 ^ (attempt - 1)) maxBackoff.

(** [shouldRetry && !shouldRetry(error)] *)
Definition givesUp (error : E) : bool :=
  match shouldRetry options with
  | Some p => negb (p error)
  | None => false
  end.

(** The [for] loop from [attempt] on; [lastError] is [None] while it is
    still [undefined].  [fuel] bounds the iterations left. *)
Fixpoint retryLoop (fuel : nat) (attempt : Z) (lastError : option E)
  : list Event * Completion (option E) T :=
  match fuel with
  | O => ([], Throw lastError)
  | S fuel' =>
      if attempt <=? maxAttempts options then
        match fn attempt with
        | Return v => ([Invoke attempt], Return v)
        | Throw error =>
            if givesUp error then ([Invoke attempt], Throw (Some error))
            else
              let pause :=
                if attempt <? maxAttempts options
                then [Sleep (delayAfter attempt)] else [] in
              let '(rest, outcome) := retryLoop fuel' (attempt + 1) (Some error) in
              (Invoke attempt :: pause ++ rest, outcome)
        end
      else ([], Throw lastError)
  end.

(** The loop runs for [attempt = 1 .. maxAttempts], so [maxAttempts]
    iterations are all it can make. *)
Definition withRetry : list Event * Completion (option E) T :=
  retryLoop (Z.to_nat (maxAttempts options)) 1 None.

(** The trace of [n] attempts with the pauses between them. *)
Fixpoint scheduleFrom (n : nat) (attempt : Z) : list Event :=
  match n with
  | O => []
  | S O => [Invoke attempt]
  | S n' => Invoke attempt :: Sleep (delayAfter attempt) :: scheduleFrom n' (attempt + 1)
  end.

Definition schedule (n : nat) : list Event := scheduleFrom n 1.

Definition invocations (trace : list Event) : nat :=
  length (List.filter isInvoke trace).

End WithRetry.

Arguments RetryOptions : clear implicits.

(** The options [generatePhase] passes: [{ maxAttempts: 3, backoffMs: 1000 }] *)
Definition generatePhaseOptions (E : Type) : RetryOptions E :=
  {| maxAttempts := 3; backoffMs := 1000; maxBackoffMs := None; shouldRetry := None |}.

End Retry.

(** ** Provider fallback (the AI call pattern of the pipeline engineering
    guides) *)

Module Fallback.
Import Js.

Record Provider : Type := {
  providerName : string;
  providerModel : string;
}.

(** A caught value: an [Error] instance with its message, or anything else
    with its [String(...)] rendering. *)
Inductive Caught : Type :=
| ErrorInstance (message : string)
| NotAnError (rendering : string).

(** [error instanceof Error ? error : new Error(String(error))], as the
    message of the resulting [Error] *)
Definition asErrorMessage (c : Caught) : string :=
  match c with
  | ErrorInstance m => m
  | NotAnError r => r
  end.

Inductive Event : Type :=
| GenerateText (provider : string)
| ConsoleError (provider : string) (message : string).

Section CallAI.
Context {R : Type}.

(** What [generateText] produces when called with a provider's model. *)
Variable generateText : Provider -> Completion Caught R.

(** The [for (const provider of providers)] loop and the final [throw];
    the thrown [Error] is given by its message. *)
Fixpoint tryProviders (providers : list Provider) (lastError : option string)
  : list Event * Completion string R :=
  match providers with
  | [] => ([], Throw (default "All AI providers failed" lastError))
  | provider :: others =>
      match generateText provider with
      | Return result => ([GenerateText (providerName provider)], Return result)
      | Throw error =>
          let message := asErrorMessage error in
          let '(rest, outcome) := tryProviders others (Some message) in
          (GenerateText (providerName provider)
             :: ConsoleError (providerName provider) message :: rest,
           outcome)
      end
  end.

Definition google : Provider :=
  {| providerName := "google"; providerModel := "gemini-2.0-flash-exp" |}.
Definition anthropic : Provider :=
  {| providerName := "anthropic"; providerModel := "claude-sonnet-4-20250514" |}.

Definition callAIWithFallback : list Event * Completion string R :=
  tryProviders [google; anthropic] None.

End CallAI.

(** The failed attempts a run reports to the error log, in order. *)
Definition loggedAttempts (trace : list Event) : list (string * string) :=
  omap (fun ev => match ev with
                  | ConsoleError p m => Some (p, m)
                  | GenerateText _ => None
                  end) trace.

Definition callsTo (provider : string) (trace : list Event) : nat :=
  length (List.filter (fun ev => match ev with
                                 | GenerateText p => String.eqb p provider
                                 | ConsoleError _ _ => false
                                 end) trace).

End Fallback.

(** ** The fallback of the Inference Gateway (specification, sections 4.1
    and 8) *)

Module InferenceGateway.
Import Js Config.
Local Open Scope list_scope.

(** A failed call: whether its error is classified [recoverable] (a
    timeout, a 429 or 5xx equivalent) and its message. *)
Record Failure : Type := {
  recoverable : bool;
  message : string;
}.

(** The failure the gateway surfaces, with its attempt history: the provider
    name and the error message of each model attempted. *)
Record ProviderError : Type := {
  attemptHistory : list (string * string);
}.

Inductive Event : Type :=
| Call (model : string) (attempt : Z)
| Backoff (delayMs : Z).

(** Up to [maxAttempts] attempts, with a base delay that doubles each attempt
    and is capped at a maximum delay. *)
Record RetryPolicy : Type := {
  maxAttempts : nat;
  baseDelayMs : Z;
  maxDelayMs : Z;
}.

(** The default of the specification: 3 attempts *)
Definition defaultPolicy : RetryPolicy :=
  {| maxAttempts := 3; baseDelayMs := 1000; maxDelayMs := 30000 |}.

(** The provider name of a model identifier: the text before the first [/] *)
Definition providerNameOf (model : string) : string :=
  default model (Core.providerOf model).

Section Invoke.
Context {R : Type}.
Variable policy : RetryPolicy.

(** What the provider answers to the call made at a given attempt. *)
Variable call : string -> Z -> Completion Failure R.

Definition backoffAfter (attempt : Z) : Z :=
  Z.min (baseDelayMs policy * 2 ^ (attempt - 1)) (maxDelayMs policy).

(** Modelled from the spec: the bounded retry around an invocation of the
    Inference Gateway, whose code ([infer] of inferutils) is not under src/.
    The specification wraps every invocation with up to N attempts and
    exponential backoff, and retries only errors classified recoverable.
    [retriesLeft] counts the attempts still allowed after this one. *)
Fixpoint callWithRetry (retriesLeft : nat) (attempt : Z) (model : string)
  : list Event * Completion Failure R :=
  match call model attempt with
  | Return result => ([Call model attempt], Return result)
  | Throw failure =>
      match retriesLeft with
      | S retriesLeft' =>
          if recoverable failure then
            let '(rest, outcome) := callWithRetry retriesLeft' (attempt + 1) model in
            (Call model attempt :: Backoff (backoffAfter attempt) :: rest, outcome)
          else ([Call model attempt], Throw failure)
      | O => ([Call model attempt], Throw failure)
      end
  end.

(** Modelled from the spec: [invoke(request, modelConfig)] of the Inference
    Gateway, whose code is not under src/ (only [ModelConfig] and
    [AGENT_CONFIG], which declare the fallback, are).  The specification has
    the primary model invoked with the bounded retry; on its failure the
    configured [fallbackModel] is attempted exactly once, with no further
    hop; and if the fallback fails too, the error is surfaced with the
    attempt history (provider name, error message) of both attempts. *)
Definition invoke (modelConfig : ModelConfig)
  : list Event * Completion ProviderError R :=
  let primary := name modelConfig in
  let '(tried, outcome) := callWithRetry (Nat.pred (maxAttempts policy)) 1 primary in
  match outcome with
  | Return result => (tried, Return result)
  | Throw failure =>
      match fallbackModel modelConfig with
      | None =>
          (tried,
           Throw {| attemptHistory := [(providerNameOf primary, message failure)] |})
      | Some fallback =>
          (tried ++ [Call fallback 1],
           match call fallback 1 with
           | Return result => Return result
           | Throw failure' =>
               Throw {| attemptHistory :=
                          [ (providerNameOf primary, message failure);
                            (providerNameOf fallback, message failure') ] |}
           end)
      end
  end.

(** The calls of [n] attempts at one model with the pauses between them. *)
Fixpoint retrySchedule (model : string) (n : nat) (attempt : Z) : list Event :=
  match n with
  | O => []
  | S O => [Call model attempt]
  | S n' =>
      Call model attempt :: Backoff (backoffAfter attempt)
        :: retrySchedule model n' (attempt + 1)
  end.

End Invoke.

(** The profiles of an agent configuration, in the order of [AgentConfig] *)
Definition profilesOf (config : AgentConfig) : list ModelConfig :=
  [ templateSelection config; blueprint config; projectSetup config;
    phaseGeneration config; phaseImplementation config;
    firstPhaseImplementation config; codeReview config;
    fileRegeneration config; screenshotAnalysis config;
    realtimeCodeFixer config; fastCodeFixer config;
    conversationalResponse config; deepDebugger config ].

End InferenceGateway.

(** ** The session state object (the [GenerationAgent] durable object of the
    pipeline engineering guides) *)

Module Generation.

Inductive Status : Type := idle | bootstrapping | generating | completed | failed.

Definition isTerminal (s : Status) : bool :=
  match s with
  | completed | failed => true
  | _ => false
  end.

Record GenerationState : Type := {
  sessionId : string;
  status : Status;
  currentPhase : Z;
  totalPhases : Z;
  error : option string;
  createdAt : Z;
  updatedAt : Z;
}.

(** [Partial<GenerationState>]: the fields an update names *)
Record Updates : Type := {
  setStatus : option Status;
  setCurrentPhase : option Z;
  setTotalPhases : option Z;
  setError : option (option string);
}.

(** The object: its in-memory copy ([this.state]) and what its storage holds
    under the key [state]. *)
Record Agent : Type := {
  cached : option GenerationState;
  stored : option GenerationState;
}.

(** What the platform answers during one call: [Date.now()] and
    [crypto.randomUUID()]. *)
Record Ambient : Type := {
  now : Z;
  randomUUID : string;
}.

Section Methods.
Variable amb : Ambient.

Definition loadState (a : Agent) : GenerationState * Agent :=
  match cached a with
  | Some s => (s, a)
  | None =>
      match stored a with
      | Some s => (s, {| cached := Some s; stored := stored a |})
      | None =>
          let s := {| sessionId := randomUUID amb; status := idle;
                      currentPhase := 0; totalPhases := 0; error := None;
                      createdAt := now amb; updatedAt := now amb |} in
          (s, {| cached := Some s; stored := Some s |})
      end
  end.

(** [{ ...current, ...updates, updatedAt: Date.now() }] *)
Definition merge (current : GenerationState) (u : Updates) : GenerationState :=
  {| sessionId := sessionId current;
     status := default (status current) (setStatus u);
     currentPhase := default (currentPhase current) (setCurrentPhase u);
     totalPhases := default (totalPhases current) (setTotalPhases u);
     error := default (error current) (setError u);
     createdAt := createdAt current;
     updatedAt := now amb |}.

Definition updateState (u : Updates) (a : Agent) : GenerationState * Agent :=
  let '(current, _) := loadState a in
  let s := merge current u in
  (s, {| cached := Some s; stored := Some s |}).

Definition startGeneration (total : Z) (a : Agent) : GenerationState * Agent :=
  updateState {| setStatus := Some bootstrapping; setCurrentPhase := Some 0;
                 setTotalPhases := Some total; setError := Some None |} a.

Definition advancePhase (a : Agent) : GenerationState * Agent :=
  let '(state, a1) := loadState a in
  let newPhase := currentPhase state + 1 in
  updateState {| setStatus := Some (if newPhase >=? totalPhases state
                                    then completed else generating);
                 setCurrentPhase := Some newPhase;
                 setTotalPhases := None; setError := None |} a1.

Definition failGeneration (message : string) (a : Agent) : GenerationState * Agent :=
  updateState {| setStatus := Some failed; setCurrentPhase := None;
                 setTotalPhases := None; setError := Some (Some message) |} a.

Definition getState (a : Agent) : GenerationState * Agent := loadState a.

End Methods.

End Generation.

(** ** The SSE helper with its heartbeat timer (the streaming pattern of the
    pipeline engineering guides), over a logical clock in milliseconds *)

Module Sse.

(** The [data] argument of [send], before [JSON.stringify] *)
Inductive Payload : Type :=
| Timestamp (t : Z)
| Snapshot (state : string).

(** One chunk handed to the stream controller: [event: e\ndata: d\n\n] *)
Record Message : Type := {
  event : string;
  data : Payload;
}.

(** An interval registered with [setInterval(callback, 15000)]: its handle
    and the time of its next firing.  The only callback the helper ever
    registers is the heartbeat send. *)
Record Interval : Type := {
  handle : positive;
  nextFire : Z;
}.

Record World : Type := {
  clock : Z;
  intervals : list Interval;
  nextHandle : positive;
  heartbeatInterval : option positive;
  controllerOpen : bool;
  enqueued : list Message;
  sendFailures : nat;
}.

Definition heartbeatPeriod : Z := 15000.

(** [createSSEStream(controller)] on a controller that accepts chunks *)
Definition createSSEStream (startTime : Z) : World :=
  {| clock := startTime; intervals := []; nextHandle := 1%positive;
     heartbeatInterval := None; controllerOpen := true; enqueued := [];
     sendFailures := 0%nat |}.

(** [send]: [controller.enqueue] throws once the controller is closed; the
    [catch] logs and goes on. *)
Definition send (ev : string) (payload : Payload) (w : World) : World :=
  if controllerOpen w then
    {| clock := clock w; intervals := intervals w; nextHandle := nextHandle w;
       heartbeatInterval := heartbeatInterval w; controllerOpen := true;
       enqueued := enqueued w ++ [{| event := ev; data := payload |}];
       sendFailures := sendFailures w |}
  else
    {| clock := clock w; intervals := intervals w; nextHandle := nextHandle w;
       heartbeatInterval := heartbeatInterval w; controllerOpen := false;
       enqueued := enqueued w; sendFailures := S (sendFailures w) |}.

Definition startHeartbeat (w : World) : World :=
  let h := nextHandle w in
  {| clock := clock w;
     intervals := intervals w ++ [{| handle := h; nextFire := clock w + heartbeatPeriod |}];
     nextHandle := Pos.succ h;
     heartbeatInterval := Some h; controllerOpen := controllerOpen w;
     enqueued := enqueued w; sendFailures := sendFailures w |}.

(** [clearInterval(h)] *)
Definition clearInterval (h : positive) (l : list Interval) : list Interval :=
  List.filter (fun i => negb (Pos.eqb (handle i) h)) l.

Definition cleanup (w : World) : World :=
  match heartbeatInterval w with
  | Some h =>
      {| clock := clock w; intervals := clearInterval h (intervals w);
         nextHandle := nextHandle w; heartbeatInterval := None;
         controllerOpen := controllerOpen w; enqueued := enqueued w;
         sendFailures := sendFailures w |}
  | None => w
  end.

(** The consumer or the server closes the stream. *)
Definition closeController (w : World) : World :=
  {| clock := clock w; intervals := intervals w; nextHandle := nextHandle w;
     heartbeatInterval := heartbeatInterval w; controllerOpen := false;
     enqueued := enqueued w; sendFailures := sendFailures w |}.

(** Run the callbacks of the intervals due at the current time, oldest
    registration first, and re-arm them. *)
Fixpoint fireDue (pending : list Interval) (w : World) : World * list Interval :=
  match pending with
  | [] => (w, [])
  | i :: others =>
      if nextFire i =? clock w then
        let w1 := send "heartbeat" (Timestamp (clock w)) w in
        let '(w2, rearmed) := fireDue others w1 in
        (w2, {| handle := handle i; nextFire := nextFire i + heartbeatPeriod |} :: rearmed)
      else
        let '(w2, rearmed) := fireDue others w in
        (w2, i :: rearmed)
  end.

(** One millisecond passes. *)
Definition tick (w : World) : World :=
  let w0 := {| clock := clock w + 1; intervals := intervals w;
               nextHandle := nextHandle w; heartbeatInterval := heartbeatInterval w;
               controllerOpen := controllerOpen w; enqueued := enqueued w;
               sendFailures := sendFailures w |} in
  let '(w1, rearmed) := fireDue (intervals w0) w0 in
  {| clock := clock w1; intervals := rearmed; nextHandle := nextHandle w1;
     heartbeatInterval := heartbeatInterval w1; controllerOpen := controllerOpen w1;
     enqueued := enqueued w1; sendFailures := sendFailures w1 |}.

(** What happens around an open channel while it is left alone: the session
    state changes and a [status] event is sent, or time passes. *)
Inductive Activity : Type :=
| StateChange (snapshot : string)
| Elapse (ms : N).

Definition act (a : Activity) (w : World) : World :=
  match a with
  | StateChange snapshot => send "status" (Snapshot snapshot) w
  | Elapse ms => N.iter ms tick w
  end.

Definition run (activities : list Activity) (w : World) : World :=
  fold_left (fun w a => act a w) activities w.

Definition elapsed (activities : list Activity) : Z :=
  fold_right (fun a acc => match a with
                           | Elapse ms => Z.of_N ms + acc
                           | StateChange _ => acc
                           end) 0 activities.

Definition isHeartbeat (m : Message) : bool := String.eqb (event m) "heartbeat".

(** The heartbeat events the subscriber has been sent, oldest first *)
Definition heartbeatMessages (w : World) : list Message :=
  List.filter isHeartbeat (enqueued w).

Definition heartbeats (w : World) : Z := Z.of_nat (length (heartbeatMessages w)).

(** The [k]-th heartbeat of a channel opened at [startTime] *)
Definition beat (startTime : Z) (k : nat) : Message :=
  {| event := "heartbeat";
     data := Timestamp (startTime + heartbeatPeriod * Z.of_nat k) |}.

(** A channel as the broadcaster opens it: the helper is created and its
    heartbeat started. *)
Definition openChannel (startTime : Z) : World :=
  startHeartbeat (createSSEStream startTime).

End Sse.

(** ** Agent lookup, cloning and template selection (worker/agents/index.ts) *)

Module Agents.
Import Js.

Section CodeGenState.

(** [CodeGenState] is imported from core/state, which is not under src/: the
    fields [cloneAgent] names are spelled out with their element types left
    open, and every other field is kept together in [others]. *)
Context {UserInput ClientError GenerationPromise Others : Type}.

Record CodeGenState : Type := {
  sessionId : string;
  sandboxInstanceId : option string;
  pendingUserInputs : list UserInput;
  currentDevState : Z;
  generationPromise : option GenerationPromise;
  shouldBeGenerating : bool;
  clientReportedErrors : list ClientError;
  others : Others;
}.

(** The agent class is not under src/ either: an agent object is taken with
    the three methods [cloneAgent] calls on its stub. *)
Context {Agent : Type}.
Variable isInitialized : Agent -> bool.
Variable getFullState : Agent -> CodeGenState.
Variable setState : CodeGenState -> Agent -> Agent.

(** [env.CodeGenObject]: [getAgentByName] gives a stub for every name. *)
Definition Namespace : Type := string -> Agent.

Definition getAgentStub (env : Namespace) (agentId : string) : Agent := env agentId.

Definition getAgentState (env : Namespace) (agentId : string) : CodeGenState :=
  getFullState (getAgentStub env agentId).

Definition putAgent (agentId : string) (a : Agent) (env : Namespace) : Namespace :=
  fun other => if String.eqb other agentId then a else env other.

(** [generated] is what [generateId()] returns in this call. *)
Definition cloneAgent (generated : string) (env : Namespace) (agentId : string)
  : Completion string (string * Namespace) :=
  let agentInstance := getAgentStub env agentId in
  if negb (isInitialized agentInstance) then
    Throw ("Agent " ++ agentId ++ " not found")
  else
    let newAgentId := generated in
    let newAgent := getAgentStub env newAgentId in
    let originalState := getFullState agentInstance in
    let newState :=
      {| sessionId := newAgentId;
         sandboxInstanceId := None;
         pendingUserInputs := [];
         currentDevState := 0;
         generationPromise := None;
         shouldBeGenerating := false;
         clientReportedErrors := [];
         others := others originalState |} in
    Return (newAgentId, putAgent newAgentId (setState newState newAgent) env).

End CodeGenState.

Arguments CodeGenState : clear implicits.

(** The length of the longest of the ids in use *)
Definition longest (inUse : list string) : nat :=
  fold_right (fun id n => Nat.max (String.length id) n) 0%nat inUse.

(** Modelled from the spec: [generateId] of utils/idGenerator, which
    [cloneAgent] calls and which is not under src/.  The specification has
    the id of the clone freshly generated and distinct from the source's:
    the generator answers with an id that is none of the ids in use.
    [inUse] stands for the ids handed out so far; the id given is longer
    than each of them. *)
Definition generateId (inUse : list string) : string :=
  Nat.iter (S (longest inUse)) (String "0") "".

(** What a template service call or the selection call can throw: an [Error]
    with its message or some other value. *)
Inductive Caught : Type :=
| ErrorInstance (message : string)
| NotAnError (rendering : string).

Record TemplateInfo : Type := {
  templateName : string;
}.

Record TemplateListResponse : Type := {
  success : bool;
  templates : list TemplateInfo;
  listError : option string;
}.

Record TemplateSelection : Type := {
  selectedTemplateName : option string;
  reasoning : string;
}.

Inductive Event : Type :=
| ListTemplates
| SelectTemplate (available : list TemplateInfo)
| GetTemplateDetails (name : string)
| LogError (message : string)
| LogInfo (message : string).

Definition isSelectTemplate (ev : Event) : bool :=
  match ev with SelectTemplate _ => true | _ => false end.

Section TemplateForQuery.
Context {TemplateDetails : Type}.

Record TemplateDetailsResponse : Type := {
  detailsSuccess : bool;
  templateDetails : option TemplateDetails;
  detailsError : option string;
}.

(** What the collaborators answer: [SandboxSdkClient.listTemplates()] (with
    [None] for a missing response), [selectTemplate(...)] on the templates it
    is offered, and [BaseSandboxService.getTemplateDetails(name)]. *)
Variable listTemplates : Completion Caught (option TemplateListResponse).
Variable selectTemplate : list TemplateInfo -> Completion Caught TemplateSelection.
Variable getTemplateDetails : string -> Completion Caught TemplateDetailsResponse.

(** [x || 'Unknown error'] *)
Definition orUnknown (x : option string) : string :=
  match x with
  | Some m => if String.eqb m "" then "Unknown error" else m
  | None => "Unknown error"
  end.

(** [error instanceof Error ? error.message : 'Unknown error'] *)
Definition messageOrUnknown (c : Caught) : string :=
  match c with
  | ErrorInstance m => m
  | NotAnError _ => "Unknown error"
  end.

Definition nonEmpty (x : option string) : option string :=
  match x with
  | Some n => if String.eqb n "" then None else Some n
  | None => None
  end.

(** The steps after a template has been selected and found *)
Definition fetchDetails (selected : TemplateInfo) (selection : TemplateSelection)
  : list Event * Completion Caught (TemplateDetails * TemplateSelection) :=
  match getTemplateDetails (templateName selected) with
  | Throw _ =>
      ([GetTemplateDetails (templateName selected);
        LogError "Failed to fetch template details"],
       Throw (ErrorInstance
                ("Template service error: Failed to fetch template details for '"
                 ++ templateName selected ++ "'")))
  | Return response =>
      match detailsSuccess response, templateDetails response with
      | true, Some details =>
          ([GetTemplateDetails (templateName selected)], Return (details, selection))
      | _, _ =>
          ([GetTemplateDetails (templateName selected);
            LogError "Template details request failed"],
           Throw (ErrorInstance
                    ("Failed to fetch template files: "
                     ++ orUnknown (detailsError response))))
      end
  end.

(** The steps after the catalog has passed its checks *)
Definition selectFrom (available : list TemplateInfo)
  : list Event * Completion Caught (TemplateDetails * TemplateSelection) :=
  match selectTemplate available with
  | Throw error =>
      ([SelectTemplate available; LogError "Template selection failed"], Throw error)
  | Return selection =>
      match nonEmpty (selectedTemplateName selection) with
      | None =>
          ([SelectTemplate available; LogInfo "Selected template";
            LogError "No suitable template found for code generation"],
           Throw (ErrorInstance
                    "No suitable template found for your request. Please try rephrasing your query."))
      | Some wanted =>
          match List.find (fun t => String.eqb (templateName t) wanted) available with
          | None =>
              ([SelectTemplate available; LogInfo "Selected template";
                LogError "Selected template not found in available templates"],
               Throw (ErrorInstance
                        ("Selected template '" ++ wanted
                         ++ "' not found in available templates")))
          | Some selected =>
              let '(trace, outcome) := fetchDetails selected selection in
              (SelectTemplate available :: LogInfo "Selected template" :: trace, outcome)
          end
      end
  end.

Definition getTemplateForQuery
  : list Event * Completion Caught (TemplateDetails * TemplateSelection) :=
  match listTemplates with
  | Throw error =>
      ([ListTemplates; LogError "Failed to call listTemplates"],
       Throw (ErrorInstance ("Template service unavailable: " ++ messageOrUnknown error)))
  | Return None =>
      ([ListTemplates; LogError "Template list request failed"],
       Throw (ErrorInstance
                ("Failed to fetch templates from template service: " ++ orUnknown None)))
  | Return (Some response) =>
      if negb (success response) then
        ([ListTemplates; LogError "Template list request failed"],
         Throw (ErrorInstance
                  ("Failed to fetch templates from template service: "
                   ++ orUnknown (listError response))))
      else if (length (templates response) =? 0)%nat then
        ([ListTemplates],
         Throw (ErrorInstance "No templates available in the template catalog"))
      else
        let '(trace, outcome) := selectFrom (templates response) in
        (ListTemplates :: trace, outcome)
  end.

End TemplateForQuery.

End Agents.

(** ** The post-phase corrector switch *)

Module Corrector.
Import Config.

Section Correct.
Context {Files : Type}.

(** What a correction pass with a given model makes of the files *)
Variable runCorrection : string -> Files -> Files.

(** Modelled from the spec: the corrector ([PostPhaseCodeFixer], the realtime
    and fast code fixers) is not under src/.  The spec gives it the contract
    [correct(files, phaseContext) -> CorrectedFiles] and says that it is
    disableable via configuration (a [DISABLED] model sentinel) and that when
    disabled it is a no-op that passes files through unchanged. *)
Definition correct (profile : ModelConfig) (files : Files) : Files :=
  if String.eqb (name profile) (modelId DISABLED) then files
  else runCorrection (name profile) files.

End Correct.

End Corrector.

(** * Properties *)

(** ** String primitives *)

Module JsFacts.
Import Js.

Lemma split_cons_inv (sep : ascii) (s : string) :
  exists w ws, split sep s = w :: ws.
Proof.
  induction s as [|a s IH]; simpl.
  - eauto.
  - destruct (Ascii.eqb a sep); [eauto|].
    destruct IH as (w & ws & ->). eauto.
Qed.

Lemma first_split_prefix (sep : ascii) (p rest : string) :
  contains sep p = false ->
  first (split sep (p ++ String sep rest)) = Some p.
Proof.
  unfold contains, first.
  induction p as [|a p IH]; simpl; intros H.
  - rewrite Ascii.eqb_refl. reflexivity.
  - apply orb_false_iff in H as [Ha Hp].
    rewrite Ascii.eqb_sym, Ha.
    specialize (IH Hp).
    destruct (split_cons_inv sep (p ++ String sep rest)) as (w & ws & E).
    rewrite E in IH |- *. simpl in *. congruence.
Qed.

End JsFacts.

(** ** Agent configuration and the corrector switch *)

Module ConfigFacts.
Import Js Config Corrector.

(** C8: the configuration admits the [DISABLED] sentinel
    ([isValidAIModel] accepts it), the default [realtimeCodeFixer] and
    [fastCodeFixer] profiles are set to it, and a corrector whose profile
    names [DISABLED], these two in particular, returns its input files
    unchanged, whatever an enabled correction pass would do. *)
Theorem disabled_corrector_passes_files_through
  {Files : Type} (runCorrection : string -> Files -> Files) (files : Files)
  (effort : option ReasoningEffort) (tokens : option Z) (temp : option Q)
  (fallback : option string) :
  isValidAIModel (modelId DISABLED) = true
  /\ name (realtimeCodeFixer AGENT_CONFIG) = modelId DISABLED
  /\ name (fastCodeFixer AGENT_CONFIG) = modelId DISABLED
  /\ correct runCorrection (realtimeCodeFixer AGENT_CONFIG) files = files
  /\ correct runCorrection (fastCodeFixer AGENT_CONFIG) files = files
  /\ correct runCorrection
       {| name := modelId DISABLED; reasoning_effort := effort;
          max_tokens := tokens; temperature := temp;
          fallbackModel := fallback |} files = files.
Proof.
  repeat split; reflexivity.
Qed.

End ConfigFacts.

(** ** Credential and provider resolution *)

Module CoreFacts.
Import Js Core.

Example envKeyOf_google : envKeyOf "google-ai-studio" = "GOOGLE_AI_STUDIO_API_KEY".
Proof. reflexivity. Qed.

(** The key is built from the provider prefix alone: for the [grok/...]
    identifiers it is [GROK_API_KEY]. *)
Example envKeyOf_grok :
  envKeyOf <$> providerOf (Config.modelId Config.GROK_CODE_FAST_1) = Some "GROK_API_KEY".
Proof. reflexivity. Qed.

Example providerOf_claude :
  providerOf (Config.modelId Config.CLAUDE_SONNET_4_5) = Some "anthropic".
Proof. reflexivity. Qed.

(** C6: for a model identifier [provider/rest] (no slash inside [provider])
    the resolved provider is exactly [provider], the text before the first
    slash, and the environment key whose value is read as the credential is
    [provider] uppercased with every [-] replaced by [_] and suffixed
    [_API_KEY]: when that variable holds a valid key, it is the key
    [getConfigurationForModel] returns. *)
Theorem provider_prefix_and_env_key
  (validate : option string -> bool) (bindingUrl provider rest userId : string)
  (env : gmap string string) :
  contains "/" provider = false ->
  let key := replaceAll "-" "_" (toUpperCase provider) ++ "_API_KEY" in
  providerOf (provider ++ "/" ++ rest) = Some provider
  /\ envKeyOf provider = key
  /\ getConfigurationForModel validate bindingUrl (provider ++ "/" ++ rest) env userId
     = Return {| baseURL := buildGatewayUrl bindingUrl env;
                 apiKey := if validate (env !! key) then env !! key
                           else env !! "CLOUDFLARE_AI_GATEWAY_TOKEN" |}.
Proof.
  intros Hp key.
  assert (E : providerOf (provider ++ "/" ++ rest) = Some provider)
    by (apply JsFacts.first_split_prefix; exact Hp).
  split; [exact E|]. split; [reflexivity|].
  unfold getConfigurationForModel. rewrite E.
  unfold getApiKey, envKeyOf. fold key.
  destruct (validate (env !! key)); reflexivity.
Qed.

Definition sampleEnv : gmap string string :=
  <["ANTHROPIC_API_KEY" := "none"]>
    (<["CLOUDFLARE_AI_GATEWAY_TOKEN" := "gateway-token-123"]> ∅).

Lemma provider_prefix_and_env_key_witness :
  providerOf ("google-ai-studio" ++ "/" ++ "gemini-2.5-pro") = Some "google-ai-studio"
  /\ envKeyOf "google-ai-studio" = "GOOGLE_AI_STUDIO_API_KEY".
Proof.
  pose proof (provider_prefix_and_env_key isValidApiKey "https://gw/"
                "google-ai-studio" "gemini-2.5-pro" "user-1" sampleEnv eq_refl)
    as (H1 & H2 & _).
  split; [exact H1 | exact H2].
Defined.




End CoreFacts.

(** ** Template selection *)

Module TemplateFacts.
Import Js Agents.

(** The catalog answers the claim calls unusable: no response, a response
    with [success = false], or one with no templates. *)
Definition catalogUnusable (answer : option TemplateListResponse) : bool :=
  match answer with
  | None => true
  | Some response => negb (success response) || (length (templates response) =? 0)%nat
  end.

Section Rejection.
Context {TemplateDetails : Type}.
Variable selectTemplate : list TemplateInfo -> Completion Caught TemplateSelection.
Variable getTemplateDetails :
  string -> Completion Caught (@TemplateDetailsResponse TemplateDetails).

(** C5: when the catalog response is missing, has [success = false] or lists
    no template, [getTemplateForQuery] throws, so it returns no template, and
    its trace holds no call of [selectTemplate]: the selection inference is
    never started. *)
Theorem unusable_catalog_throws_before_selection
  (answer : option TemplateListResponse) :
  catalogUnusable answer = true ->
  let run := getTemplateForQuery (Return answer) selectTemplate getTemplateDetails in
  isThrow (snd run) = true
  /\ existsb isSelectTemplate (fst run) = false
  /\ (forall result, snd run <> Return result).
Proof.
  intros H. unfold getTemplateForQuery.
  destruct answer as [response|]; simpl in *.
  - destruct (success response); simpl in *.
    + rewrite H. simpl. repeat split. discriminate.
    + repeat split. discriminate.
  - repeat split. discriminate.
Qed.

End Rejection.

Definition emptyCatalog : TemplateListResponse :=
  {| success := true; templates := []; listError := None |}.

Lemma unusable_catalog_throws_before_selection_witness :
  isThrow (snd (getTemplateForQuery (TemplateDetails := string)
                  (Return (Some emptyCatalog))
                  (fun _ => Return {| selectedTemplateName := Some "vite";
                                      reasoning := "only one" |})
                  (fun _ => Throw (NotAnError "unreachable")))) = true.
Proof.
  apply (unusable_catalog_throws_before_selection
           (fun _ => Return {| selectedTemplateName := Some "vite";
                               reasoning := "only one" |})
           (fun _ => Throw (NotAnError "unreachable"))
           (Some emptyCatalog)).
  reflexivity.
Defined.

End TemplateFacts.

(** ** Provider fallback *)

Module FallbackFacts.
Import Js Fallback.

(** A provider that always answers with the same failure per provider name *)
Definition outage (googleError anthropicError : string) (p : Provider)
  : Completion Caught string :=
  if String.eqb (providerName p) "google"
  then Throw (ErrorInstance googleError)
  else Throw (ErrorInstance anthropicError).

(** The loop of [callAIWithFallback] keeps the last error only.  Two outages
    that differ only in how the first provider failed throw the very same
    error, so no reading of the thrown error can give back the attempts that
    were made: they are in the error log alone. *)
Lemma surfaced_error_forgets_primary_attempt :
  ~ (exists historyOf : Completion string string -> list (string * string),
       forall generateText : Provider -> Completion Caught string,
         (forall p, isThrow (generateText p) = true) ->
         historyOf (snd (callAIWithFallback generateText))
         = loggedAttempts (fst (callAIWithFallback generateText))).
Proof.
  intros [historyOf H].
  pose proof (H (outage "503" "timeout")) as H1.
  pose proof (H (outage "rate limited" "timeout")) as H2.
  assert (A : forall a b p, isThrow (outage a b p) = true).
  { intros a b p. unfold outage. destruct (String.eqb _ _); reflexivity. }
  specialize (H1 (A _ _)). specialize (H2 (A _ _)).
  vm_compute in H1, H2. congruence.
Qed.

End FallbackFacts.

(** ** The fallback law of the Inference Gateway *)

Module GatewayFacts.
Import Js Config InferenceGateway.
Local Open Scope list_scope.

Section Law.
Context {R : Type}.
Variable policy : RetryPolicy.
Variable call : string -> Z -> Completion Failure R.

(** A model whose every allowed attempt fails with a recoverable error is
    called once per attempt, with a pause after each but the last, and fails
    with the error of its last attempt. *)
Lemma callWithRetry_exhausted (model : string) (retriesLeft : nat) (attempt : Z) :
  (forall k, attempt <= k <= attempt + Z.of_nat retriesLeft ->
             exists failure, call model k = Throw failure /\ recoverable failure = true) ->
  exists last,
    call model (attempt + Z.of_nat retriesLeft) = Throw last
    /\ callWithRetry policy call retriesLeft attempt model
       = (retrySchedule policy model (S retriesLeft) attempt, Throw last).
Proof.
  revert attempt. induction retriesLeft as [|left IH]; intros attempt Hfail.
  - destruct (Hfail attempt ltac:(lia)) as (failure & Hcall & _).
    exists failure. replace (attempt + Z.of_nat 0) with attempt by lia.
    split; [exact Hcall|]. cbn [callWithRetry]. rewrite Hcall. reflexivity.
  - destruct (Hfail attempt ltac:(lia)) as (failure & Hcall & Hrec).
    destruct (IH (attempt + 1)) as (last & Hlast & Hrun).
    { intros k Hk. apply Hfail. lia. }
    exists last.
    replace (attempt + Z.of_nat (S left)) with (attempt + 1 + Z.of_nat left) by lia.
    split; [exact Hlast|].
    cbn [callWithRetry]. rewrite Hcall, Hrec, Hrun. reflexivity.
Qed.


End Law.

(** The provider of the primary model is down; every other provider answers. *)
Definition primaryOutage (model : string) (attempt : Z) : Completion Failure string :=
  if String.eqb (providerNameOf model) "anthropic"
  then Throw {| recoverable := true; message := "503 Service Unavailable" |}
  else Return ("plan by " ++ model)%string.


(** When the fallback is down too, the failure names both attempts. *)
Example both_providers_down :
  snd (invoke defaultPolicy
         (fun model (_ : Z) =>
            Throw (A := string)
              {| recoverable := true;
                 message := ("timeout at " ++ providerNameOf model)%string |})
         (blueprint AGENT_CONFIG))
  = Throw {| attemptHistory := [ ("anthropic", "timeout at anthropic");
                                 ("grok", "timeout at grok") ] |}.
Proof. reflexivity. Qed.

End GatewayFacts.

(** ** The session state object *)

Module GenerationFacts.
Import Generation.

(** The calls a session object receives; [Evict] is the platform dropping the
    in-memory copy between calls. *)
Inductive Call : Type :=
| Start (total : Z)
| Advance
| Fail (message : string)
| Get
| Evict.

Definition perform (amb : Ambient) (c : Call) (a : Agent) : Agent :=
  match c with
  | Start total => snd (startGeneration amb total a)
  | Advance => snd (advancePhase amb a)
  | Fail message => snd (failGeneration amb message a)
  | Get => snd (getState amb a)
  | Evict => {| cached := None; stored := stored a |}
  end.

Definition fresh : Agent := {| cached := None; stored := None |}.

(** The objects that calls can produce from a fresh one *)
Inductive reachable : Agent -> Prop :=
| reachable_fresh : reachable fresh
| reachable_step amb c a : reachable a -> reachable (perform amb c a).

(** A completed state has run through all its phases. *)
Definition settled (s : GenerationState) : Prop :=
  status s = completed -> totalPhases s <= currentPhase s.

Definition wellFormed (a : Agent) : Prop :=
  (forall s, cached a = Some s -> settled s)
  /\ (forall s, stored a = Some s -> settled s).

Lemma loadState_settled amb a :
  wellFormed a -> settled (fst (loadState amb a)) /\ wellFormed (snd (loadState amb a)).
Proof.
  intros [Hc Hs]. unfold loadState.
  destruct (cached a) as [s|] eqn:Ec.
  - simpl. split; [auto|]. split; [rewrite Ec; auto | auto].
  - destruct (stored a) as [s|] eqn:Es; simpl.
    + split; [auto|]. split; simpl; intros s' E.
      * inversion E; subst; auto.
      * try rewrite Es in E. inversion E; subst; auto.
    + assert (F : forall u t, settled {| sessionId := u; status := idle;
                 currentPhase := 0; totalPhases := 0; error := None;
                 createdAt := t; updatedAt := t |})
        by (intros u t; unfold settled; simpl; discriminate).
      split; [apply F|].
      split; simpl; intros s' E; inversion E; subst; apply F.
Qed.

Lemma updateState_wellFormed amb u a :
  settled (merge amb (fst (loadState amb a)) u) ->
  wellFormed (snd (updateState amb u a)).
Proof.
  intros H. unfold updateState.
  destruct (loadState amb a) as [current a1]. simpl in *.
  split; simpl; intros s E; inversion E; subst; exact H.
Qed.

Lemma loadState_again amb a :
  fst (loadState amb (snd (loadState amb a))) = fst (loadState amb a).
Proof.
  unfold loadState.
  destruct (cached a) as [s|] eqn:Ec; simpl.
  - rewrite Ec. reflexivity.
  - destruct (stored a) as [s|]; reflexivity.
Qed.

Lemma advancePhase_state amb a :
  let s := fst (loadState amb a) in
  fst (advancePhase amb a)
  = {| sessionId := sessionId s;
       status := if totalPhases s <=? currentPhase s + 1 then completed else generating;
       currentPhase := currentPhase s + 1;
       totalPhases := totalPhases s;
       error := error s;
       createdAt := createdAt s;
       updatedAt := now amb |}.
Proof.
  intros s. unfold advancePhase, updateState.
  pose proof (loadState_again amb a) as E. fold s in E.
  destruct (loadState amb a) as [s0 a1]. simpl in s, E. subst s.
  destruct (loadState amb a1) as [s1 a2]. simpl in E. subst s1.
  unfold merge. cbn [fst setStatus setCurrentPhase setTotalPhases setError default].
  rewrite Z.geb_leb. reflexivity.
Qed.

Lemma reachable_wellFormed a : reachable a -> wellFormed a.
Proof.
  induction 1 as [|amb c a _ IH].
  - split; simpl; discriminate.
  - destruct c; simpl.
    + apply updateState_wellFormed. unfold settled; simpl. discriminate.
    + unfold advancePhase.
      destruct (loadState_settled amb a IH) as [Hs Hw].
      destruct (loadState amb a) as [s a1] eqn:E. simpl in *.
      apply updateState_wellFormed.
      assert (E1 : fst (loadState amb a1) = s).
      { pose proof (loadState_again amb a) as L. rewrite E in L. exact L. }
      rewrite E1. unfold settled, merge.
      cbn [status currentPhase totalPhases setStatus setCurrentPhase
           setTotalPhases default].
      destruct (currentPhase s + 1 >=? totalPhases s) eqn:G; [|discriminate].
      intros _. rewrite Z.geb_leb in G. apply Z.leb_le in G. exact G.
    + apply updateState_wellFormed. unfold settled; simpl. discriminate.
    + apply loadState_settled. exact IH.
    + destruct IH as [_ Hs]. split; simpl; [discriminate | exact Hs].
Qed.

(** C2, as the code has it: [advancePhase] has no guard on the status.  On
    every session the calls can produce it adds one to [currentPhase], sets
    [updatedAt] to the current time, leaves the other fields alone and writes
    the status anew; a completed session stays completed (its status does not
    regress, although the call is not a no-op), and from any other status,
    [failed] included, the status becomes [completed] or [generating]
    according to the new phase index. *)
Theorem advancePhase_is_unguarded (amb : Ambient) (a : Agent) :
  reachable a ->
  let s := fst (loadState amb a) in
  let s' := fst (advancePhase amb a) in
  currentPhase s' = currentPhase s + 1
  /\ updatedAt s' = now amb
  /\ (sessionId s', totalPhases s', error s', createdAt s')
     = (sessionId s, totalPhases s, error s, createdAt s)
  /\ status s'
     = match status s with
       | completed => completed
       | _ => if totalPhases s <=? currentPhase s + 1 then completed else generating
       end
  /\ snd (advancePhase amb a) = {| cached := Some s'; stored := Some s' |}.
Proof.
  intros Hr s s'.
  pose proof (advancePhase_state amb a) as E. fold s in E. fold s' in E.
  rewrite E. simpl. repeat split.
  - destruct (loadState_settled amb a (reachable_wellFormed a Hr)) as [Hs _].
    fold s in Hs. unfold settled in Hs.
    destruct (status s); try reflexivity.
    specialize (Hs eq_refl).
    destruct (Z.leb_spec (totalPhases s) (currentPhase s + 1)); [reflexivity | lia].
  - rewrite <- E. unfold s', advancePhase, updateState.
    destruct (loadState amb a) as [s0 a1]. destruct (loadState amb a1). reflexivity.
Qed.

Definition clockAt (t : Z) : Ambient := {| now := t; randomUUID := "session-1" |}.

(** A session of three phases that failed during its second phase *)
Definition failedSession : Agent :=
  perform (clockAt 40) (Fail "provider outage")
    (perform (clockAt 30) Advance
       (perform (clockAt 20) (Start 3) fresh)).

(** A session of one phase that ran to completion *)
Definition completedSession : Agent :=
  perform (clockAt 30) Advance (perform (clockAt 20) (Start 1) fresh).

Lemma advancePhase_is_unguarded_witness :
  status (fst (advancePhase (clockAt 50) completedSession)) = completed
  /\ currentPhase (fst (advancePhase (clockAt 50) completedSession)) = 2.
Proof.
  assert (R : reachable completedSession) by (repeat constructor).
  destruct (advancePhase_is_unguarded (clockAt 50) completedSession R)
    as (Hphase & _ & _ & Hstatus & _).
  split.
  - rewrite Hstatus. reflexivity.
  - rewrite Hphase. reflexivity.
Defined.

(** C2 as stated fails: on a failed session [advancePhase] is not a no-op and
    the status leaves the terminal state, and on a completed session the
    returned state differs from the current one. *)
Lemma advancePhase_changes_terminal_sessions :
  status (fst (getState (clockAt 50) failedSession)) = failed
  /\ status (fst (advancePhase (clockAt 50) failedSession)) = generating
  /\ status (fst (getState (clockAt 50) completedSession)) = completed
  /\ fst (advancePhase (clockAt 50) completedSession)
     <> fst (getState (clockAt 50) completedSession).
Proof.
  repeat split; try reflexivity.
  vm_compute. discriminate.
Qed.

End GenerationFacts.

(** ** Cloning an agent *)

Module CloneFacts.
Import Js Agents.

Section Clone.
Context {UserInput ClientError GenerationPromise Others Agent : Type}.
Abbreviation State := (CodeGenState UserInput ClientError GenerationPromise Others).
Variable isInitialized : Agent -> bool.
Variable getFullState : Agent -> State.
Variable setState : State -> Agent -> Agent.

(** What the agent class promises of its two state accessors: a state that
    was set is the state that is read. *)
Hypothesis getFullState_setState :
  forall s a, getFullState (setState s a) = s.

(** For an initialized source and a generated id that is neither the
    source's name nor its session id, [cloneAgent] returns the generated id
    and leaves under it an agent whose state is the source's state except
    for the fields it resets.  Every other agent, the source among them, is
    as before.  For a source that is not initialized it throws. *)
Lemma cloneAgent_with_new_id
  (generated agentId : string) (env : string -> Agent) :
  generated <> agentId ->
  generated <> sessionId (getFullState (env agentId)) ->
  if isInitialized (env agentId) then
    exists env',
      cloneAgent isInitialized getFullState setState generated env agentId
      = Return (generated, env')
      /\ getAgentState getFullState env' generated
         = {| sessionId := generated;
              sandboxInstanceId := None;
              pendingUserInputs := [];
              currentDevState := 0;
              generationPromise := None;
              shouldBeGenerating := false;
              clientReportedErrors := [];
              others := others (getFullState (env agentId)) |}
      /\ sessionId (getAgentState getFullState env' generated)
         <> sessionId (getAgentState getFullState env agentId)
      /\ (forall other, other <> generated -> env' other = env other)
      /\ getAgentState getFullState env' agentId
         = getAgentState getFullState env agentId
  else
    cloneAgent isInitialized getFullState setState generated env agentId
    = Throw ("Agent " ++ agentId ++ " not found").
Proof.
  intros Hname Hsession. unfold cloneAgent, getAgentStub.
  destruct (isInitialized (env agentId)); simpl; [|reflexivity].
  eexists. split; [reflexivity|].
  assert (P : forall other a, other <> generated ->
                              putAgent generated a env other = env other).
  { intros other a Hne. unfold putAgent.
    destruct (String.eqb_spec other generated); [contradiction | reflexivity]. }
  unfold getAgentState, getAgentStub.
  repeat split.
  - unfold putAgent. rewrite String.eqb_refl. apply getFullState_setState.
  - unfold putAgent. rewrite String.eqb_refl, getFullState_setState. simpl.
    exact Hsession.
  - intros other Hne. apply P. exact Hne.
  - rewrite P by congruence. reflexivity.
Qed.

Lemma iter_length (n : nat) (c : ascii) :
  String.length (Nat.iter n (String c) "") = n.
Proof.
  induction n as [|n IH]; [reflexivity|].
  change (S (String.length (Nat.iter n (String c) "")) = S n).
  rewrite IH. reflexivity.
Qed.

Lemma longest_bound (inUse : list string) (id : string) :
  In id inUse -> (String.length id <= longest inUse)%nat.
Proof.
  induction inUse as [|first rest IH]; intros Hin; [destruct Hin|].
  cbn [longest fold_right]. fold (longest rest).
  destruct Hin as [->|Hin]; [lia|]. specialize (IH Hin). lia.
Qed.

(** The generated id is none of the ids in use. *)
Lemma generateId_fresh (inUse : list string) : ~ In (generateId inUse) inUse.
Proof.
  intros Hin. apply longest_bound in Hin.
  unfold generateId in Hin. rewrite iter_length in Hin. lia.
Qed.


End Clone.

(** A namespace where an agent is its state, if one was ever set *)
Definition sampleState : CodeGenState string string unit (list string) :=
  {| sessionId := "agent-a"; sandboxInstanceId := Some "sandbox-7";
     pendingUserInputs := ["make it blue"]; currentDevState := 2;
     generationPromise := Some tt; shouldBeGenerating := true;
     clientReportedErrors := ["TypeError"];
     others := ["blueprint"; "generatedFilesMap"] |}.

Definition blankState : CodeGenState string string unit (list string) :=
  {| sessionId := ""; sandboxInstanceId := None; pendingUserInputs := [];
     currentDevState := 0; generationPromise := None;
     shouldBeGenerating := false; clientReportedErrors := []; others := [] |}.

Definition sampleNamespace (agentId : string)
  : option (CodeGenState string string unit (list string)) :=
  if String.eqb agentId "agent-a" then Some sampleState else None.

Definition cloneId : string := generateId ["agent-a"; "agent-b"].


End CloneFacts.

(** ** Bounded retry *)

Module RetryFacts.
Import Js Retry.

Section Loop.
Context {T E : Type}.
Variable options : RetryOptions E.
Variable fn : Z -> Completion E T.

Abbreviation loop := (retryLoop (T := T) options fn).
Abbreviation lastAttempt := (maxAttempts options).

Lemma invocations_scheduleFrom (n : nat) (attempt : Z) :
  invocations (scheduleFrom options n attempt) = n.
Proof.
  revert attempt. induction n as [|n IH]; intros attempt; [reflexivity|].
  destruct n as [|n]; [reflexivity|].
  change (invocations (scheduleFrom options (S (S n)) attempt))
    with (S (invocations (scheduleFrom options (S n) (attempt + 1)))).
  rewrite IH. reflexivity.
Qed.

(** More fuel than the attempts left changes nothing: the loop leaves by its
    own condition. *)
Lemma retryLoop_fuel_sufficient (extra fuel : nat) (attempt : Z) (lastError : option E) :
  fuel = Z.to_nat (lastAttempt - attempt + 1) ->
  loop (fuel + extra) attempt lastError = loop fuel attempt lastError.
Proof.
  revert attempt lastError.
  induction fuel as [|fuel IH]; intros attempt lastError Hfuel.
  - destruct extra as [|extra]; [reflexivity|]. simpl.
    destruct (Z.leb_spec attempt lastAttempt); [lia | reflexivity].
  - simpl. destruct (attempt <=? lastAttempt); [|reflexivity].
    destruct (fn attempt) as [v|error]; [reflexivity|].
    destruct (givesUp options error); [reflexivity|].
    rewrite IH by lia. reflexivity.
Qed.

(** The shape of a run from [attempt] on: [n] attempts were made, every one
    but the last followed by its pause, and an error that [shouldRetry]
    turns down ends the run where it occurs. *)
Lemma retryLoop_shape (fuel : nat) (attempt : Z) (lastError : option E) :
  fuel = Z.to_nat (lastAttempt - attempt + 1) ->
  exists n : nat,
    (n <= fuel)%nat
    /\ (0 < fuel -> 0 < n)%nat
    /\ fst (loop fuel attempt lastError) = scheduleFrom options n attempt
    /\ forall k error,
         attempt <= k < attempt + Z.of_nat n ->
         fn k = Throw error ->
         givesUp options error = true ->
         k = attempt + Z.of_nat n - 1
         /\ snd (loop fuel attempt lastError) = Throw (Some error).
Proof.
  revert attempt lastError.
  induction fuel as [|fuel IH]; intros attempt lastError Hfuel.
  - exists 0%nat. simpl. repeat split; try lia.
  - simpl. destruct (Z.leb_spec attempt lastAttempt) as [Hle|Hgt]; [|lia].
    destruct (fn attempt) as [v|error] eqn:Hfn.
    + exists 1%nat. simpl. repeat split; try lia.
      all: assert (k = attempt) by lia; subst k; congruence.
    + destruct (givesUp options error) eqn:Hgive.
      * exists 1%nat. simpl. repeat split; try lia.
        assert (k = attempt) by lia; subst k. congruence.
      * destruct (IH (attempt + 1) (Some error) ltac:(lia))
          as (n & Hn & Hpos & Htrace & Hstop).
        destruct (loop fuel (attempt + 1) (Some error)) as [rest outcome] eqn:Hrest.
        simpl in Htrace, Hstop. exists (S n). simpl.
        split; [lia|]. split; [lia|]. split.
        -- destruct (Z.ltb_spec attempt lastAttempt) as [Hlt|Hge].
           ++ destruct n as [|n]; [lia|]. rewrite Htrace. reflexivity.
           ++ assert (fuel = 0%nat) by lia. subst fuel.
              assert (n = 0%nat) by lia. subst n.
              simpl in Hrest. inversion Hrest; subst. reflexivity.
        -- intros k e Hk Hfk Hge.
           destruct (Z.eq_dec k attempt) as [->|Hne]; [congruence|].
           destruct (Hstop k e ltac:(lia) Hfk Hge) as [Hlast Hout].
           split; [lia | exact Hout].
Qed.

(** A run that has at least one attempt to make, from [attempt] on: the
    attempt that ends it is the first that returns, or fails with an error
    [shouldRetry] turns down, or is the last one allowed; every attempt
    before it failed with an error that is retried. *)
Lemma retryLoop_run (fuel : nat) (attempt : Z) (lastError : option E) :
  fuel = Z.to_nat (lastAttempt - attempt + 1) ->
  (0 < fuel)%nat ->
  exists n : nat,
    (1 <= n <= fuel)%nat
    /\ fst (loop fuel attempt lastError) = scheduleFrom options n attempt
    /\ (forall k, attempt <= k < attempt + Z.of_nat n - 1 ->
                  exists error, fn k = Throw error /\ givesUp options error = false)
    /\ match fn (attempt + Z.of_nat n - 1) with
       | Return v => snd (loop fuel attempt lastError) = Return v
       | Throw error =>
           snd (loop fuel attempt lastError) = Throw (Some error)
           /\ (attempt + Z.of_nat n - 1 = lastAttempt \/ givesUp options error = true)
       end.
Proof.
  revert attempt lastError.
  induction fuel as [|fuel IH]; intros attempt lastError Hfuel Hpos; [lia|].
  cbn [retryLoop]. destruct (Z.leb_spec attempt lastAttempt) as [Hle|Hgt]; [|lia].
  destruct (fn attempt) as [v|error] eqn:Hfn.
  - exists 1%nat. replace (attempt + Z.of_nat 1 - 1) with attempt by lia.
    rewrite Hfn. cbn [fst snd scheduleFrom].
    split; [lia|]. split; [reflexivity|]. split; [intros k Hk; lia | reflexivity].
  - destruct (givesUp options error) eqn:Hgive.
    + exists 1%nat. replace (attempt + Z.of_nat 1 - 1) with attempt by lia.
      rewrite Hfn. cbn [fst snd scheduleFrom].
      split; [lia|]. split; [reflexivity|]. split; [intros k Hk; lia|].
      split; [reflexivity | right; exact Hgive].
    + destruct fuel as [|fuel'].
      * exists 1%nat. replace (attempt + Z.of_nat 1 - 1) with attempt by lia.
        rewrite Hfn. assert (Hlast : attempt = lastAttempt) by lia.
        destruct (Z.ltb_spec attempt lastAttempt) as [Hlt|_]; [lia|].
        cbn [retryLoop fst snd scheduleFrom app].
        split; [lia|]. split; [reflexivity|]. split; [intros k Hk; lia|].
        split; [reflexivity | left; exact Hlast].
      * destruct (IH (attempt + 1) (Some error) ltac:(lia) ltac:(lia))
          as (n & Hn & Htrace & Hbefore & Hend).
        destruct (loop (S fuel') (attempt + 1) (Some error)) as [rest outcome] eqn:Hrest.
        cbn [fst snd] in Htrace, Hend. exists (S n).
        replace (attempt + Z.of_nat (S n) - 1) with (attempt + 1 + Z.of_nat n - 1) by lia.
        destruct (Z.ltb_spec attempt lastAttempt) as [Hlt|Hge]; [|lia].
        cbn [fst snd]. split; [lia|]. split.
        { destruct n as [|n]; [lia|]. rewrite Htrace. reflexivity. }
        split; [|exact Hend].
        intros k Hk. destruct (Z.eq_dec k attempt) as [->|Hne].
        -- exists error. split; [exact Hfn | exact Hgive].
        -- apply Hbefore. lia.
Qed.

(** C3: a run of [withRetry] that is allowed at least one attempt invokes
    the operation [n] times with [1 <= n <= maxAttempts]; its trace is
    exactly attempts [1 .. n] with, between attempt [k] and attempt [k + 1],
    one pause of [min (backoffMs * 2 ^ (k - 1)) maxBackoffMs], where
    [maxBackoffMs] is 30000 unless given.  Every attempt before the last
    failed with an error that is retried; the last attempt either returned,
    and its value is the result, or failed, and then its error is the one
    thrown and it was either attempt [maxAttempts] or an error [shouldRetry]
    turned down.  So the first attempt that fails with an error for which
    [shouldRetry] answers false is the last one made, and this very error is
    thrown.  At the phase-generation call site [maxAttempts] is 3. *)
Theorem withRetry_bounded_with_capped_backoff :
  1 <= maxAttempts options ->
  exists n : nat,
    (1 <= n)%nat
    /\ Z.of_nat n <= maxAttempts options
    /\ invocations (fst (withRetry options fn)) = n
    /\ fst (withRetry options fn) = schedule options n
    /\ (forall k, delayAfter options k
                  = Z.min (backoffMs options * 2 ^ (k - 1))
                      (default 30000 (maxBackoffMs options)))
    /\ (forall k, 1 <= k < Z.of_nat n ->
                  exists error, fn k = Throw error /\ givesUp options error = false)
    /\ match fn (Z.of_nat n) with
       | Return v => snd (withRetry options fn) = Return v
       | Throw error =>
           snd (withRetry options fn) = Throw (Some error)
           /\ (Z.of_nat n = maxAttempts options \/ givesUp options error = true)
       end
    /\ (forall k error p,
          1 <= k <= maxAttempts options ->
          (forall j, 1 <= j < k ->
                     exists earlier, fn j = Throw earlier
                                     /\ givesUp options earlier = false) ->
          fn k = Throw error ->
          shouldRetry options = Some p ->
          p error = false ->
          Z.of_nat n = k /\ snd (withRetry options fn) = Throw (Some error))
    /\ maxAttempts (generatePhaseOptions E) = 3.
Proof.
  intros Hmax. unfold withRetry, schedule.
  destruct (retryLoop_run (Z.to_nat lastAttempt) 1 None ltac:(lia) ltac:(lia))
    as (n & Hn & Htrace & Hbefore & Hend).
  replace (1 + Z.of_nat n - 1) with (Z.of_nat n) in Hend by lia.
  exists n. rewrite Htrace.
  split; [lia|]. split; [lia|].
  split; [apply invocations_scheduleFrom|].
  split; [reflexivity|]. split; [reflexivity|].
  split; [intros k Hk; apply Hbefore; lia|].
  split; [exact Hend|]. split; [|reflexivity].
  intros k error p Hk Hearlier Hfk Hp Hfalse.
  assert (G : givesUp options error = true)
    by (unfold givesUp; rewrite Hp, Hfalse; reflexivity).
  assert (Hkn : Z.of_nat n = k).
  { destruct (Z.lt_trichotomy k (Z.of_nat n)) as [Hlt|[Heq|Hgt]].
    - destruct (Hbefore k ltac:(lia)) as (e & He & Hkeep). congruence.
    - lia.
    - destruct (Hearlier (Z.of_nat n) ltac:(lia)) as (e & He & Hkeep).
      rewrite He in Hend. destruct Hend as [_ [Hlast|Hstop]]; [lia | congruence]. }
  split; [exact Hkn|]. rewrite Hkn, Hfk in Hend. exact (proj1 Hend).
Qed.

End Loop.

(** A run in which a rate limit is retried and a bad request is not *)
Definition retryUnlessBadRequest : RetryOptions string :=
  {| maxAttempts := 5; backoffMs := 20000; maxBackoffMs := None;
     shouldRetry := Some (fun e => negb (String.eqb e "bad request")) |}.

Definition flakyCall (attempt : Z) : Completion string string :=
  if attempt <? 3 then Throw "rate limited" else Throw "bad request".

Example withRetry_flaky :
  withRetry retryUnlessBadRequest flakyCall
  = ([Invoke 1; Sleep 20000; Invoke 2; Sleep 30000; Invoke 3],
     Throw (Some "bad request")).
Proof. reflexivity. Qed.

Lemma withRetry_bounded_with_capped_backoff_witness :
  exists n : nat,
    (1 <= n)%nat
    /\ Z.of_nat n <= 5
    /\ invocations (fst (withRetry retryUnlessBadRequest flakyCall)) = n.
Proof.
  destruct (withRetry_bounded_with_capped_backoff retryUnlessBadRequest flakyCall)
    as (n & Hpos & Hbound & Hcount & _).
  - simpl. lia.
  - exists n. split; [exact Hpos|]. split; [exact Hbound | exact Hcount].
Defined.

End RetryFacts.

(** ** The text after the last separator *)

Module SuffixFacts.
Import Js.

(** The text after the last [c] of a string, if [c] occurs in it *)
Fixpoint afterLast (c : ascii) (s : string) : option string :=
  match s with
  | EmptyString => None
  | String a s' =>
      match afterLast c s' with
      | Some e => Some e
      | None => if Ascii.eqb a c then Some s' else None
      end
  end.

Lemma afterLast_None_contains c s :
  afterLast c s = None <-> contains c s = false.
Proof.
  unfold contains. induction s as [|a s IH]; simpl; [tauto|].
  rewrite (Ascii.eqb_sym c a).
  destruct (afterLast c s) as [e|].
  - assert (existsb (Ascii.eqb c) (list_ascii_of_string s) <> false)
      by (intros F; apply IH in F; discriminate).
    split; [discriminate|]. intros F. apply orb_false_iff in F. tauto.
  - destruct IH as [IH _]. rewrite (IH eq_refl), orb_false_r.
    destruct (Ascii.eqb a c); split; congruence.
Qed.

Lemma afterLast_clean c s e : afterLast c s = Some e -> afterLast c e = None.
Proof.
  revert e. induction s as [|a s IH]; simpl; intros e H; [discriminate|].
  destruct (afterLast c s) as [e'|] eqn:E.
  - inversion H; subst. apply IH. reflexivity.
  - destruct (Ascii.eqb a c); inversion H; subst. exact E.
Qed.

Lemma afterLast_decompose c s e :
  afterLast c s = Some e -> exists pre, s = pre ++ String c e.
Proof.
  revert e. induction s as [|a s IH]; simpl; intros e H; [discriminate|].
  destruct (afterLast c s) as [e'|] eqn:E.
  - inversion H; subst. destruct (IH e eq_refl) as [pre ->].
    exists (String a pre). reflexivity.
  - destruct (Ascii.eqb_spec a c); inversion H; subst.
    exists EmptyString. reflexivity.
Qed.

Lemma afterLast_app c pre e :
  afterLast c e = None -> afterLast c (pre ++ String c e) = Some e.
Proof.
  intros H. induction pre as [|a pre IH]; simpl.
  - rewrite H, Ascii.eqb_refl. reflexivity.
  - rewrite IH. reflexivity.
Qed.

Lemma lastIndexOfFrom_absent c s i found :
  afterLast c s = None -> lastIndexOfFrom c s i found = found.
Proof.
  revert i found. induction s as [|a s IH]; simpl; intros i found H; [reflexivity|].
  destruct (afterLast c s); [discriminate|].
  destruct (Ascii.eqb a c); [discriminate|]. apply IH. reflexivity.
Qed.

Lemma lastIndexOfFrom_present c pre e i found :
  afterLast c e = None ->
  lastIndexOfFrom c (pre ++ String c e) i found = i + Z.of_nat (String.length pre).
Proof.
  intros H. revert i found. induction pre as [|a pre IH]; intros i found.
  - simpl. rewrite Ascii.eqb_refl, lastIndexOfFrom_absent by exact H. lia.
  - change (lastIndexOfFrom c (String a pre ++ String c e) i found)
      with (lastIndexOfFrom c (pre ++ String c e) (i + 1)
              (if Ascii.eqb a c then i else found)).
    rewrite IH. simpl String.length. lia.
Qed.

Lemma dropChars_app pre rest : dropChars (String.length pre) (pre ++ rest) = rest.
Proof. induction pre as [|a pre IH]; simpl; [destruct rest|]; auto. Qed.

Lemma mapChars_app f s t : mapChars f (s ++ t) = mapChars f s ++ mapChars f t.
Proof. induction s as [|a s IH]; simpl; [|rewrite IH]; reflexivity. Qed.

Lemma mapChars_length f s : String.length (mapChars f s) = String.length s.
Proof. induction s as [|a s IH]; simpl; [|rewrite IH]; reflexivity. Qed.

(** [split] ends with the text after the last separator, or is the whole
    string when there is none. *)
Lemma split_afterLast c s :
  match afterLast c s with
  | None => split c s = [s]
  | Some e => exists w front, split c s = (w :: front ++ [e])%list
  end.
Proof.
  induction s as [|a s IH]; simpl; [reflexivity|].
  destruct (afterLast c s) as [e|].
  - destruct IH as (w & front & ->).
    destruct (Ascii.eqb a c).
    + exists EmptyString, (w :: front). reflexivity.
    + exists (String a w), front. reflexivity.
  - rewrite IH. destruct (Ascii.eqb a c).
    + exists EmptyString, []. reflexivity.
    + reflexivity.
Qed.

Lemma pop_split c s : pop (split c s) = Some (default s (afterLast c s)).
Proof.
  unfold pop. pose proof (split_afterLast c s) as H.
  destruct (afterLast c s) as [e|].
  - destruct H as (w & front & ->).
    change (w :: front ++ [e])%list with ((w :: front) ++ [e])%list.
    rewrite last_snoc. reflexivity.
  - rewrite H. reflexivity.
Qed.

Lemma lowerChar_keeps_dot a : Ascii.eqb (lowerChar a) "." = Ascii.eqb a ".".
Proof.
  destruct a as [[] [] [] [] [] [] [] []]; reflexivity.
Qed.

Lemma afterLast_toLowerCase s :
  afterLast "." (toLowerCase s) = toLowerCase <$> afterLast "." s.
Proof.
  unfold toLowerCase. induction s as [|a s IH]; simpl; [reflexivity|].
  rewrite IH, lowerChar_keeps_dot.
  destruct (afterLast "." s); simpl; [reflexivity|].
  destruct (Ascii.eqb a "."); reflexivity.
Qed.

End SuffixFacts.

(** ** The two extension-to-MIME tables *)

Module MimeFacts.
Import Js SuffixFacts.

(** The extensions both tables know and map to the same type *)
Definition agreeingExtensions : list string :=
  [ "txt"; "md"; "html"; "css"; "json"; "xml"; "py"; "java"; "c"; "h";
    "go"; "rs"; "rb"; "php"; "swift"; "kt"; "zip"; "gz"; "tar" ].

(** Both functions as functions of the extension they cut out *)
Definition dotted (ext : string) : PropertyValue :=
  let hit := getProperty CodeFileTypes.mimeMap ext in
  if truthy hit then default (OwnString "application/octet-stream") hit
  else OwnString "application/octet-stream".

Definition bare (ext : string) : option PropertyValue :=
  if String.eqb ext "" then None
  else
    let hit := getProperty ArchiveFileTypes.extensionMap ext in
    if truthy hit then hit else None.

Definition sameResult (a : option PropertyValue) (b : PropertyValue) : bool :=
  match a, b with
  | Some (OwnString x), OwnString y => String.eqb x y
  | Some (Inherited x), Inherited y => String.eqb x y
  | _, _ => false
  end.

Lemma sameResult_spec a b : sameResult a b = true <-> a = Some b.
Proof.
  destruct a as [[x|x]|], b as [y|y]; simpl;
    try (split; [discriminate | intros H; inversion H]);
    (split; [intros H; apply String.eqb_eq in H; subst; reflexivity
            | intros H; inversion H; apply String.eqb_refl]).
Qed.

Definition inList (k : string) (l : list string) : bool := existsb (String.eqb k) l.

Lemma inList_spec k l : inList k l = true <-> In k l.
Proof.
  unfold inList. rewrite existsb_exists. split.
  - intros (x & Hin & Heq). apply String.eqb_eq in Heq. subst. exact Hin.
  - intros Hin. exists k. split; [exact Hin | apply String.eqb_refl].
Qed.

Lemma assoc_In k m v : assoc k m = Some v -> In k (List.map fst m).
Proof.
  induction m as [|[k' v'] m IH]; simpl; [discriminate|].
  destruct (String.eqb_spec k k'); [subst; auto | auto].
Qed.

Lemma bare_own_key ext y :
  bare ext = Some (OwnString y) -> In ext (List.map fst ArchiveFileTypes.extensionMap).
Proof.
  unfold bare, getProperty. destruct (String.eqb ext ""); [discriminate|].
  destruct (assoc ext ArchiveFileTypes.extensionMap) as [v|] eqn:E.
  - intros _. exact (assoc_In _ _ _ E).
  - destruct (existsb _ _); simpl; discriminate.
Qed.

Lemma dotted_is_own e : exists y, dotted (String "." e) = OwnString y.
Proof.
  unfold dotted, getProperty.
  destruct (assoc (String "." e) CodeFileTypes.mimeMap) as [v|].
  - simpl. destruct (String.eqb v ""); simpl; eauto.
  - simpl. eauto.
Qed.

Lemma dotted_without_dot l :
  afterLast "." l = None ->
  dotted l = if inList l objectPrototypeMembers then Inherited l
             else OwnString "application/octet-stream".
Proof.
  intros H. unfold dotted, getProperty.
  destruct (assoc l CodeFileTypes.mimeMap) as [v|] eqn:E.
  - apply assoc_In in E. apply afterLast_None_contains in H.
    assert (A : forallb (contains ".") (List.map fst CodeFileTypes.mimeMap) = true)
      by (vm_compute; reflexivity).
    rewrite forallb_forall in A. rewrite (A l E) in H. discriminate.
  - fold (inList l objectPrototypeMembers).
    destruct (inList l objectPrototypeMembers); reflexivity.
Qed.

(** With a dot: the results coincide exactly on the agreeing extensions. *)
Lemma dotted_bare_agree e :
  bare e = Some (dotted (String "." e)) <-> In e agreeingExtensions.
Proof.
  rewrite <- sameResult_spec, <- inList_spec. split.
  - intros H.
    assert (K : In e (List.map fst ArchiveFileTypes.extensionMap)).
    { destruct (dotted_is_own e) as [y Hy]. rewrite Hy in H.
      destruct (bare e) as [[x|x]|] eqn:B; simpl in H; try discriminate.
      exact (bare_own_key e x B). }
    assert (A : forallb (fun k => implb (sameResult (bare k) (dotted (String "." k)))
                                   (inList k agreeingExtensions))
                  (List.map fst ArchiveFileTypes.extensionMap) = true)
      by (vm_compute; reflexivity).
    rewrite forallb_forall in A. specialize (A e K). rewrite H in A. exact A.
  - intros H. apply inList_spec in H.
    assert (A : forallb (fun k => sameResult (bare k) (dotted (String "." k)))
                  agreeingExtensions = true)
      by (vm_compute; reflexivity).
    rewrite forallb_forall in A. exact (A e H).
Qed.

(** Without a dot: they coincide only on the names [Object.prototype] owns. *)
Lemma plain_name_agree l :
  afterLast "." l = None ->
  bare l = Some (dotted l) <-> In l objectPrototypeMembers.
Proof.
  intros Hdot. rewrite (dotted_without_dot l Hdot), <- inList_spec. split.
  - destruct (inList l objectPrototypeMembers); [reflexivity|].
    intros H. pose proof (bare_own_key l _ H) as K.
    apply sameResult_spec in H.
    assert (A : forallb (fun k => negb (sameResult (bare k)
                                          (OwnString "application/octet-stream")))
                  (List.map fst ArchiveFileTypes.extensionMap) = true)
      by (vm_compute; reflexivity).
    rewrite forallb_forall in A. specialize (A l K). rewrite H in A. discriminate.
  - intros H. rewrite H. apply inList_spec in H.
    assert (A : forallb (fun k => sameResult (bare k) (Inherited k))
                  objectPrototypeMembers = true)
      by (vm_compute; reflexivity).
    rewrite forallb_forall in A. apply sameResult_spec. exact (A l H).
Qed.

Lemma archive_extensionOf filename :
  ArchiveFileTypes.extensionOf filename
  = Some (default (toLowerCase filename) (toLowerCase <$> afterLast "." filename)).
Proof.
  unfold ArchiveFileTypes.extensionOf.
  rewrite pop_split, afterLast_toLowerCase. reflexivity.
Qed.

Lemma code_extensionOf filename :
  CodeFileTypes.extensionOf filename
  = match afterLast "." filename with
    | Some e => String "." (toLowerCase e)
    | None => toLowerCase filename
    end.
Proof.
  unfold CodeFileTypes.extensionOf, lastIndexOf, substringFrom.
  destruct (afterLast "." filename) as [e|] eqn:E.
  - destruct (afterLast_decompose _ _ _ E) as [pre ->].
    rewrite lastIndexOfFrom_present by exact (afterLast_clean _ _ _ E).
    unfold toLowerCase. rewrite mapChars_app.
    replace (Z.to_nat (Z.max 0 (0 + Z.of_nat (String.length pre))))
      with (String.length (mapChars lowerChar pre))
      by (rewrite mapChars_length; lia).
    rewrite dropChars_app. reflexivity.
  - rewrite lastIndexOfFrom_absent by exact E. reflexivity.
Qed.

(** Where the two embedded definitions give the same result. *)
Lemma mime_tables_agreement (filename : string) :
  ArchiveFileTypes.getMimeTypeFromExtension filename
  = Some (CodeFileTypes.getMimeTypeFromExtension filename)
  <-> exists ext,
        ArchiveFileTypes.extensionOf filename = Some ext
        /\ In ext (if contains "." filename then agreeingExtensions
                   else objectPrototypeMembers).
Proof.
  change (CodeFileTypes.getMimeTypeFromExtension filename)
    with (dotted (CodeFileTypes.extensionOf filename)).
  assert (B : ArchiveFileTypes.getMimeTypeFromExtension filename
              = bare (default (toLowerCase filename)
                        (toLowerCase <$> afterLast "." filename))).
  { unfold ArchiveFileTypes.getMimeTypeFromExtension.
    rewrite archive_extensionOf. reflexivity. }
  rewrite B, archive_extensionOf, code_extensionOf.
  destruct (afterLast "." filename) as [e|] eqn:E; simpl.
  - assert (C : contains "." filename = true).
    { destruct (contains "." filename) eqn:C; [reflexivity|].
      apply afterLast_None_contains in C. congruence. }
    rewrite C, dotted_bare_agree. split.
    + intros H. eexists. split; [reflexivity | exact H].
    + intros (ext & Hext & H). inversion Hext; subst. exact H.
  - assert (L : afterLast "." (toLowerCase filename) = None)
      by (rewrite afterLast_toLowerCase, E; reflexivity).
    pose proof E as C. apply afterLast_None_contains in C.
    rewrite C, (plain_name_agree _ L). split.
    + intros H. eexists. split; [reflexivity | exact H].
    + intros (ext & Hext & H). inversion Hext; subst. exact H.
Qed.



Example mime_tables_differ_on_samples :
  CodeFileTypes.getMimeTypeFromExtension "App.js" = OwnString "text/javascript"
  /\ ArchiveFileTypes.getMimeTypeFromExtension "App.js"
     = Some (OwnString "application/javascript")
  /\ CodeFileTypes.getMimeTypeFromExtension "logo.png"
     = OwnString "application/octet-stream"
  /\ ArchiveFileTypes.getMimeTypeFromExtension "logo.png" = Some (OwnString "image/png")
  /\ CodeFileTypes.getMimeTypeFromExtension "theme.scss" = OwnString "text/css"
  /\ ArchiveFileTypes.getMimeTypeFromExtension "theme.scss" = None
  /\ CodeFileTypes.getMimeTypeFromExtension "Makefile"
     = OwnString "application/octet-stream"
  /\ ArchiveFileTypes.getMimeTypeFromExtension "Makefile" = None.
Proof.
  repeat split; vm_compute; reflexivity.
Qed.


End MimeFacts.

(** ** The heartbeat of an open channel *)

Module SseFacts.
Import Sse.

Lemma heartbeatMessages_send_status payload w :
  heartbeatMessages (send "status" payload w) = heartbeatMessages w.
Proof.
  unfold send, heartbeatMessages. destruct (controllerOpen w); simpl; [|reflexivity].
  rewrite List.filter_app. simpl. apply app_nil_r.
Qed.

(** *** While the heartbeat runs *)

(** The channel opened at [startTime] has sent [h] heartbeats and its one
    interval is armed for the next. *)
Record running (startTime : Z) (h : nat) (w : World) : Prop := {
  running_interval :
    intervals w = [{| handle := 1%positive;
                      nextFire := startTime + heartbeatPeriod * (Z.of_nat h + 1) |}];
  running_handle : heartbeatInterval w = Some 1%positive;
  running_open : controllerOpen w = true;
  running_armed :
    heartbeatPeriod * Z.of_nat h <= clock w - startTime
    < heartbeatPeriod * (Z.of_nat h + 1);
  running_sent : heartbeatMessages w = List.map (beat startTime) (seq 1 h);
}.

Lemma openChannel_running startTime : running startTime 0 (openChannel startTime).
Proof.
  split; try reflexivity. simpl. unfold heartbeatPeriod. lia.
Qed.

Lemma send_status_running startTime h payload w :
  running startTime h w -> running startTime h (send "status" payload w).
Proof.
  intros [Hi Hh Ho Ha Hs]. split.
  - unfold send. rewrite Ho. exact Hi.
  - unfold send. rewrite Ho. exact Hh.
  - unfold send. rewrite Ho. reflexivity.
  - unfold send. rewrite Ho. exact Ha.
  - rewrite heartbeatMessages_send_status. exact Hs.
Qed.

Lemma tick_single h1 nf w :
  intervals w = [{| handle := h1; nextFire := nf |}] ->
  controllerOpen w = true ->
  tick w
  = if nf =? clock w + 1 then
      {| clock := clock w + 1;
         intervals := [{| handle := h1; nextFire := nf + heartbeatPeriod |}];
         nextHandle := nextHandle w; heartbeatInterval := heartbeatInterval w;
         controllerOpen := true;
         enqueued := enqueued w
                     ++ [{| event := "heartbeat"; data := Timestamp (clock w + 1) |}];
         sendFailures := sendFailures w |}
    else
      {| clock := clock w + 1;
         intervals := [{| handle := h1; nextFire := nf |}];
         nextHandle := nextHandle w; heartbeatInterval := heartbeatInterval w;
         controllerOpen := true; enqueued := enqueued w;
         sendFailures := sendFailures w |}.
Proof.
  intros Hi Ho. unfold tick. rewrite Hi. cbn [intervals fireDue nextFire clock].
  destruct (nf =? clock w + 1).
  - unfold send. cbn [controllerOpen]. rewrite Ho. reflexivity.
  - cbn. rewrite Ho. reflexivity.
Qed.

Lemma tick_running startTime h w :
  running startTime h w ->
  running startTime (Z.to_nat ((clock w + 1 - startTime) / heartbeatPeriod)) (tick w)
  /\ clock (tick w) = clock w + 1.
Proof.
  intros [Hi Hh Ho Ha Hs]. rewrite (tick_single _ _ _ Hi Ho).
  unfold heartbeatPeriod in *.
  destruct (Z.eqb_spec (startTime + 15000 * (Z.of_nat h + 1)) (clock w + 1))
    as [Hdue|Hnot].
  - assert (Hq : (clock w + 1 - startTime) / 15000 = Z.of_nat (S h)).
    { symmetry. apply (Z.div_unique _ _ _ 0); lia. }
    rewrite Hq, Nat2Z.id. split; [|reflexivity].
    split; cbn [intervals heartbeatInterval controllerOpen clock enqueued].
    + unfold heartbeatPeriod.
      replace (startTime + 15000 * (Z.of_nat h + 1) + 15000)
        with (startTime + 15000 * (Z.of_nat (S h) + 1)) by lia.
      reflexivity.
    + exact Hh.
    + reflexivity.
    + unfold heartbeatPeriod. lia.
    + unfold heartbeatMessages in *. cbn [enqueued].
      rewrite seq_S, List.map_app, List.filter_app, Hs. f_equal.
      unfold beat, heartbeatPeriod.
      replace (clock w + 1) with (startTime + 15000 * Z.of_nat (1 + h)) by lia.
      reflexivity.
  - assert (Hq : (clock w + 1 - startTime) / 15000 = Z.of_nat h).
    { symmetry.
      apply (Z.div_unique _ _ _ (clock w + 1 - startTime - 15000 * Z.of_nat h)); lia. }
    rewrite Hq, Nat2Z.id. split; [|reflexivity].
    split; cbn [intervals heartbeatInterval controllerOpen clock enqueued].
    + unfold heartbeatPeriod. reflexivity.
    + exact Hh.
    + reflexivity.
    + unfold heartbeatPeriod. lia.
    + exact Hs.
Qed.

Lemma ticks_running startTime (ms : N) h w :
  running startTime h w ->
  running startTime (Z.to_nat ((clock w + Z.of_N ms - startTime) / heartbeatPeriod))
    (N.iter ms tick w)
  /\ clock (N.iter ms tick w) = clock w + Z.of_N ms.
Proof.
  intros Hw. induction ms as [|ms IH] using N.peano_ind.
  - simpl. rewrite Z.add_0_r. split; [|reflexivity].
    destruct Hw as [Hi Hh Ho Ha Hs].
    assert (Hq : (clock w - startTime) / heartbeatPeriod = Z.of_nat h).
    { symmetry. unfold heartbeatPeriod in *.
      apply (Z.div_unique _ _ _ (clock w - startTime - 15000 * Z.of_nat h)); lia. }
    rewrite Hq, Nat2Z.id. split; assumption.
  - rewrite N.iter_succ. destruct IH as [IH Hc].
    destruct (tick_running _ _ _ IH) as [Ht Hc'].
    rewrite Hc in Ht, Hc'. rewrite N2Z.inj_succ.
    replace (clock w + Z.succ (Z.of_N ms)) with (clock w + Z.of_N ms + 1) by lia.
    split; assumption.
Qed.

Lemma run_running startTime (activities : list Activity) h w :
  running startTime h w ->
  running startTime
    (Z.to_nat ((clock w + elapsed activities - startTime) / heartbeatPeriod))
    (run activities w)
  /\ clock (run activities w) = clock w + elapsed activities.
Proof.
  revert h w. induction activities as [|a activities IH]; intros h w Hw.
  - pose proof (ticks_running startTime 0 h w Hw) as H.
    cbn [N.iter Z.of_N elapsed fold_right run fold_left] in *. exact H.
  - unfold run in *. cbn [fold_left elapsed fold_right].
    fold (elapsed activities). destruct a as [snapshot|ms]; cbn [act].
    + destruct (IH h _ (send_status_running _ _ (Snapshot snapshot) _ Hw)) as [H1 H2].
      assert (C : clock (send "status" (Snapshot snapshot) w) = clock w)
        by (unfold send; destruct (controllerOpen w); reflexivity).
      rewrite C in H1, H2. split; assumption.
    + destruct (ticks_running startTime ms h w Hw) as [H1 H2].
      destruct (IH _ _ H1) as [H3 H4]. rewrite H2 in H3, H4.
      replace (clock w + (Z.of_N ms + elapsed activities))
        with (clock w + Z.of_N ms + elapsed activities) by lia.
      split; assumption.
Qed.

(** *** Once the interval is cleared or the controller closed *)

Definition quiet (w : World) : Prop :=
  intervals w = [] \/ controllerOpen w = false.

Lemma fireDue_closed pending w :
  controllerOpen w = false ->
  controllerOpen (fst (fireDue pending w)) = false
  /\ enqueued (fst (fireDue pending w)) = enqueued w.
Proof.
  revert w. induction pending as [|i pending IH]; intros w Hc; [auto|].
  simpl. destruct (nextFire i =? clock w).
  - assert (Hs : controllerOpen (send "heartbeat" (Timestamp (clock w)) w) = false
                 /\ enqueued (send "heartbeat" (Timestamp (clock w)) w) = enqueued w)
      by (unfold send; rewrite Hc; auto).
    destruct Hs as [Hs1 Hs2]. destruct (IH _ Hs1) as [H1 H2].
    destruct (fireDue pending _). simpl in *. rewrite H2. auto.
  - destruct (IH _ Hc) as [H1 H2]. destruct (fireDue pending w). auto.
Qed.

Lemma fireDue_intervals pending w :
  intervals (fst (fireDue pending w)) = intervals w.
Proof.
  revert w. induction pending as [|i pending IH]; intros w; [reflexivity|].
  simpl. destruct (nextFire i =? clock w).
  - specialize (IH (send "heartbeat" (Timestamp (clock w)) w)).
    destruct (fireDue pending _). simpl in *. rewrite IH.
    unfold send. destruct (controllerOpen w); reflexivity.
  - specialize (IH w). destruct (fireDue pending w). exact IH.
Qed.

Lemma tick_quiet w :
  quiet w -> quiet (tick w) /\ heartbeatMessages (tick w) = heartbeatMessages w.
Proof.
  unfold quiet, tick, heartbeatMessages. intros [Hq|Hq].
  - cbn [intervals]. rewrite Hq. cbn. auto.
  - cbn [intervals].
    pose proof (fireDue_closed (intervals w)
                  {| clock := clock w + 1; intervals := intervals w;
                     nextHandle := nextHandle w;
                     heartbeatInterval := heartbeatInterval w;
                     controllerOpen := controllerOpen w; enqueued := enqueued w;
                     sendFailures := sendFailures w |} Hq) as [H1 H2].
    destruct (fireDue _ _) as [w1 rearmed]. cbn in *. rewrite H2. auto.
Qed.

Lemma act_quiet a w :
  quiet w -> quiet (act a w) /\ heartbeatMessages (act a w) = heartbeatMessages w.
Proof.
  intros Hq. destruct a as [snapshot|ms]; cbn [act].
  - split; [|apply heartbeatMessages_send_status].
    unfold quiet, send in *. destruct (controllerOpen w); cbn; tauto.
  - induction ms as [|ms IH] using N.peano_ind; [auto|].
    rewrite N.iter_succ. destruct IH as [IH1 IH2].
    destruct (tick_quiet _ IH1) as [H1 H2]. rewrite H2, IH2. auto.
Qed.

Lemma run_quiet activities w :
  quiet w -> heartbeatMessages (run activities w) = heartbeatMessages w.
Proof.
  revert w. induction activities as [|a activities IH]; intros w Hq; [reflexivity|].
  unfold run in *. cbn [fold_left].
  destruct (act_quiet a w Hq) as [H1 H2]. rewrite (IH _ H1). exact H2.
Qed.

(** C7: on a channel opened at [startTime], whatever state changes are sent
    and however the passing time is cut up, the heartbeats sent are those of
    the times [startTime + 15000 * k] for [k = 1 .. elapsed / 15000], one per
    15 seconds elapsed, so at least three once three intervals have passed;
    and after [cleanup], or after the controller is closed, no activity adds
    a heartbeat. *)
Theorem heartbeat_every_period_until_cleanup
  (startTime : Z) (before after : list Activity) :
  let w := run before (openChannel startTime) in
  heartbeatPeriod = 15000
  /\ heartbeatMessages w
     = List.map (beat startTime) (seq 1 (Z.to_nat (elapsed before / heartbeatPeriod)))
  /\ heartbeats w = elapsed before / heartbeatPeriod
  /\ (3 * heartbeatPeriod <= elapsed before -> 3 <= heartbeats w)
  /\ heartbeatMessages (run after (cleanup w)) = heartbeatMessages w
  /\ heartbeatMessages (run after (closeController w)) = heartbeatMessages w.
Proof.
  intros w.
  destruct (run_running startTime before 0 _ (openChannel_running startTime))
    as [Hrun _]. fold w in Hrun.
  replace (clock (openChannel startTime) + elapsed before - startTime)
    with (elapsed before) in Hrun by (simpl; lia).
  assert (Hpos : 0 <= elapsed before).
  { clear. induction before as [|[s|ms] l IH]; simpl; lia. }
  assert (Hcount : heartbeats w = elapsed before / heartbeatPeriod).
  { unfold heartbeats. rewrite (running_sent _ _ _ Hrun), length_map, length_seq.
    apply Z2Nat.id. apply Z.div_pos; [exact Hpos | reflexivity]. }
  split; [reflexivity|]. split; [exact (running_sent _ _ _ Hrun)|].
  split; [exact Hcount|]. split; [|split].
  - intros H. rewrite Hcount. unfold heartbeatPeriod in *.
    apply Z.div_le_lower_bound; lia.
  - rewrite run_quiet.
    + unfold cleanup. rewrite (running_handle _ _ _ Hrun). reflexivity.
    + left. unfold cleanup.
      rewrite (running_handle _ _ _ Hrun). cbn [intervals].
      rewrite (running_interval _ _ _ Hrun). reflexivity.
  - rewrite run_quiet; [reflexivity | right; reflexivity].
Qed.

Example three_heartbeats_in_45_seconds :
  heartbeatMessages
    (run [Elapse 20000; StateChange "generating"; Elapse 25001] (openChannel 1000))
  = [ beat 1000 1; beat 1000 2; beat 1000 3 ].
Proof. vm_compute. reflexivity. Qed.

Lemma heartbeat_every_period_until_cleanup_witness :
  3 <= heartbeats (run [Elapse 20000; StateChange "generating"; Elapse 25001]
                     (openChannel 1000)).
Proof.
  destruct (heartbeat_every_period_until_cleanup 1000
              [Elapse 20000; StateChange "generating"; Elapse 25001] [])
    as (_ & _ & _ & H & _).
  apply H. vm_compute. discriminate.
Defined.

End SseFacts.

(** * Further properties of the embedded code *)

(** ** Retry: outcomes and waiting time *)

Module RetryOutcomes.
Import Js Retry.

(** The milliseconds a trace spends sleeping *)
Definition timeSlept (trace : list Event) : Z :=
  fold_right (fun ev acc => match ev with
                            | Sleep d => d + acc
                            | Invoke _ => acc
                            end) 0 trace.

Section Outcomes.
Context {T E : Type}.
Variable options : RetryOptions E.
Variable fn : Z -> Completion E T.

Abbreviation lastAttempt := (maxAttempts options).

(** Attempt [j] fails with an error the loop is willing to retry. *)
Definition failsRetryably (j : Z) : Prop :=
  exists error, fn j = Throw error /\ givesUp options error = false.

Lemma retryLoop_first_success (steps : nat) :
  forall (attempt : Z) (lastError : option E) (fuel : nat) (v : T),
    fuel = Z.to_nat (lastAttempt - attempt + 1) ->
    attempt + Z.of_nat steps <= lastAttempt ->
    fn (attempt + Z.of_nat steps) = Return v ->
    (forall j, attempt <= j < attempt + Z.of_nat steps -> failsRetryably j) ->
    retryLoop options fn fuel attempt lastError
    = (scheduleFrom options (S steps) attempt, Return v).
Proof.
  induction steps as [|steps IH]; intros attempt lastError fuel v Hfuel Hle Hok Hfail.
  - rewrite Z.add_0_r in *. destruct fuel as [|fuel]; [lia|]. simpl.
    destruct (Z.leb_spec attempt lastAttempt); [|lia]. rewrite Hok. reflexivity.
  - destruct fuel as [|fuel]; [lia|].
    destruct (Hfail attempt ltac:(lia)) as (error & Hthrow & Hretry).
    cbn [retryLoop].
    destruct (Z.leb_spec attempt lastAttempt); [|lia].
    rewrite Hthrow, Hretry.
    destruct (Z.ltb_spec attempt lastAttempt); [|lia].
    rewrite (IH (attempt + 1) (Some error) fuel v); try lia.
    + reflexivity.
    + replace (attempt + 1 + Z.of_nat steps) with (attempt + Z.of_nat (S steps)) by lia.
      exact Hok.
    + intros j Hj. apply Hfail. lia.
Qed.

(** X1: when attempt [k] is the first to succeed, and every earlier attempt
    failed with an error that may be retried, the run returns the value of
    attempt [k] after exactly [k] invocations, with the [k - 1] pauses of the
    schedule between them. *)
Theorem withRetry_returns_first_success (k : Z) (v : T) :
  1 <= k <= maxAttempts options ->
  fn k = Return v ->
  (forall j, 1 <= j < k -> failsRetryably j) ->
  withRetry options fn = (schedule options (Z.to_nat k), Return v)
  /\ invocations (fst (withRetry options fn)) = Z.to_nat k.
Proof.
  intros Hk Hok Hfail.
  assert (E1 : withRetry options fn = (schedule options (Z.to_nat k), Return v)).
  { unfold withRetry, schedule.
    replace (Z.to_nat k) with (S (Z.to_nat (k - 1))) by lia.
    apply retryLoop_first_success.
    - f_equal. lia.
    - lia.
    - replace (1 + Z.of_nat (Z.to_nat (k - 1))) with k by lia. exact Hok.
    - intros j Hj. apply Hfail. lia. }
  split; [exact E1|]. rewrite E1. apply RetryFacts.invocations_scheduleFrom.
Qed.

Lemma retryLoop_exhausted (fuel : nat) :
  forall (attempt : Z) (lastError : option E),
    fuel = Z.to_nat (lastAttempt - attempt + 1) ->
    (forall j, attempt <= j <= lastAttempt -> failsRetryably j) ->
    fst (retryLoop options fn fuel attempt lastError) = scheduleFrom options fuel attempt
    /\ snd (retryLoop options fn fuel attempt lastError)
       = Throw (match fuel with
                | O => lastError
                | S _ => match fn lastAttempt with
                         | Throw error => Some error
                         | Return _ => None
                         end
                end).
Proof.
  induction fuel as [|fuel IH]; intros attempt lastError Hfuel Hfail; [split; reflexivity|].
  destruct (Hfail attempt ltac:(lia)) as (error & Hthrow & Hretry).
  cbn [retryLoop]. destruct (Z.leb_spec attempt lastAttempt); [|lia].
  rewrite Hthrow, Hretry.
  destruct (IH (attempt + 1) (Some error) ltac:(lia)) as [Htrace Hout].
  { intros j Hj. apply Hfail. lia. }
  destruct (retryLoop options fn fuel (attempt + 1) (Some error)) as [rest outcome].
  simpl in Htrace, Hout. subst rest outcome.
  destruct (Z.ltb_spec attempt lastAttempt) as [Hlt|Hge].
  - destruct fuel as [|fuel]; [lia|]. split; reflexivity.
  - assert (fuel = 0%nat) by lia. subst fuel.
    assert (attempt = lastAttempt) by lia. subst attempt.
    simpl. rewrite Hthrow. split; reflexivity.
Qed.

(** X2: when every attempt fails with an error that may be retried, the
    operation is invoked exactly [maxAttempts] times, with a pause after each
    attempt but the last, and the error thrown in the end is the one of the
    last attempt. *)
Theorem withRetry_exhausts_all_attempts :
  1 <= maxAttempts options ->
  (forall j, 1 <= j <= maxAttempts options -> failsRetryably j) ->
  exists error,
    fn (maxAttempts options) = Throw error
    /\ withRetry options fn
       = (schedule options (Z.to_nat (maxAttempts options)), Throw (Some error))
    /\ Z.of_nat (invocations (fst (withRetry options fn))) = maxAttempts options.
Proof.
  intros Hmax Hfail.
  destruct (Hfail lastAttempt ltac:(lia)) as (error & Hthrow & _).
  exists error. split; [exact Hthrow|].
  destruct (retryLoop_exhausted (Z.to_nat lastAttempt) 1 None ltac:(lia) Hfail)
    as [Htrace Hout].
  unfold withRetry, schedule.
  destruct (retryLoop options fn (Z.to_nat lastAttempt) 1 None) as [trace outcome].
  simpl in Htrace, Hout. subst trace outcome. rewrite Hthrow.
  destruct (Z.to_nat lastAttempt) as [|n] eqn:En; [lia|]. rewrite <- En.
  split; [reflexivity|]. simpl fst.
  rewrite RetryFacts.invocations_scheduleFrom. lia.
Qed.

(** X3: with [maxAttempts] below 1 the operation is never invoked and the
    value thrown is [undefined]; with [maxAttempts] at least 1 it is invoked
    at least once. *)
Theorem withRetry_without_attempts :
  if maxAttempts options <? 1
  then withRetry options fn = ([], Throw None)
  else (1 <= invocations (fst (withRetry options fn)))%nat.
Proof.
  destruct (Z.ltb_spec (maxAttempts options) 1) as [Hlt|Hge].
  - unfold withRetry. replace (Z.to_nat lastAttempt) with 0%nat by lia. reflexivity.
  - destruct (RetryFacts.retryLoop_shape options fn (Z.to_nat lastAttempt) 1 None
                ltac:(lia)) as (n & _ & Hpos & Htrace & _).
    unfold withRetry. rewrite Htrace, RetryFacts.invocations_scheduleFrom.
    apply Hpos. lia.
Qed.

Lemma timeSlept_scheduleFrom (n : nat) (attempt : Z) :
  timeSlept (scheduleFrom options n attempt)
  <= maxBackoff options * Z.of_nat (Nat.pred n).
Proof.
  revert attempt. induction n as [|n IH]; intros attempt; [simpl; lia|].
  destruct n as [|n]; [simpl; lia|].
  change (timeSlept (scheduleFrom options (S (S n)) attempt))
    with (delayAfter options attempt
          + timeSlept (scheduleFrom options (S n) (attempt + 1))).
  specialize (IH (attempt + 1)).
  assert (delayAfter options attempt <= maxBackoff options)
    by (unfold delayAfter; lia).
  simpl Nat.pred in *. lia.
Qed.

(** No pause is longer than [maxBackoffMs], so a run that made [n]
    invocations has slept at most [(n - 1) * maxBackoffMs] milliseconds in
    all; with a base delay that is not negative the pauses never shrink from
    one attempt to the next. *)
Theorem withRetry_waiting_time_bounded :
  let trace := fst (withRetry options fn) in
  (forall d, In (Sleep d) trace -> d <= maxBackoff options)
  /\ timeSlept trace <= maxBackoff options * Z.of_nat (Nat.pred (invocations trace))
  /\ (0 <= backoffMs options ->
      forall k, 1 <= k -> delayAfter options k <= delayAfter options (k + 1)).
Proof.
  intros trace.
  destruct (RetryFacts.retryLoop_shape options fn (Z.to_nat lastAttempt) 1 None
              ltac:(lia)) as (n & _ & _ & Htrace & _).
  unfold trace, withRetry. rewrite Htrace. split; [|split].
  - clear. generalize 1. induction n as [|n IH]; intros a d Hin; [destruct Hin|].
    destruct n as [|n]; [destruct Hin as [Hin|[]]; discriminate|].
    destruct Hin as [Hin|[Hin|Hin]]; [discriminate | | exact (IH _ _ Hin)].
    inversion Hin. unfold delayAfter. lia.
  - rewrite RetryFacts.invocations_scheduleFrom. apply timeSlept_scheduleFrom.
  - intros Hb k Hk. unfold delayAfter.
    replace (k + 1 - 1) with (Z.succ (k - 1)) by lia.
    rewrite Z.pow_succ_r by lia.
    assert (0 < 2 ^ (k - 1)) by (apply Z.pow_pos_nonneg; lia).
    apply Z.min_le_compat_r. nia.
Qed.

End Outcomes.

Definition succeedsThird (attempt : Z) : Completion string string :=
  if attempt <? 3 then Throw "rate limited" else Return "phase files".

Lemma withRetry_returns_first_success_witness :
  withRetry (generatePhaseOptions string) succeedsThird
  = ([Invoke 1; Sleep 1000; Invoke 2; Sleep 2000; Invoke 3], Return "phase files").
Proof.
  destruct (withRetry_returns_first_success (generatePhaseOptions string)
              succeedsThird 3 "phase files") as [H _].
  - simpl. lia.
  - reflexivity.
  - intros j Hj. exists "rate limited". split; [|reflexivity].
    unfold succeedsThird. destruct (Z.ltb_spec j 3); [reflexivity | lia].
  - rewrite H. reflexivity.
Defined.

Lemma withRetry_exhausts_all_attempts_witness :
  exists error,
    withRetry (generatePhaseOptions string) (fun _ => Throw "timeout" : Completion string string)
    = ([Invoke 1; Sleep 1000; Invoke 2; Sleep 2000; Invoke 3], Throw (Some error)).
Proof.
  destruct (withRetry_exhausts_all_attempts (generatePhaseOptions string)
              (fun _ => Throw "timeout" : Completion string string))
    as (error & _ & H & _).
  - simpl. lia.
  - intros j Hj. exists "timeout". split; reflexivity.
  - exists error. rewrite H. reflexivity.
Defined.

End RetryOutcomes.

(** ** Provider fallback over a chain of any length *)

Module FallbackChains.
Import Js Fallback.
Local Open Scope list_scope.

Section Chains.
Context {R : Type}.
Variable generateText : Provider -> Completion Caught R.

(** What a failed call leaves in the trace, and the message it logs *)
Definition failureMessage (p : Provider) : string :=
  match generateText p with
  | Throw error => asErrorMessage error
  | Return _ => ""
  end.

Definition failedCalls (providers : list Provider) : list Event :=
  flat_map (fun p => [GenerateText (providerName p);
                      ConsoleError (providerName p) (failureMessage p)]) providers.

Lemma tryProviders_failed_prefix (failing rest : list Provider) (lastError : option string) :
  Forall (fun p => isThrow (generateText p) = true) failing ->
  tryProviders generateText (failing ++ rest) lastError
  = (failedCalls failing
       ++ fst (tryProviders generateText rest
                 (match last failing with
                  | Some p => Some (failureMessage p)
                  | None => lastError
                  end)),
     snd (tryProviders generateText rest
            (match last failing with
             | Some p => Some (failureMessage p)
             | None => lastError
             end))).
Proof.
  intros Hfail. revert lastError.
  induction Hfail as [|p failing Hp _ IH]; intros lastError.
  - simpl. destruct (tryProviders generateText rest lastError). reflexivity.
  - cbn [app tryProviders].
    destruct (generateText p) as [r|error] eqn:Ep; [discriminate|].
    assert (Hm : failureMessage p = asErrorMessage error)
      by (unfold failureMessage; rewrite Ep; reflexivity).
    rewrite IH.
    assert (L : match last (p :: failing) with
                | Some q => Some (failureMessage q)
                | None => lastError
                end
                = match last failing with
                  | Some q => Some (failureMessage q)
                  | None => Some (asErrorMessage error)
                  end).
    { destruct failing as [|q failing]; simpl.
      - rewrite Hm. reflexivity.
      - destruct (last (q :: failing)) eqn:El; [reflexivity|].
        apply last_None in El. discriminate. }
    rewrite L. cbn [failedCalls flat_map app]. rewrite Hm. reflexivity.
Qed.

(** X4: in a chain of any length the providers are called in order and the
    first one that answers ends the run: its result is returned, each
    provider before it was called once and its failure logged, and no
    provider after it is called at all. *)
Theorem first_answer_ends_the_chain
  (failing : list Provider) (winner : Provider) (skipped : list Provider) (result : R) :
  Forall (fun p => isThrow (generateText p) = true) failing ->
  generateText winner = Return result ->
  tryProviders generateText (failing ++ winner :: skipped) None
  = (failedCalls failing ++ [GenerateText (providerName winner)], Return result).
Proof.
  intros Hfail Hwin. rewrite tryProviders_failed_prefix by exact Hfail.
  cbn [tryProviders]. rewrite Hwin. reflexivity.
Qed.

(** X5: when every provider of the chain fails, each was called exactly once,
    in order, every failure was logged with the provider's name and message,
    and the error thrown carries the message of the last provider only; an
    empty chain throws [All AI providers failed] without calling anything. *)
Theorem exhausted_chain_throws_last_error (providers : list Provider) :
  Forall (fun p => isThrow (generateText p) = true) providers ->
  tryProviders generateText providers None
  = (failedCalls providers,
     Throw (match last providers with
            | Some p => failureMessage p
            | None => "All AI providers failed"
            end))
  /\ loggedAttempts (failedCalls providers)
     = List.map (fun p => (providerName p, failureMessage p)) providers.
Proof.
  intros Hfail. split.
  - pose proof (tryProviders_failed_prefix providers [] None Hfail) as H.
    rewrite app_nil_r in H. rewrite H. cbn [tryProviders fst snd].
    rewrite app_nil_r. destruct (last providers); reflexivity.
  - clear. induction providers as [|p providers IH]; [reflexivity|].
    change (loggedAttempts (failedCalls (p :: providers)))
      with ((providerName p, failureMessage p) :: loggedAttempts (failedCalls providers)).
    rewrite IH. reflexivity.
Qed.

End Chains.

Definition cerebras : Provider :=
  {| providerName := "cerebras"; providerModel := "gpt-oss-120b" |}.

Definition onlyAnthropicAnswers (p : Provider) : Completion Caught string :=
  if String.eqb (providerName p) "anthropic" then Return "generated text"
  else Throw (NotAnError "503").

Lemma first_answer_ends_the_chain_witness :
  tryProviders onlyAnthropicAnswers [google; anthropic; cerebras] None
  = ([GenerateText "google"; ConsoleError "google" "503"; GenerateText "anthropic"],
     Return "generated text").
Proof.
  refine (eq_trans (first_answer_ends_the_chain onlyAnthropicAnswers [google]
                      anthropic [cerebras] "generated text" _ _) _).
  - repeat constructor.
  - reflexivity.
  - reflexivity.
Defined.

Lemma exhausted_chain_throws_last_error_witness :
  snd (tryProviders (fun _ => Throw (ErrorInstance "down") : Completion Caught string)
         [google; anthropic] None) = Throw "down"
  /\ snd (tryProviders (fun _ => Throw (ErrorInstance "down") : Completion Caught string)
            [] None) = Throw "All AI providers failed".
Proof.
  split.
  - destruct (exhausted_chain_throws_last_error
                (fun _ => Throw (ErrorInstance "down") : Completion Caught string)
                [google; anthropic]) as [H _]; [repeat constructor|].
    rewrite H. reflexivity.
  - destruct (exhausted_chain_throws_last_error
                (fun _ => Throw (ErrorInstance "down") : Completion Caught string)
                []) as [H _]; [constructor|].
    rewrite H. reflexivity.
Defined.

End FallbackChains.

(** ** The session state object: persistence, identity and progress *)

Module GenerationLifecycle.
Import Generation GenerationFacts.

(** What [getState] would answer, without touching the object *)
Definition current (amb : Ambient) (a : Agent) : GenerationState :=
  fst (loadState amb a).

(** The in-memory copy, when there is one, is what storage holds. *)
Definition synced (a : Agent) : Prop :=
  forall s, cached a = Some s -> stored a = Some s.

Definition evict (a : Agent) : Agent := {| cached := None; stored := stored a |}.

Lemma updateState_agent amb u a :
  snd (updateState amb u a)
  = {| cached := Some (fst (updateState amb u a));
       stored := Some (fst (updateState amb u a)) |}.
Proof. unfold updateState. destruct (loadState amb a). reflexivity. Qed.

Lemma updateState_state amb u a :
  fst (updateState amb u a) = merge amb (current amb a) u.
Proof. unfold updateState, current. destruct (loadState amb a). reflexivity. Qed.

Lemma advancePhase_agent amb a :
  snd (advancePhase amb a)
  = {| cached := Some (fst (advancePhase amb a));
       stored := Some (fst (advancePhase amb a)) |}.
Proof.
  unfold advancePhase. destruct (loadState amb a) as [s a1].
  apply updateState_agent.
Qed.

Lemma loadState_synced amb a : synced a -> synced (snd (loadState amb a)).
Proof.
  unfold synced, loadState. intros H.
  destruct (cached a) as [s|] eqn:Ec; [simpl; rewrite Ec; exact H|].
  destruct (stored a) as [s|] eqn:Es; simpl; intros s' E; congruence.
Qed.

Lemma reachable_synced a : reachable a -> synced a.
Proof.
  induction 1 as [|amb c a _ IH]; [intros s; discriminate|].
  destruct c; cbn [perform]; unfold startGeneration, failGeneration, getState.
  - rewrite updateState_agent. intros s E. simpl in *. congruence.
  - rewrite advancePhase_agent. intros s E. simpl in *. congruence.
  - rewrite updateState_agent. intros s E. simpl in *. congruence.
  - apply loadState_synced. exact IH.
  - intros s; discriminate.
Qed.

Lemma current_stored amb a s :
  synced a -> stored a = Some s -> current amb a = s.
Proof.
  unfold synced, current, loadState. intros Hs Hst.
  destruct (cached a) as [s'|] eqn:Ec.
  - simpl. specialize (Hs s' eq_refl). congruence.
  - rewrite Hst. reflexivity.
Qed.

(** X6: every write is durable.  The state a mutating call returns is the
    one the object then holds in memory and in storage, so the next
    [getState] returns it, also when the in-memory copy has been dropped in
    between; and on any object the calls can produce that holds a state,
    dropping the in-memory copy does not change what [getState] answers. *)
Theorem writes_survive_eviction (amb later : Ambient) (a : Agent) (u : Updates) :
  reachable a ->
  let written := fst (updateState amb u a) in
  let a' := snd (updateState amb u a) in
  current later a' = written
  /\ current later (evict a') = written
  /\ (stored a <> None -> current later (evict a) = current amb a).
Proof.
  intros Hr written a'. unfold a', written. rewrite updateState_agent.
  split; [reflexivity|]. split; [reflexivity|].
  intros Hst. destruct (stored a) as [s|] eqn:Es; [|contradiction].
  rewrite (current_stored amb a s (reachable_synced a Hr) Es).
  unfold current, evict, loadState. simpl. rewrite Es. reflexivity.
Qed.

Lemma writes_survive_eviction_witness :
  current (clockAt 99) (evict failedSession) = current (clockAt 50) failedSession.
Proof.
  destruct (writes_survive_eviction (clockAt 50) (clockAt 99) failedSession
              {| setStatus := None; setCurrentPhase := None;
                 setTotalPhases := None; setError := None |})
    as (_ & _ & H).
  - repeat constructor.
  - apply H. discriminate.
Defined.

(** Running a series of calls, each with what the platform answers then *)
Definition performAll (calls : list (Ambient * Call)) (a : Agent) : Agent :=
  fold_left (fun a c => perform (fst c) (snd c) a) calls a.

Lemma performAll_reachable calls a : reachable a -> reachable (performAll calls a).
Proof.
  revert a. induction calls as [|[amb c] calls IH]; intros a Hr; [exact Hr|].
  apply IH. constructor. exact Hr.
Qed.

Lemma perform_keeps_identity amb c a s :
  synced a -> stored a = Some s ->
  exists s', stored (perform amb c a) = Some s'
             /\ sessionId s' = sessionId s /\ createdAt s' = createdAt s.
Proof.
  intros Hs Hst.
  assert (Hc : forall amb', current amb' a = s)
    by (intros amb'; exact (current_stored amb' a s Hs Hst)).
  destruct c; cbn [perform]; unfold startGeneration, failGeneration, getState.
  - rewrite updateState_agent, updateState_state, Hc. eexists. split; [reflexivity|].
    split; reflexivity.
  - rewrite advancePhase_agent, advancePhase_state. fold (current amb a).
    rewrite Hc. eexists. split; [reflexivity|]. split; reflexivity.
  - rewrite updateState_agent, updateState_state, Hc. eexists. split; [reflexivity|].
    split; reflexivity.
  - exists s. split; [|split; reflexivity].
    unfold loadState. destruct (cached a); [exact Hst|]. rewrite Hst. reflexivity.
  - exists s. split; [exact Hst | split; reflexivity].
Qed.

(** X7: a session keeps its identity.  Once an object holds a state, no
    series of calls ([startGeneration], [advancePhase], [failGeneration],
    [getState], eviction) changes its [sessionId] or its [createdAt]. *)
Theorem identity_is_stable
  (a : Agent) (s : GenerationState) (calls : list (Ambient * Call)) (later : Ambient) :
  reachable a ->
  stored a = Some s ->
  sessionId (current later (performAll calls a)) = sessionId s
  /\ createdAt (current later (performAll calls a)) = createdAt s.
Proof.
  revert a s. induction calls as [|[amb c] calls IH]; intros a s Hr Hst.
  - simpl. rewrite (current_stored later a s (reachable_synced a Hr) Hst).
    split; reflexivity.
  - destruct (perform_keeps_identity amb c a s (reachable_synced a Hr) Hst)
      as (s' & Hst' & Hid & Hcreated).
    destruct (IH (perform amb c a) s' (reachable_step amb c a Hr) Hst') as [H1 H2].
    simpl. split; congruence.
Qed.

Lemma identity_is_stable_witness :
  sessionId (current (clockAt 99)
               (performAll [(clockAt 60, Start 5); (clockAt 70, Evict);
                            (clockAt 80, Advance)] failedSession))
  = "session-1".
Proof.
  destruct (identity_is_stable failedSession (current (clockAt 50) failedSession)
              [(clockAt 60, Start 5); (clockAt 70, Evict); (clockAt 80, Advance)]
              (clockAt 99)) as [H _].
  - repeat constructor.
  - reflexivity.
  - rewrite H. reflexivity.
Defined.

(** [advancePhase] called once for each of the given moments *)
Definition advanceAll (moments : list Ambient) (a : Agent) : Agent :=
  fold_left (fun a amb => snd (advancePhase amb a)) moments a.

Lemma advanceAll_state moments :
  forall a s later,
    cached a = Some s ->
    let s' := current later (advanceAll moments a) in
    currentPhase s' = currentPhase s + Z.of_nat (length moments)
    /\ totalPhases s' = totalPhases s
    /\ error s' = error s
    /\ status s' = match moments with
                   | [] => status s
                   | _ :: _ =>
                       if totalPhases s <=? currentPhase s + Z.of_nat (length moments)
                       then completed else generating
                   end.
Proof.
  induction moments as [|amb moments IH]; intros a s later Hc.
  - simpl. unfold current, loadState. rewrite Hc. simpl.
    repeat split. lia.
  - cbn [advanceAll fold_left]. fold (advanceAll moments (snd (advancePhase amb a))).
    pose proof (advancePhase_state amb a) as Hs. cbv zeta in Hs.
    assert (Hcur : fst (loadState amb a) = s)
      by (unfold loadState; rewrite Hc; reflexivity).
    rewrite Hcur in Hs.
    specialize (IH (snd (advancePhase amb a)) (fst (advancePhase amb a)) later).
    rewrite advancePhase_agent in IH at 1. specialize (IH eq_refl).
    cbv zeta in IH. destruct IH as (H1 & H2 & H3 & H4).
    rewrite Hs in H1, H2, H3, H4. cbn [currentPhase totalPhases error status] in *.
    rewrite H1, H2, H3, H4. cbn [length].
    repeat split; try lia.
    destruct moments as [|amb' moments].
    + cbn [length]. replace (currentPhase s + Z.of_nat 1) with (currentPhase s + 1) by lia.
      reflexivity.
    + replace (currentPhase s + 1 + Z.of_nat (length (amb' :: moments)))
        with (currentPhase s + Z.of_nat (S (length (amb' :: moments)))) by lia.
      reflexivity.
Qed.

(** X8: a generation of [n] phases runs its course.  After
    [startGeneration(n)], whatever the object held before, [k] calls of
    [advancePhase] leave [currentPhase = k], [totalPhases = n] and no error;
    the status is [bootstrapping] before the first call, [generating] while
    [k < n] and [completed] from [k = n] on (where [currentPhase] goes on
    counting past [totalPhases]). *)
Theorem generation_runs_to_completion
  (a : Agent) (start later : Ambient) (n : Z) (moments : list Ambient) :
  let k := Z.of_nat (length moments) in
  let s := current later (advanceAll moments (snd (startGeneration start n a))) in
  currentPhase s = k
  /\ totalPhases s = n
  /\ error s = None
  /\ status s = (if k =? 0 then bootstrapping
                 else if k <? n then generating else completed).
Proof.
  intros k s. unfold s, startGeneration.
  destruct (advanceAll_state moments
              (snd (updateState start
                      {| setStatus := Some bootstrapping; setCurrentPhase := Some 0;
                         setTotalPhases := Some n; setError := Some None |} a))
              (fst (updateState start
                      {| setStatus := Some bootstrapping; setCurrentPhase := Some 0;
                         setTotalPhases := Some n; setError := Some None |} a))
              later) as (H1 & H2 & H3 & H4).
  { rewrite updateState_agent at 1. reflexivity. }
  rewrite updateState_state in H1, H2, H3, H4.
  cbn [merge currentPhase totalPhases error status setStatus setCurrentPhase
       setTotalPhases setError default from_option] in *.
  cbv [id] in H1, H2, H3, H4.
  rewrite H1, H2, H3, H4. fold k. repeat split.
  destruct moments as [|amb moments]; [reflexivity|].
  unfold k. cbn [length].
  destruct (Z.eqb_spec (Z.of_nat (S (length moments))) 0); [lia|].
  rewrite Z.add_0_l.
  destruct (Z.leb_spec n (Z.of_nat (S (length moments))));
    destruct (Z.ltb_spec (Z.of_nat (S (length moments))) n); try lia; reflexivity.
Qed.

(** What a call does to the phase counter *)
Definition lowersPhase (c : Call) : bool :=
  match c with Start _ => true | _ => false end.

Lemma reachable_phase_nonneg a :
  reachable a ->
  (forall s, cached a = Some s -> 0 <= currentPhase s)
  /\ (forall s, stored a = Some s -> 0 <= currentPhase s).
Proof.
  induction 1 as [|amb c a Hr [IHc IHs]]; [split; intros s; discriminate|].
  assert (Hcur : 0 <= currentPhase (current amb a)).
  { unfold current, loadState.
    destruct (cached a) as [s|] eqn:Ec; [exact (IHc s eq_refl)|].
    destruct (stored a) as [s|] eqn:Es; [exact (IHs s eq_refl) | simpl; lia]. }
  destruct c; cbn [perform]; unfold startGeneration, failGeneration, getState.
  - rewrite updateState_agent, updateState_state.
    split; intros s E; inversion E; simpl; lia.
  - rewrite advancePhase_agent, advancePhase_state. fold (current amb a).
    split; intros s E; inversion E; simpl; lia.
  - rewrite updateState_agent, updateState_state.
    split; intros s E; inversion E; simpl; exact Hcur.
  - unfold loadState.
    destruct (cached a) as [s|] eqn:Ec; [simpl; rewrite Ec; split; assumption|].
    destruct (stored a) as [s|] eqn:Es; simpl.
    + split; intros s' E; injection E as <-; exact (IHs s eq_refl).
    + split; intros s' E; inversion E; simpl; lia.
  - split; [intros s; discriminate | exact IHs].
Qed.

(** X9: the phase counter of a session is never negative, and the only call
    that can lower it is [startGeneration]: after any other call on an object
    holding a state it is at least what it was. *)
Theorem phase_counter_only_restarts
  (a : Agent) (amb later : Ambient) (c : Call) :
  reachable a ->
  0 <= currentPhase (current later a)
  /\ (stored a <> None -> lowersPhase c = false ->
      currentPhase (current later a) <= currentPhase (current later (perform amb c a))).
Proof.
  intros Hr. destruct (reachable_phase_nonneg a Hr) as [Hc Hs]. split.
  - unfold current, loadState.
    destruct (cached a) as [s|] eqn:Ec; [exact (Hc s eq_refl)|].
    destruct (stored a) as [s|] eqn:Es; [exact (Hs s eq_refl) | simpl; lia].
  - intros Hst Hlow. destruct (stored a) as [s|] eqn:Es; [|contradiction].
    assert (Hcur : forall amb', current amb' a = s)
      by (intros amb'; exact (current_stored amb' a s (reachable_synced a Hr) Es)).
    rewrite Hcur. destruct c; try discriminate;
      cbn [perform]; unfold failGeneration, getState.
    + unfold current at 1. rewrite advancePhase_agent. cbn [loadState cached fst].
      rewrite advancePhase_state. fold (current amb a). rewrite Hcur. simpl. lia.
    + unfold current at 1. rewrite updateState_agent. cbn [loadState cached fst].
      rewrite updateState_state, Hcur. simpl. lia.
    + assert (Hst' : stored (snd (loadState amb a)) = Some s).
      { unfold loadState. destruct (cached a); [exact Es|]. rewrite Es. reflexivity. }
      rewrite (current_stored later _ s
                 (loadState_synced amb a (reachable_synced a Hr)) Hst'). lia.
    + unfold current, loadState. simpl. rewrite Es. simpl. lia.
Qed.

Lemma phase_counter_only_restarts_witness :
  0 <= currentPhase (current (clockAt 99) failedSession).
Proof.
  destruct (phase_counter_only_restarts failedSession (clockAt 60) (clockAt 99) Advance)
    as [H _]; [repeat constructor | exact H].
Defined.

End GenerationLifecycle.

(** ** Template selection: what is returned and what is called *)

Module TemplateSelectionFacts.
Import Js Agents.

Definition countEvents (p : Event -> bool) (trace : list Event) : nat :=
  length (List.filter p trace).

Definition isGetTemplateDetails (ev : Event) : bool :=
  match ev with GetTemplateDetails _ => true | _ => false end.

Section Selection.
Context {TemplateDetails : Type}.
Variable listTemplates : Completion Caught (option TemplateListResponse).
Variable selectTemplate : list TemplateInfo -> Completion Caught TemplateSelection.
Variable getTemplateDetails :
  string -> Completion Caught (@TemplateDetailsResponse TemplateDetails).

Abbreviation run := (getTemplateForQuery listTemplates selectTemplate getTemplateDetails).

Lemma find_name_In wanted available t :
  List.find (fun t => String.eqb (templateName t) wanted) available = Some t ->
  In t available /\ templateName t = wanted.
Proof.
  intros H. apply find_some in H. destruct H as [Hin Heq].
  apply String.eqb_eq in Heq. auto.
Qed.

(** X10: when [getTemplateForQuery] returns, the catalog call succeeded with
    at least one template, the selection returned is the one [selectTemplate]
    made on the whole catalog, the template it names is in the catalog, and
    the details returned are those the template service gave, with
    [success], for exactly that name; each of the three collaborators was
    called exactly once, in this order. *)
Theorem returned_template_is_the_selected_catalog_entry
  (details : TemplateDetails) (selection : TemplateSelection) :
  snd run = Return (details, selection) ->
  exists response template answer,
    listTemplates = Return (Some response)
    /\ success response = true
    /\ In template (templates response)
    /\ selectTemplate (templates response) = Return selection
    /\ selectedTemplateName selection = Some (templateName template)
    /\ getTemplateDetails (templateName template) = Return answer
    /\ detailsSuccess answer = true
    /\ templateDetails answer = Some details
    /\ fst run = [ListTemplates; SelectTemplate (templates response);
                  LogInfo "Selected template";
                  GetTemplateDetails (templateName template)].
Proof.
  unfold getTemplateForQuery.
  destruct listTemplates as [[response|]|error]; try discriminate.
  destruct (success response) eqn:Hsuccess; simpl; [|discriminate].
  destruct (length (templates response) =? 0)%nat; [discriminate|].
  unfold selectFrom.
  destruct (selectTemplate (templates response)) as [chosen|error] eqn:Hselect;
    [|discriminate].
  destruct (selectedTemplateName chosen) as [wanted|] eqn:Hname; simpl; [|discriminate].
  destruct (String.eqb_spec wanted ""); [discriminate|].
  destruct (List.find _ (templates response)) as [template|] eqn:Hfind; [|discriminate].
  destruct (find_name_In _ _ _ Hfind) as [Hin Hsame].
  unfold fetchDetails.
  destruct (getTemplateDetails (templateName template)) as [answer|error] eqn:Hdetails;
    [|discriminate].
  destruct (detailsSuccess answer) eqn:Hok; [|discriminate].
  destruct (templateDetails answer) as [found|] eqn:Hfound; [|discriminate].
  simpl. intros H. inversion H; subst.
  exists response, template, answer. repeat split; try assumption; reflexivity.
Qed.

(** X11: an error thrown by [selectTemplate] is rethrown as it is (a rate
    limit or security error keeps its identity), and the template service is
    not asked for any details. *)
Theorem selection_error_is_rethrown_unchanged
  (response : TemplateListResponse) (error : Caught) :
  listTemplates = Return (Some response) ->
  success response = true ->
  templates response <> [] ->
  selectTemplate (templates response) = Throw error ->
  snd run = Throw error
  /\ countEvents isGetTemplateDetails (fst run) = 0%nat.
Proof.
  intros Hlist Hsuccess Hne Hselect. unfold getTemplateForQuery.
  rewrite Hlist, Hsuccess. simpl.
  destruct (templates response) as [|t ts] eqn:Ht; [contradiction|].
  simpl. unfold selectFrom. rewrite Hselect. split; reflexivity.
Qed.

Ltac no_details_call :=
  simpl; split; [unfold countEvents; simpl; lia|];
  split; [unfold countEvents; simpl; lia|];
  let H := fresh in
  intros ? H; simpl in H;
  repeat (destruct H as [H|H]; [discriminate|]); destruct H.

(** X12: whatever the collaborators answer, [selectTemplate] is called at
    most once and [getTemplateDetails] at most once, and the only name ever
    sent to the template service is the name of a template of the catalog:
    a name the selection made up is never looked up. *)
Theorem only_catalog_templates_are_fetched :
  (countEvents isSelectTemplate (fst run) <= 1)%nat
  /\ (countEvents isGetTemplateDetails (fst run) <= 1)%nat
  /\ forall name,
       In (GetTemplateDetails name) (fst run) ->
       exists response template,
         listTemplates = Return (Some response)
         /\ In template (templates response)
         /\ templateName template = name.
Proof.
  unfold getTemplateForQuery.
  destruct listTemplates as [[response|]|error].
  2, 3: no_details_call.
  destruct (success response); simpl; [|no_details_call].
  destruct (length (templates response) =? 0)%nat; [no_details_call|].
  unfold selectFrom.
  destruct (selectTemplate (templates response)) as [chosen|error]; [|no_details_call].
  destruct (nonEmpty (selectedTemplateName chosen)) as [wanted|]; [|no_details_call].
  destruct (List.find _ (templates response)) as [template|] eqn:Hfind;
    [|no_details_call].
  destruct (find_name_In _ _ _ Hfind) as [Hin _].
  assert (K : forall name,
             In (GetTemplateDetails name)
               (fst (fetchDetails getTemplateDetails template chosen)) ->
             name = templateName template).
  { intros name. unfold fetchDetails.
    destruct (getTemplateDetails (templateName template)) as [answer|e];
      [destruct (detailsSuccess answer), (templateDetails answer)|];
      simpl; intros H;
      repeat (destruct H as [H|H]; [try discriminate; inversion H; reflexivity|]);
      destruct H. }
  assert (C : countEvents isSelectTemplate
                (fst (fetchDetails getTemplateDetails template chosen)) = 0%nat
              /\ countEvents isGetTemplateDetails
                   (fst (fetchDetails getTemplateDetails template chosen)) = 1%nat).
  { unfold fetchDetails.
    destruct (getTemplateDetails (templateName template)) as [answer|e].
    - destruct (detailsSuccess answer), (templateDetails answer); split; reflexivity.
    - split; reflexivity. }
  destruct C as [C1 C2].
  destruct (fetchDetails getTemplateDetails template chosen) as [trace outcome].
  simpl in K, C1, C2. unfold countEvents in *. cbn [fst List.filter isSelectTemplate
    isGetTemplateDetails length]. rewrite C1, C2.
  split; [lia|]. split; [lia|].
  intros name [H|[H|[H|H]]]; try discriminate.
  exists response, template. split; [reflexivity|]. split; [exact Hin|].
  symmetry. exact (K name H).
Qed.

End Selection.

Definition viteCatalog : TemplateListResponse :=
  {| success := true;
     templates := [{| templateName := "vite-react" |}; {| templateName := "next-app" |}];
     listError := None |}.

Lemma returned_template_is_the_selected_catalog_entry_witness :
  exists response template,
    In template (templates response) /\ templateName template = "next-app".
Proof.
  destruct (returned_template_is_the_selected_catalog_entry
              (Return (Some viteCatalog))
              (fun _ => Return {| selectedTemplateName := Some "next-app";
                                  reasoning := "server rendering" |})
              (fun name => Return {| detailsSuccess := true;
                                     templateDetails := Some ("files of " ++ name);
                                     detailsError := None |})
              "files of next-app"
              {| selectedTemplateName := Some "next-app"; reasoning := "server rendering" |}
              eq_refl)
    as (response & template & answer & _ & _ & Hin & _ & Hname & _).
  exists response, template. split; [exact Hin|]. simpl in Hname. congruence.
Defined.

Lemma selection_error_is_rethrown_unchanged_witness :
  snd (getTemplateForQuery (TemplateDetails := string) (Return (Some viteCatalog))
         (fun _ => Throw (ErrorInstance "rate limit exceeded"))
         (fun _ => Throw (NotAnError "unused")))
  = Throw (ErrorInstance "rate limit exceeded").
Proof.
  destruct (selection_error_is_rethrown_unchanged (TemplateDetails := string)
              (Return (Some viteCatalog))
              (fun _ => Throw (ErrorInstance "rate limit exceeded"))
              (fun _ => Throw (NotAnError "unused"))
              viteCatalog (ErrorInstance "rate limit exceeded")
              eq_refl eq_refl) as [H _].
  - discriminate.
  - reflexivity.
  - exact H.
Defined.

End TemplateSelectionFacts.

(** ** The remaining checks of the two attachment type modules *)

(** Lines 111-446 of the filesRoutes.ts bundle, next to [CodeFileTypes] *)
Module CodeFileSupport.
Import Js.

(** [list.includes(x)] *)
Definition includes (l : list string) (x : string) : bool := existsb (String.eqb x) l.

Definition SUPPORTED_IMAGE_MIME_TYPES : list string :=
  [ "image/png"; "image/jpeg"; "image/webp" ].

Definition SUPPORTED_CODE_MIME_TYPES : list string :=
  [ "text/plain"; "text/markdown"; "text/html"; "text/css"; "text/csv"; "text/xml";
    "text/javascript"; "application/javascript"; "text/typescript";
    "application/typescript";
    "application/json"; "application/xml"; "application/x-yaml"; "text/yaml";
    "application/zip"; "application/x-zip-compressed"; "application/gzip";
    "application/x-tar";
    "text/x-python"; "text/x-java-source"; "text/x-c"; "text/x-c++"; "text/x-rust";
    "text/x-go"; "text/x-ruby"; "text/x-php"; "text/x-swift"; "text/x-kotlin";
    "text/x-scala"; "application/x-sh"; "application/sql";
    "application/octet-stream" ].

Definition SUPPORTED_FILE_MIME_TYPES : list string :=
  (SUPPORTED_IMAGE_MIME_TYPES ++ SUPPORTED_CODE_MIME_TYPES)%list.

Definition isSupportedImageType (mimeType : string) : bool :=
  includes SUPPORTED_IMAGE_MIME_TYPES mimeType.

Definition isSupportedCodeType (mimeType : string) : bool :=
  includes SUPPORTED_CODE_MIME_TYPES mimeType.

Definition isSupportedFileType (mimeType : string) : bool :=
  includes SUPPORTED_FILE_MIME_TYPES mimeType.

Definition isZipArchive (mimeType : string) : bool :=
  String.eqb mimeType "application/zip"
  || String.eqb mimeType "application/x-zip-compressed"
  || String.eqb mimeType "application/gzip"
  || String.eqb mimeType "application/x-tar".

Definition SUPPORTED_CODE_EXTENSIONS : list string :=
  [ ".js"; ".jsx"; ".ts"; ".tsx"; ".mjs"; ".cjs";
    ".html"; ".htm"; ".css"; ".scss"; ".sass"; ".less";
    ".json"; ".yaml"; ".yml"; ".xml"; ".csv"; ".toml";
    ".py"; ".pyw"; ".pyx";
    ".java"; ".kt"; ".kts"; ".scala"; ".groovy";
    ".c"; ".h"; ".cpp"; ".cc"; ".cxx"; ".hpp"; ".hh";
    ".rs";
    ".go";
    ".rb"; ".erb";
    ".php";
    ".swift";
    ".sh"; ".bash"; ".zsh"; ".fish";
    ".sql";
    ".md"; ".mdx"; ".txt"; ".text";
    ".env"; ".env.local"; ".env.example"; ".gitignore"; ".dockerignore";
    ".eslintrc"; ".prettierrc"; ".babelrc"; ".editorconfig";
    ".dockerfile";
    ".zip"; ".tar"; ".gz"; ".tgz";
    ".vue"; ".svelte"; ".astro" ].

(** The extension is cut out exactly as in [getMimeTypeFromExtension]: at
    the index of the last dot of the name as given, from the lowercased
    name. *)
Definition isSupportedExtension (filename : string) : bool :=
  let ext := substringFrom (lastIndexOf "." filename) (toLowerCase filename) in
  includes SUPPORTED_CODE_EXTENSIONS ext.

Definition extensionOfImageType : list (string * string) :=
  [ ("image/png", "png"); ("image/jpeg", "jpg"); ("image/webp", "webp") ].

(** [map[mimeType] || 'jpg'] *)
Definition getFileExtensionFromMimeType (mimeType : string) : PropertyValue :=
  let hit := getProperty extensionOfImageType mimeType in
  if truthy hit then default (OwnString "jpg") hit else OwnString "jpg".

Definition MAX_IMAGE_SIZE_BYTES : Z := 10 * 1024 * 1024.
Definition MAX_CODE_FILE_SIZE_BYTES : Z := 50 * 1024 * 1024.
Definition MAX_IMAGES_PER_MESSAGE : Z := 2.
Definition MAX_CODE_FILES_PER_MESSAGE : Z := 10.
Definition MAX_TOTAL_ATTACHMENT_SIZE_BYTES : Z := 100 * 1024 * 1024.

End CodeFileSupport.

(** Lines 447-743 of the bundle, next to [ArchiveFileTypes] *)
Module ArchiveFileSupport.
Import Js.

Definition includes (l : list string) (x : string) : bool := existsb (String.eqb x) l.

Definition SUPPORTED_IMAGE_MIME_TYPES : list string :=
  [ "image/png"; "image/jpeg"; "image/webp" ].

Definition SUPPORTED_CODE_FILE_MIME_TYPES : list string :=
  [ "text/plain"; "text/markdown"; "text/x-markdown";
    "text/javascript"; "application/javascript"; "application/x-javascript";
    "text/typescript"; "application/typescript";
    "text/html"; "text/css"; "application/json"; "application/xml"; "text/xml";
    "text/x-python"; "application/x-python-code";
    "text/x-java-source"; "text/x-java";
    "text/x-c"; "text/x-c++src"; "text/x-csrc";
    "text/x-go"; "text/x-rust"; "text/x-ruby"; "text/x-php"; "text/x-swift";
    "text/x-kotlin"; "text/x-csharp"; "text/x-sh"; "application/x-sh";
    "text/x-yaml"; "application/x-yaml";
    "application/toml"; "text/x-properties" ].

Definition SUPPORTED_ARCHIVE_MIME_TYPES : list string :=
  [ "application/zip"; "application/x-zip-compressed"; "application/x-zip";
    "application/gzip"; "application/x-gzip"; "application/x-tar";
    "application/x-compressed-tar" ].

Definition SUPPORTED_FILE_MIME_TYPES : list string :=
  (SUPPORTED_IMAGE_MIME_TYPES ++ SUPPORTED_CODE_FILE_MIME_TYPES
   ++ SUPPORTED_ARCHIVE_MIME_TYPES)%list.

Definition isSupportedImageType (mimeType : string) : bool :=
  includes SUPPORTED_IMAGE_MIME_TYPES mimeType.

Definition isSupportedCodeFileType (mimeType : string) : bool :=
  includes SUPPORTED_CODE_FILE_MIME_TYPES mimeType.

Definition isSupportedArchiveType (mimeType : string) : bool :=
  includes SUPPORTED_ARCHIVE_MIME_TYPES mimeType.

Definition isSupportedFileType (mimeType : string) : bool :=
  includes SUPPORTED_FILE_MIME_TYPES mimeType.

Definition extensionOfImageType : list (string * string) :=
  [ ("image/png", "png"); ("image/jpeg", "jpg"); ("image/webp", "webp") ].

Definition getFileExtensionFromMimeType (mimeType : string) : PropertyValue :=
  let hit := getProperty extensionOfImageType mimeType in
  if truthy hit then default (OwnString "jpg") hit else OwnString "jpg".

Definition MAX_IMAGE_SIZE_BYTES : Z := 10 * 1024 * 1024.
Definition MAX_CODE_FILE_SIZE_BYTES : Z := 5 * 1024 * 1024.
Definition MAX_ARCHIVE_SIZE_BYTES : Z := 50 * 1024 * 1024.
Definition MAX_IMAGES_PER_MESSAGE : Z := 2.
Definition MAX_CODE_FILES_PER_MESSAGE : Z := 10.
Definition MAX_ARCHIVES_PER_MESSAGE : Z := 1.

End ArchiveFileSupport.

Module FileTypeFacts.
Import Js SuffixFacts MimeFacts.

Lemma includes_In l x : CodeFileSupport.includes l x = true <-> In x l.
Proof. exact (inList_spec x l). Qed.

Lemma assoc_In_value k m v : assoc k m = Some v -> In v (List.map snd m).
Proof.
  induction m as [|[k' v'] m IH]; simpl; [discriminate|].
  destruct (String.eqb k k'); [intros E; inversion E; auto | auto].
Qed.

Lemma toLowerCase_app s t : toLowerCase (s ++ t) = toLowerCase s ++ toLowerCase t.
Proof. apply mapChars_app. Qed.

(** The extension both first-module functions cut out *)
Lemma isSupportedExtension_ext filename :
  CodeFileSupport.isSupportedExtension filename
  = CodeFileSupport.includes CodeFileSupport.SUPPORTED_CODE_EXTENSIONS
      (CodeFileTypes.extensionOf filename).
Proof. reflexivity. Qed.

Lemma dotted_cases ext :
  (exists m, assoc ext CodeFileTypes.mimeMap = Some m /\ m <> "" /\ dotted ext = OwnString m)
  \/ (dotted ext = Inherited ext /\ In ext objectPrototypeMembers)
  \/ dotted ext = OwnString "application/octet-stream".
Proof.
  unfold dotted, getProperty.
  destruct (assoc ext CodeFileTypes.mimeMap) as [m|] eqn:E.
  - simpl. destruct (String.eqb_spec m ""); simpl.
    + right. right. reflexivity.
    + left. exists m. auto.
  - destruct (existsb (String.eqb ext) objectPrototypeMembers) eqn:P.
    + right. left. split; [reflexivity|]. apply (proj1 (inList_spec _ _)). exact P.
    + right. right. reflexivity.
Qed.

(** X13: the first module's [getMimeTypeFromExtension] only answers with
    MIME types its own [isSupportedFileType] accepts; the one exception is a
    dot-less name spelled like a member of [Object.prototype], for which the
    table read gives the inherited member instead of a string. *)
Theorem detected_type_is_supported (filename : string) :
  match CodeFileTypes.getMimeTypeFromExtension filename with
  | OwnString m => CodeFileSupport.isSupportedFileType m = true
  | Inherited member =>
      member = toLowerCase filename
      /\ contains "." filename = false
      /\ In member objectPrototypeMembers
  end.
Proof.
  change (CodeFileTypes.getMimeTypeFromExtension filename)
    with (dotted (CodeFileTypes.extensionOf filename)).
  destruct (dotted_cases (CodeFileTypes.extensionOf filename))
    as [(m & Hm & _ & ->) | [[-> Hin] | ->]].
  - apply assoc_In_value in Hm.
    assert (A : forallb CodeFileSupport.isSupportedFileType
                  (List.map snd CodeFileTypes.mimeMap) = true)
      by (vm_compute; reflexivity).
    rewrite forallb_forall in A. exact (A m Hm).
  - rewrite code_extensionOf in *.
    destruct (afterLast "." filename) as [e|] eqn:E.
    + exfalso. apply inList_spec in Hin. revert Hin. clear. simpl.
      repeat (match goal with
              | |- context [String.eqb (String "." ?e) (String ?c ?r)] =>
                  change (String.eqb (String "." e) (String c r)) with false
              end). simpl. discriminate.
    + split; [reflexivity|]. split; [|exact Hin].
      apply afterLast_None_contains. exact E.
  - reflexivity.
Qed.

(** X14: every file name to which [getMimeTypeFromExtension] gives a type
    other than the generic [application/octet-stream] is a name
    [isSupportedExtension] accepts.  (The converse fails: [.toml] or [.vue]
    are accepted extensions without a type of their own.) *)
Theorem typed_extension_is_supported (filename m : string) :
  CodeFileTypes.getMimeTypeFromExtension filename = OwnString m ->
  m <> "application/octet-stream" ->
  CodeFileSupport.isSupportedExtension filename = true.
Proof.
  change (CodeFileTypes.getMimeTypeFromExtension filename)
    with (dotted (CodeFileTypes.extensionOf filename)).
  rewrite isSupportedExtension_ext.
  intros H Hm.
  destruct (dotted_cases (CodeFileTypes.extensionOf filename))
    as [(m' & Hassoc & _ & E) | [[E _] | E]]; rewrite E in H; inversion H; subst.
  - apply assoc_In in Hassoc.
    assert (A : forallb (CodeFileSupport.includes CodeFileSupport.SUPPORTED_CODE_EXTENSIONS)
                  (List.map fst CodeFileTypes.mimeMap) = true)
      by (vm_compute; reflexivity).
    rewrite forallb_forall in A. exact (A _ Hassoc).
  - contradiction.
Qed.

Lemma typed_extension_is_supported_witness :
  CodeFileSupport.isSupportedExtension "src/App.TSX" = true
  /\ CodeFileTypes.getMimeTypeFromExtension "settings.toml"
     = OwnString "application/octet-stream"
  /\ CodeFileSupport.isSupportedExtension "settings.toml" = true.
Proof.
  split; [|split; vm_compute; reflexivity].
  apply (typed_extension_is_supported "src/App.TSX" "text/typescript").
  - vm_compute. reflexivity.
  - discriminate.
Defined.

Lemma string_app_assoc (s t u : string) : s ++ (t ++ u) = (s ++ t) ++ u.
Proof.
  induction s as [|a s IH]; [reflexivity|].
  change (String a (s ++ (t ++ u)) = String a ((s ++ t) ++ u)).
  f_equal. exact IH.
Qed.

Lemma extensionOf_suffix stem e :
  afterLast "." e = None ->
  CodeFileTypes.extensionOf (stem ++ String "." e) = String "." (toLowerCase e).
Proof.
  intros H. rewrite code_extensionOf, (afterLast_app "." stem e H). reflexivity.
Qed.

(** X15: the extension is cut at the last dot, so on names of ASCII
    characters the two entries of [SUPPORTED_CODE_EXTENSIONS] that contain a
    second dot can never match: whatever ASCII text precedes it, a name
    ending in [.env.local] or [.env.example] is not a supported extension,
    while one ending in [.env] is. *)
Theorem double_dotted_entries_never_match (stem : string) :
  isAscii stem = true ->
  CodeFileSupport.isSupportedExtension (stem ++ ".env.local") = false
  /\ CodeFileSupport.isSupportedExtension (stem ++ ".env.example") = false
  /\ CodeFileSupport.isSupportedExtension (stem ++ ".env") = true
  /\ CodeFileSupport.includes CodeFileSupport.SUPPORTED_CODE_EXTENSIONS ".env.local" = true
  /\ CodeFileSupport.includes CodeFileSupport.SUPPORTED_CODE_EXTENSIONS ".env.example" = true.
Proof.
  intros _. rewrite !isSupportedExtension_ext.
  change (stem ++ ".env.local") with (stem ++ (".env" ++ String "." "local")).
  change (stem ++ ".env.example") with (stem ++ (".env" ++ String "." "example")).
  change (stem ++ ".env") with (stem ++ String "." "env").
  rewrite !string_app_assoc.
  rewrite !extensionOf_suffix by reflexivity.
  repeat split; vm_compute; reflexivity.
Qed.

Lemma double_dotted_entries_never_match_witness :
  CodeFileSupport.isSupportedExtension "config/.env.local" = false
  /\ CodeFileSupport.isSupportedExtension "config/.env" = true.
Proof.
  destruct (double_dotted_entries_never_match "config/" eq_refl)
    as (Hlocal & _ & Henv & _).
  split; [exact Hlocal | exact Henv].
Defined.

(** X16: in the second module the three kinds are a partition of the
    supported types: a MIME type is supported exactly when it is an image, a
    code file or an archive type, and it is never two of these at once, so
    the order in which a caller tests the kinds does not matter. *)
Theorem supported_kinds_partition (mimeType : string) :
  ArchiveFileSupport.isSupportedFileType mimeType
  = ArchiveFileSupport.isSupportedImageType mimeType
    || ArchiveFileSupport.isSupportedCodeFileType mimeType
    || ArchiveFileSupport.isSupportedArchiveType mimeType
  /\ ArchiveFileSupport.isSupportedImageType mimeType
     && ArchiveFileSupport.isSupportedCodeFileType mimeType = false
  /\ ArchiveFileSupport.isSupportedImageType mimeType
     && ArchiveFileSupport.isSupportedArchiveType mimeType = false
  /\ ArchiveFileSupport.isSupportedCodeFileType mimeType
     && ArchiveFileSupport.isSupportedArchiveType mimeType = false.
Proof.
  assert (D : forall l1 l2,
             forallb (fun x => negb (ArchiveFileSupport.includes l2 x)) l1 = true ->
             ArchiveFileSupport.includes l1 mimeType
             && ArchiveFileSupport.includes l2 mimeType = false).
  { intros l1 l2 A. rewrite forallb_forall in A.
    destruct (ArchiveFileSupport.includes l1 mimeType) eqn:H1; [|reflexivity].
    apply inList_spec in H1. specialize (A _ H1). simpl.
    destruct (ArchiveFileSupport.includes l2 mimeType); [discriminate | reflexivity]. }
  split; [|split; [|split]].
  - unfold ArchiveFileSupport.isSupportedFileType, ArchiveFileSupport.SUPPORTED_FILE_MIME_TYPES,
      ArchiveFileSupport.includes.
    rewrite !existsb_app, orb_assoc. reflexivity.
  - apply D. vm_compute. reflexivity.
  - apply D. vm_compute. reflexivity.
  - apply D. vm_compute. reflexivity.
Qed.

(** X17: in the second module the image extension and the detected type
    round-trip: for each supported image type, a file name ending in a dot
    and the extension [getFileExtensionFromMimeType] gives for it is detected
    as that very type. *)
Theorem image_extension_round_trip (mimeType stem : string) :
  ArchiveFileSupport.isSupportedImageType mimeType = true ->
  exists ext,
    ArchiveFileSupport.getFileExtensionFromMimeType mimeType = OwnString ext
    /\ ArchiveFileTypes.getMimeTypeFromExtension (stem ++ "." ++ ext)
       = Some (OwnString mimeType).
Proof.
  intros H. apply inList_spec in H.
  assert (R : forall e, afterLast "." e = None -> toLowerCase e = e ->
                        ArchiveFileTypes.getMimeTypeFromExtension (stem ++ "." ++ e)
                        = bare e).
  { intros e He Hl. unfold ArchiveFileTypes.getMimeTypeFromExtension.
    rewrite archive_extensionOf.
    change (stem ++ "." ++ e) with (stem ++ String "." e).
    rewrite (afterLast_app "." stem e He). simpl. rewrite Hl. reflexivity. }
  destruct H as [<-|[<-|[<-|[]]]]; eexists; (split; [reflexivity|]);
    rewrite R by reflexivity; reflexivity.
Qed.

Lemma image_extension_round_trip_witness :
  ArchiveFileTypes.getMimeTypeFromExtension ("holiday/photo" ++ "." ++ "jpg")
  = Some (OwnString "image/jpeg").
Proof.
  destruct (image_extension_round_trip "image/jpeg" "holiday/photo" eq_refl)
    as (ext & Hext & H).
  vm_compute in Hext. inversion Hext; subst. exact H.
Defined.

End FileTypeFacts.

(** ** Credential resolution: the direct gateway URL and key collisions *)

Module CoreKeys.
Import Js Core.

Lemma providerOf_total model : exists provider, providerOf model = Some provider.
Proof.
  unfold providerOf, first.
  destruct (JsFacts.split_cons_inv "/" model) as (w & ws & ->). eauto.
Qed.

Lemma providerOf_without_slash model :
  contains "/" model = false -> providerOf model = Some model.
Proof.
  intros H. apply SuffixFacts.afterLast_None_contains in H.
  pose proof (SuffixFacts.split_afterLast "/" model) as S. rewrite H in S.
  unfold providerOf, first. rewrite S. reflexivity.
Qed.

(** X18: with [CLOUDFLARE_AI_GATEWAY_URL] set to a non-empty value the AI
    binding is not consulted, and [getConfigurationForModel] returns for
    every model identifier, whatever keys the environment holds: the base
    URL is that value; a provider is always found, which for an identifier
    without a slash is the whole identifier (the [disabled] sentinel reads
    [DISABLED_API_KEY]); and the key is the provider's own variable if it
    validates and the gateway token if not. *)
Theorem configuration_is_always_returned
  (validate : option string -> bool) (bindingUrl model userId url : string)
  (env : gmap string string) :
  env !! "CLOUDFLARE_AI_GATEWAY_URL" = Some url ->
  url <> "" ->
  exists provider,
    providerOf model = Some provider
    /\ (contains "/" model = false -> provider = model)
    /\ getConfigurationForModel validate bindingUrl model env userId
       = Return {| baseURL := url;
                   apiKey := if validate (env !! envKeyOf provider)
                             then env !! envKeyOf provider
                             else env !! "CLOUDFLARE_AI_GATEWAY_TOKEN" |}
    /\ envKeyOf <$> providerOf (Config.modelId Config.DISABLED) = Some "DISABLED_API_KEY".
Proof.
  intros Hurl Hset.
  destruct (providerOf_total model) as [provider Hp]. exists provider.
  split; [exact Hp|]. split; [|split; [|reflexivity]].
  - intros H. rewrite (providerOf_without_slash model H) in Hp. congruence.
  - unfold getConfigurationForModel, getApiKey, buildGatewayUrl. rewrite Hp, Hurl.
    destruct (String.eqb_spec url ""); [contradiction|].
    destruct (validate (env !! envKeyOf provider)); reflexivity.
Qed.

Definition directGateway : gmap string string :=
  <["CLOUDFLARE_AI_GATEWAY_URL" := "https://gateway.example/v1/compat"]>
    (<["CLOUDFLARE_AI_GATEWAY_TOKEN" := "gateway-token-0001"]> ∅).

Lemma configuration_is_always_returned_witness :
  getConfigurationForModel isValidApiKey "binding not consulted" "disabled"
    directGateway "user-1"
  = Return {| baseURL := "https://gateway.example/v1/compat";
              apiKey := Some "gateway-token-0001" |}.
Proof.
  destruct (configuration_is_always_returned isValidApiKey "binding not consulted"
              "disabled"
              "user-1" "https://gateway.example/v1/compat" directGateway)
    as (provider & Hp & Hwhole & Hrun & _).
  - reflexivity.
  - discriminate.
  - rewrite Hrun. rewrite (Hwhole eq_refl). reflexivity.
Defined.

Definition keyChar (c : ascii) : ascii :=
  if Ascii.eqb (upperChar c) "-" then "_"%char else upperChar c.

Lemma envKeyOf_chars provider :
  envKeyOf provider = mapChars keyChar provider ++ "_API_KEY".
Proof.
  unfold envKeyOf, replaceAll, toUpperCase. f_equal.
  induction provider as [|a p IH]; simpl; [|rewrite IH]; reflexivity.
Qed.

Lemma keyChar_upper a : keyChar (upperChar a) = keyChar a.
Proof. destruct a as [[] [] [] [] [] [] [] []]; reflexivity. Qed.

Lemma keyChar_lower a : keyChar (lowerChar a) = keyChar a.
Proof. destruct a as [[] [] [] [] [] [] [] []]; reflexivity. Qed.

Lemma keyChar_dash a :
  keyChar (if Ascii.eqb a "-" then "_"%char else a) = keyChar a.
Proof. destruct a as [[] [] [] [] [] [] [] []]; reflexivity. Qed.

Lemma keyChar_no_dash a : Ascii.eqb "-" (keyChar a) = false.
Proof. destruct a as [[] [] [] [] [] [] [] []]; reflexivity. Qed.

Lemma mapChars_compose f g s : mapChars f (mapChars g s) = mapChars (fun c => f (g c)) s.
Proof. induction s as [|a s IH]; simpl; [|rewrite IH]; reflexivity. Qed.

Lemma mapChars_ext f g s : (forall c, f c = g c) -> mapChars f s = mapChars g s.
Proof. intros H. induction s as [|a s IH]; simpl; [|rewrite IH, H]; reflexivity. Qed.

(** X19: provider names of ASCII characters that differ only in letter
    case, or in [-] against [_], resolve to the same environment variable, so
    they share one credential; and the variable name itself never contains a
    [-]. *)
Theorem env_key_ignores_case_and_dashes (provider : string) :
  isAscii provider = true ->
  envKeyOf (toUpperCase provider) = envKeyOf provider
  /\ envKeyOf (toLowerCase provider) = envKeyOf provider
  /\ envKeyOf (replaceAll "-" "_" provider) = envKeyOf provider
  /\ contains "-" (envKeyOf provider) = false.
Proof.
  intros _. rewrite !envKeyOf_chars. unfold toUpperCase, toLowerCase, replaceAll.
  rewrite !mapChars_compose.
  split; [|split; [|split]].
  - f_equal. apply mapChars_ext, keyChar_upper.
  - f_equal. apply mapChars_ext, keyChar_lower.
  - f_equal. apply mapChars_ext, keyChar_dash.
  - unfold contains. induction provider as [|a p IH]; [reflexivity|].
    change (list_ascii_of_string (mapChars keyChar (String a p) ++ "_API_KEY"))
      with (keyChar a :: list_ascii_of_string (mapChars keyChar p ++ "_API_KEY")).
    cbn [existsb]. rewrite keyChar_no_dash. exact IH.
Qed.

Example env_key_shared :
  envKeyOf "Google_AI-Studio" = envKeyOf "google-ai-studio".
Proof. reflexivity. Qed.

Lemma env_key_ignores_case_and_dashes_witness :
  envKeyOf "GOOGLE-AI-STUDIO" = "GOOGLE_AI_STUDIO_API_KEY"
  /\ envKeyOf "google_ai_studio" = "GOOGLE_AI_STUDIO_API_KEY".
Proof.
  destruct (env_key_ignores_case_and_dashes "google-ai-studio" eq_refl)
    as (Hupper & _ & Hdash & _).
  split.
  - exact Hupper.
  - exact Hdash.
Defined.

End CoreKeys.

(** ** The status stream route (the SSE stream handler of the pipeline
    engineering guides) *)

Module StreamRoute.
Import Js Generation.
Local Open Scope list_scope.

Abbreviation Caught := Fallback.Caught.

(** What the route hands to [stream.writeSSE] *)
Inductive Payload : Type :=
| Connected (sessionId : string)
| StatusOf (state : GenerationState)
| ErrorMessage (message : string).

(** The steps of the route's own callback, in order.  The heartbeat events
    that the [setInterval] callback writes on its own schedule are not among
    them: that callback enters the route only through [isActive]
    ([stillActive] below). *)
Inductive Step : Type :=
| Written (p : Payload)
| WriteFailed (p : Payload)
| Polled
| Slept
| HeartbeatCleared.

(** One turn of the [while (isActive)] loop, as the outside world decides
    it: whether the heartbeat callback has left [isActive] set, what
    [agent.getState()] answers, and what a [writeSSE] of a status event
    throws, if it throws. *)
Record Iteration : Type := {
  stillActive : bool;
  answer : Completion Caught GenerationState;
  writeError : option Caught;
}.

(** How the [try] block is left; [Polling] stands for a loop that has not
    ended within the iterations given. *)
Inductive TryEnd : Type :=
| LoopLeft
| Raised (e : Caught)
| Polling.

Definition statusEqb (a b : Status) : bool :=
  match a, b with
  | idle, idle | bootstrapping, bootstrapping | generating, generating
  | completed, completed | failed, failed => true
  | _, _ => false
  end.

(** [state.status !== lastStatus]; [lastStatus] starts as the empty string,
    which is no status: [None]. *)
Definition changed (s : Status) (lastStatus : option Status) : bool :=
  match lastStatus with
  | Some l => negb (statusEqb s l)
  | None => true
  end.

Fixpoint pollLoop (iterations : list Iteration) (lastStatus : option Status)
  : list Step * TryEnd :=
  match iterations with
  | [] => ([], Polling)
  | it :: rest =>
      if negb (stillActive it) then ([], LoopLeft)
      else
        match answer it with
        | Throw e => ([Polled], Raised e)
        | Return state =>
            if changed (status state) lastStatus then
              match writeError it with
              | Some e => ([Polled; WriteFailed (StatusOf state)], Raised e)
              | None =>
                  if isTerminal (status state)
                  then ([Polled; Written (StatusOf state)], LoopLeft)
                  else
                    let '(steps, ending) := pollLoop rest (Some (status state)) in
                    (Polled :: Written (StatusOf state) :: Slept :: steps, ending)
              end
            else if isTerminal (status state) then ([Polled], LoopLeft)
            else
              let '(steps, ending) := pollLoop rest lastStatus in
              (Polled :: Slept :: steps, ending)
        end
  end.

(** How the callback given to [streamSSE] ends; [Open] for a stream still
    polling. *)
Inductive RouteEnd : Type :=
| Closed
| Rejected (e : Caught)
| Open.

(** [error instanceof Error ? error.message : 'Unknown error'] *)
Definition messageOrUnknown (c : Caught) : string :=
  match c with
  | Fallback.ErrorInstance m => m
  | Fallback.NotAnError _ => "Unknown error"
  end.

(** The callback: the [connected] write, the loop, the [catch] that reports
    the error and the [finally] that stops the heartbeat.  [connectError] is
    what the first write throws, [reportError] what the write in the
    [catch] throws, if they throw. *)
Definition streamRoute (sessionId : string) (connectError : option Caught)
  (iterations : list Iteration) (reportError : option Caught)
  : list Step * RouteEnd :=
  let '(tried, ending) :=
    match connectError with
    | Some e => ([WriteFailed (Connected sessionId)], Raised e)
    | None =>
        let '(steps, ending) := pollLoop iterations None in
        (Written (Connected sessionId) :: steps, ending)
    end in
  match ending with
  | Polling => (tried, Open)
  | LoopLeft => (tried ++ [HeartbeatCleared], Closed)
  | Raised e =>
      let report := ErrorMessage (messageOrUnknown e) in
      match reportError with
      | None => (tried ++ [Written report; HeartbeatCleared], Closed)
      | Some e' => (tried ++ [WriteFailed report; HeartbeatCleared], Rejected e')
      end
  end.

(** The statuses of the status events that reached the subscriber *)
Definition statusesSent (steps : list Step) : list Status :=
  omap (fun st => match st with
                  | Written (StatusOf state) => Some (status state)
                  | _ => None
                  end) steps.

Definition isCleared (st : Step) : bool :=
  match st with HeartbeatCleared => true | _ => false end.

End StreamRoute.

Module StreamRouteFacts.
Import Js Generation StreamRoute.
Local Open Scope list_scope.

Lemma statusEqb_spec a b : statusEqb a b = true <-> a = b.
Proof. destruct a, b; simpl; split; congruence. Qed.

(** No status equals the one before it; the first differs from [prev]. *)
Fixpoint fresh (prev : option Status) (l : list Status) : Prop :=
  match l with
  | [] => True
  | s :: l' => Some s <> prev /\ fresh (Some s) l'
  end.

Lemma changed_fresh s prev : changed s prev = true -> Some s <> prev.
Proof.
  destruct prev as [l|]; simpl; [|discriminate].
  intros H E. inversion E; subst.
  assert (statusEqb l l = true) by (apply statusEqb_spec; reflexivity).
  rewrite H0 in H. discriminate.
Qed.

Lemma pollLoop_fresh iterations :
  forall lastStatus, fresh lastStatus (statusesSent (fst (pollLoop iterations lastStatus))).
Proof.
  induction iterations as [|it rest IH]; intros lastStatus; [exact I|].
  cbn [pollLoop]. destruct (stillActive it); [|exact I]. cbn [negb].
  destruct (answer it) as [state|e]; [|exact I].
  destruct (changed (status state) lastStatus) eqn:Hc.
  - destruct (writeError it); [exact I|].
    destruct (isTerminal (status state)).
    + split; [exact (changed_fresh _ _ Hc) | exact I].
    + specialize (IH (Some (status state))).
      destruct (pollLoop rest (Some (status state))) as [steps ending].
      split; [exact (changed_fresh _ _ Hc) | exact IH].
  - destruct (isTerminal (status state)); [exact I|].
    specialize (IH lastStatus). destruct (pollLoop rest lastStatus). exact IH.
Qed.

Lemma statusesSent_app a b : statusesSent (a ++ b) = statusesSent a ++ statusesSent b.
Proof. apply omap_app. Qed.

Lemma route_statuses sessionId connectError iterations reportError :
  statusesSent (fst (streamRoute sessionId connectError iterations reportError))
  = match connectError with
    | Some _ => []
    | None => statusesSent (fst (pollLoop iterations None))
    end.
Proof.
  unfold streamRoute. destruct connectError as [e|].
  - destruct reportError; reflexivity.
  - destruct (pollLoop iterations None) as [steps ending].
    destruct ending as [|e|]; [| destruct reportError |];
      cbn [fst]; rewrite ?app_comm_cons, ?statusesSent_app; cbn;
      rewrite ?app_nil_r; reflexivity.
Qed.

(** X20: the stream never repeats a status.  Whatever the agent answers and
    whenever writes fail, no status event that reaches the subscriber carries
    the same status as the status event before it. *)
Theorem no_status_is_sent_twice_in_a_row
  (sessionId : string) (connectError reportError : option Caught)
  (iterations : list Iteration) :
  fresh None (statusesSent
                (fst (streamRoute sessionId connectError iterations reportError))).
Proof.
  rewrite route_statuses. destruct connectError; [exact I|]. apply pollLoop_fresh.
Qed.

Lemma pollLoop_terminal iterations :
  forall lastStatus state,
    In (Written (StatusOf state)) (fst (pollLoop iterations lastStatus)) ->
    isTerminal (status state) = true ->
    exists before,
      fst (pollLoop iterations lastStatus) = before ++ [Written (StatusOf state)]
      /\ snd (pollLoop iterations lastStatus) = LoopLeft.
Proof.
  induction iterations as [|it rest IH]; intros lastStatus state Hin Hterm; [destruct Hin|].
  revert Hin. cbn [pollLoop]. destruct (stillActive it); [|intros []]. cbn [negb].
  destruct (answer it) as [polled|e]; [|intros [H|[]]; discriminate].
  destruct (changed (status polled) lastStatus).
  - destruct (writeError it); [intros [H|[H|[]]]; discriminate|].
    destruct (isTerminal (status polled)) eqn:Hp.
    + intros [H|[H|[]]]; [discriminate|]. inversion H; subst.
      exists [Polled]. split; reflexivity.
    + specialize (IH (Some (status polled)) state).
      destruct (pollLoop rest (Some (status polled))) as [steps ending].
      intros [H|[H|[H|H]]]; try discriminate.
      * inversion H; subst. congruence.
      * destruct (IH H Hterm) as (before & E1 & E2). simpl in E1, E2. subst.
        exists (Polled :: Written (StatusOf polled) :: Slept :: before).
        split; reflexivity.
  - destruct (isTerminal (status polled)); [intros [H|[]]; discriminate|].
    specialize (IH lastStatus state).
    destruct (pollLoop rest lastStatus) as [steps ending].
    intros [H|[H|H]]; try discriminate.
    destruct (IH H Hterm) as (before & E1 & E2). simpl in E1, E2. subst.
    exists (Polled :: Slept :: before). split; reflexivity.
Qed.

(** X21: a terminal status ends the polling.  When the route has written a
    status event with status [completed] or [failed], that write is the last
    step of its loop: the route polls the agent no more, writes no further
    status or error event and does not pause again; the one step it still
    takes stops the heartbeat, and the callback ends without an error.
    (Heartbeat events of the interval callback are not steps of the
    route.) *)
Theorem terminal_status_closes_the_stream
  (sessionId : string) (connectError reportError : option Caught)
  (iterations : list Iteration) (state : GenerationState) :
  In (Written (StatusOf state))
    (fst (streamRoute sessionId connectError iterations reportError)) ->
  isTerminal (status state) = true ->
  exists before,
    streamRoute sessionId connectError iterations reportError
    = (before ++ [Written (StatusOf state); HeartbeatCleared], Closed).
Proof.
  unfold streamRoute. destruct connectError as [e|].
  - destruct reportError; simpl; intros [H|[H|[H|[]]]]; discriminate.
  - intros Hin Hterm.
    assert (Hloop : In (Written (StatusOf state)) (fst (pollLoop iterations None))).
    { destruct (pollLoop iterations None) as [steps ending]. cbn [fst].
      assert (G : forall tail,
                 (forall x, In x tail -> x <> Written (StatusOf state)) ->
                 In (Written (StatusOf state))
                   (Written (Connected sessionId) :: steps ++ tail) ->
                 In (Written (StatusOf state)) steps).
      { intros tail Ht [H|H]; [discriminate|].
        apply in_app_or in H. destruct H as [H|H]; [exact H|].
        exfalso. exact (Ht _ H eq_refl). }
      destruct ending as [|e|]; [| destruct reportError |]; cbn [fst] in Hin.
      - apply (G [HeartbeatCleared]); [|exact Hin].
        intros x [<-|[]]; discriminate.
      - apply (G [WriteFailed (ErrorMessage (messageOrUnknown e)); HeartbeatCleared]);
          [|exact Hin].
        intros x [<-|[<-|[]]]; discriminate.
      - apply (G [Written (ErrorMessage (messageOrUnknown e)); HeartbeatCleared]);
          [|exact Hin].
        intros x [<-|[<-|[]]]; discriminate.
      - destruct Hin as [H|H]; [discriminate | exact H]. }
    destruct (pollLoop_terminal iterations None state Hloop Hterm) as (before & E1 & E2).
    destruct (pollLoop iterations None) as [steps ending]. simpl in E1, E2. subst.
    exists (Written (Connected sessionId) :: before).
    cbn [app]. rewrite <- app_assoc. reflexivity.
Qed.

Lemma pollLoop_not_cleared iterations :
  forall lastStatus, List.filter isCleared (fst (pollLoop iterations lastStatus)) = [].
Proof.
  induction iterations as [|it rest IH]; intros lastStatus; [reflexivity|].
  cbn [pollLoop]. destruct (stillActive it); [|reflexivity]. cbn [negb].
  destruct (answer it) as [state|e]; [|reflexivity].
  destruct (changed (status state) lastStatus).
  - destruct (writeError it); [reflexivity|].
    destruct (isTerminal (status state)); [reflexivity|].
    specialize (IH (Some (status state))).
    destruct (pollLoop rest (Some (status state))). exact IH.
  - destruct (isTerminal (status state)); [reflexivity|].
    specialize (IH lastStatus). destruct (pollLoop rest lastStatus). exact IH.
Qed.

(** X22: the heartbeat is stopped exactly when the route ends.  If the
    route has ended, normally or after an error, [clearInterval] was its
    very last step and ran once; while the loop is still polling it has not
    run. *)
Theorem heartbeat_cleared_once_at_the_end
  (sessionId : string) (connectError reportError : option Caught)
  (iterations : list Iteration) :
  let steps := fst (streamRoute sessionId connectError iterations reportError) in
  match snd (streamRoute sessionId connectError iterations reportError) with
  | Open => List.filter isCleared steps = []
  | _ => last steps = Some HeartbeatCleared
         /\ List.filter isCleared steps = [HeartbeatCleared]
  end.
Proof.
  unfold streamRoute. destruct connectError as [e|].
  - destruct reportError; simpl; split; reflexivity.
  - pose proof (pollLoop_not_cleared iterations None) as Hn.
    destruct (pollLoop iterations None) as [tried ending]. cbn [fst] in Hn.
    destruct ending as [|e|]; [| destruct reportError |]; cbn [fst snd].
    + rewrite last_snoc, List.filter_app. cbn [List.filter isCleared].
      rewrite Hn. split; reflexivity.
    + change [WriteFailed (ErrorMessage (messageOrUnknown e)); HeartbeatCleared]
        with ([WriteFailed (ErrorMessage (messageOrUnknown e))] ++ [HeartbeatCleared]).
      rewrite app_assoc, last_snoc, !List.filter_app.
      cbn [List.filter isCleared]. rewrite Hn. split; reflexivity.
    + change [Written (ErrorMessage (messageOrUnknown e)); HeartbeatCleared]
        with ([Written (ErrorMessage (messageOrUnknown e))] ++ [HeartbeatCleared]).
      rewrite app_assoc, last_snoc, !List.filter_app.
      cbn [List.filter isCleared]. rewrite Hn. split; reflexivity.
    + cbn [List.filter isCleared]. exact Hn.
Qed.

(** The polled statuses up to and including the first terminal one *)
Fixpoint untilTerminal (l : list Status) : list Status :=
  match l with
  | [] => []
  | s :: l' => if isTerminal s then [s] else s :: untilTerminal l'
  end.

(** A list of statuses with every repetition of the previous one dropped *)
Fixpoint squeeze (prev : option Status) (l : list Status) : list Status :=
  match l with
  | [] => []
  | s :: l' => if changed s prev then s :: squeeze (Some s) l' else squeeze prev l'
  end.

(** An iteration in which the client is connected and the agent answers *)
Definition healthy (state : GenerationState) : Iteration :=
  {| stillActive := true; answer := Return state; writeError := None |}.

Lemma pollLoop_healthy states :
  forall lastStatus,
    statusesSent (fst (pollLoop (List.map healthy states) lastStatus))
    = squeeze lastStatus (untilTerminal (List.map status states)).
Proof.
  induction states as [|state states IH]; intros lastStatus; [reflexivity|].
  cbn [List.map pollLoop healthy stillActive answer writeError negb untilTerminal].
  destruct (changed (status state) lastStatus) eqn:Hc.
  - destruct (isTerminal (status state)).
    + cbn. rewrite Hc. reflexivity.
    + specialize (IH (Some (status state))).
      destruct (pollLoop (List.map healthy states) (Some (status state))).
      cbn in *. rewrite Hc, IH. reflexivity.
  - destruct (isTerminal (status state)).
    + cbn. rewrite Hc. reflexivity.
    + specialize (IH lastStatus).
      destruct (pollLoop (List.map healthy states) lastStatus).
      cbn in *. rewrite Hc, IH. reflexivity.
Qed.

(** X23: on a healthy connection the subscriber sees every change and
    nothing else: the statuses sent are the statuses polled, up to and
    including the first terminal one, with each repetition of the previous
    status dropped; if a terminal status was polled the stream is closed. *)
Theorem healthy_stream_reports_each_change
  (sessionId : string) (states : list GenerationState) :
  let route := streamRoute sessionId None (List.map healthy states) None in
  statusesSent (fst route) = squeeze None (untilTerminal (List.map status states))
  /\ snd route = (if existsb (fun s => isTerminal (status s)) states then Closed else Open).
Proof.
  intros route. unfold route. split.
  - rewrite route_statuses. apply pollLoop_healthy.
  - unfold streamRoute.
    assert (H : forall lastStatus,
               snd (pollLoop (List.map healthy states) lastStatus)
               = if existsb (fun s => isTerminal (status s)) states
                 then LoopLeft else Polling).
    { induction states as [|state states IH]; intros lastStatus; [reflexivity|].
      cbn [List.map pollLoop healthy stillActive answer writeError negb existsb].
      destruct (changed (status state) lastStatus), (isTerminal (status state));
        try reflexivity.
      - specialize (IH (Some (status state))).
        destruct (pollLoop (List.map healthy states) (Some (status state))). exact IH.
      - specialize (IH lastStatus).
        destruct (pollLoop (List.map healthy states) lastStatus). exact IH. }
    specialize (H None). destruct (pollLoop (List.map healthy states) None) as [t e].
    simpl in H. subst e.
    destruct (existsb (fun s => isTerminal (status s)) states); reflexivity.
Qed.

Definition snapshot (st : Status) (phase : Z) : GenerationState :=
  {| sessionId := "session-1"; status := st; currentPhase := phase; totalPhases := 2;
     error := None; createdAt := 10; updatedAt := 10 + phase |}.

Example stream_of_a_two_phase_session :
  statusesSent
    (fst (streamRoute "session-1" None
            (List.map healthy [snapshot bootstrapping 0; snapshot bootstrapping 0;
                               snapshot generating 1; snapshot generating 1;
                               snapshot completed 2; snapshot completed 2]) None))
  = [bootstrapping; generating; completed].
Proof. reflexivity. Qed.

Lemma terminal_status_closes_the_stream_witness :
  snd (streamRoute "session-1" None
         (List.map healthy [snapshot generating 1; snapshot failed 1;
                            snapshot generating 2]) None) = Closed.
Proof.
  destruct (terminal_status_closes_the_stream "session-1" None None
              (List.map healthy [snapshot generating 1; snapshot failed 1;
                                 snapshot generating 2])
              (snapshot failed 1)) as [before H].
  - simpl. auto 10.
  - reflexivity.
  - rewrite H. reflexivity.
Defined.

End StreamRouteFacts.

(** ** Phase generation around the retry helper (generatePhase of the
    pipeline engineering guides) *)

Module PhaseGeneration.
Import Js.
Local Open Scope list_scope.

Abbreviation Caught := Fallback.Caught.

Inductive Event : Type :=
| LogStarted (phaseId : string)
| LogCompleted (phaseId : string)
| LogFailed (phaseId : string) (cause : option Caught)
| Retried (ev : Retry.Event)
| EmitPhaseFailed (phaseId : string) (message : string).

(** What the function can throw: the [PhaseGenerationError] it builds, or
    whatever [context.emitEvent] threw in the [catch] block. *)
Inductive Thrown : Type :=
| PhaseGenerationError (phaseId : string) (cause : option Caught)
| EmitFailed (e : Caught).

(** [error instanceof Error ? error.message : 'Unknown error'], for a caught
    value that may be [undefined] *)
Definition messageOrUnknown (error : option Caught) : string :=
  match error with
  | Some (Fallback.ErrorInstance m) => m
  | _ => "Unknown error"
  end.

Section GeneratePhase.
Context {PhaseResult : Type}.

(** [executePhaseGeneration(phase, context)] at each attempt, and what
    [context.emitEvent] throws, if it throws. *)
Variable executePhaseGeneration : Z -> Completion Caught PhaseResult.
Variable emitError : option Caught.

Definition generatePhase (phaseId : string)
  : list Event * Completion Thrown PhaseResult :=
  let '(attempts, outcome) :=
    Retry.withRetry (Retry.generatePhaseOptions Caught) executePhaseGeneration in
  let tried := LogStarted phaseId :: List.map Retried attempts in
  match outcome with
  | Return result => (tried ++ [LogCompleted phaseId], Return result)
  | Throw error =>
      let reported :=
        tried ++ [LogFailed phaseId error;
                  EmitPhaseFailed phaseId (messageOrUnknown error)] in
      match emitError with
      | Some e => (reported, Throw (EmitFailed e))
      | None => (reported, Throw (PhaseGenerationError phaseId error))
      end
  end.

End GeneratePhase.

Definition isExecution (ev : Event) : bool :=
  match ev with Retried (Retry.Invoke _) => true | _ => false end.

Definition isPhaseFailed (ev : Event) : bool :=
  match ev with EmitPhaseFailed _ _ => true | _ => false end.

Definition pauses (trace : list Event) : list Z :=
  omap (fun ev => match ev with Retried (Retry.Sleep d) => Some d | _ => None end) trace.

End PhaseGeneration.

Module PhaseGenerationFacts.
Import Js PhaseGeneration.
Local Open Scope list_scope.

Section Facts.
Context {PhaseResult : Type}.
Variable executePhaseGeneration : Z -> Completion Caught PhaseResult.
Variable emitError : option Caught.

Abbreviation run := (generatePhase executePhaseGeneration emitError).

Lemma three_attempts :
  Retry.withRetry (Retry.generatePhaseOptions Caught) executePhaseGeneration
  = match executePhaseGeneration 1 with
    | Return v => ([Retry.Invoke 1], Return v)
    | Throw e1 =>
        match executePhaseGeneration 2 with
        | Return v => ([Retry.Invoke 1; Retry.Sleep 1000; Retry.Invoke 2], Return v)
        | Throw e2 =>
            match executePhaseGeneration 3 with
            | Return v =>
                ([Retry.Invoke 1; Retry.Sleep 1000; Retry.Invoke 2;
                  Retry.Sleep 2000; Retry.Invoke 3], Return v)
            | Throw e3 =>
                ([Retry.Invoke 1; Retry.Sleep 1000; Retry.Invoke 2;
                  Retry.Sleep 2000; Retry.Invoke 3], Throw (Some e3))
            end
        end
    end.
Proof.
  unfold Retry.withRetry.
  change (Z.to_nat (Retry.maxAttempts (Retry.generatePhaseOptions Caught))) with 3%nat.
  cbn [Retry.retryLoop].
  change (1 <=? Retry.maxAttempts (Retry.generatePhaseOptions Caught)) with true.
  change (1 <? Retry.maxAttempts (Retry.generatePhaseOptions Caught)) with true.
  change (1 + 1 <=? Retry.maxAttempts (Retry.generatePhaseOptions Caught)) with true.
  change (1 + 1 <? Retry.maxAttempts (Retry.generatePhaseOptions Caught)) with true.
  change (1 + 1 + 1 <=? Retry.maxAttempts (Retry.generatePhaseOptions Caught)) with true.
  change (1 + 1 + 1 <? Retry.maxAttempts (Retry.generatePhaseOptions Caught)) with false.
  change (1 + 1 + 1) with 3. change (1 + 1) with 2.
  destruct (executePhaseGeneration 1); [reflexivity|].
  destruct (executePhaseGeneration 2); [reflexivity|].
  destruct (executePhaseGeneration 3); reflexivity.
Qed.

(** X24: [generatePhase] runs the phase at most three times, pausing 1000 ms
    and then 2000 ms between the attempts.  It returns the result of the
    first attempt that succeeds, and then no [phase_failed] event is
    emitted.  It throws only when all three attempts failed: then exactly
    one [phase_failed] event is emitted, after the last attempt, with the
    message of the third error, and the error thrown is a
    [PhaseGenerationError] for this phase whose cause is the third error
    (or what [emitEvent] threw, if emitting failed). *)
Theorem generatePhase_tries_three_times (phaseId : string) :
  let trace := fst (run phaseId) in
  (length (List.filter isExecution trace) <= 3)%nat
  /\ (pauses trace = [] \/ pauses trace = [1000] \/ pauses trace = [1000; 2000])
  /\ match snd (run phaseId) with
     | Return result =>
         List.filter isPhaseFailed trace = []
         /\ exists k, 1 <= k <= 3
                      /\ executePhaseGeneration k = Return result
                      /\ Z.of_nat (length (List.filter isExecution trace)) = k
                      /\ forall j, 1 <= j < k -> isThrow (executePhaseGeneration j) = true
     | Throw thrown =>
         exists e1 e2 e3,
           executePhaseGeneration 1 = Throw e1
           /\ executePhaseGeneration 2 = Throw e2
           /\ executePhaseGeneration 3 = Throw e3
           /\ List.filter isPhaseFailed trace
              = [EmitPhaseFailed phaseId (messageOrUnknown (Some e3))]
           /\ last trace = Some (EmitPhaseFailed phaseId (messageOrUnknown (Some e3)))
           /\ thrown = match emitError with
                       | Some e => EmitFailed e
                       | None => PhaseGenerationError phaseId (Some e3)
                       end
     end.
Proof.
  unfold generatePhase. rewrite three_attempts.
  destruct (executePhaseGeneration 1) as [r1|e1] eqn:H1.
  { cbn. split; [lia|]. split; [auto|]. split; [reflexivity|].
    exists 1. repeat split; try lia; try assumption. }
  destruct (executePhaseGeneration 2) as [r2|e2] eqn:H2.
  { cbn. split; [lia|]. split; [auto|]. split; [reflexivity|].
    exists 2. repeat split; try lia; try assumption.
    intros j Hj. assert (j = 1) by lia. subst. rewrite H1. reflexivity. }
  destruct (executePhaseGeneration 3) as [r3|e3] eqn:H3.
  { cbn. split; [lia|]. split; [auto|]. split; [reflexivity|].
    exists 3. repeat split; try lia; try assumption.
    intros j Hj. assert (j = 1 \/ j = 2) as [->| ->] by lia;
      [rewrite H1 | rewrite H2]; reflexivity. }
  destruct emitError as [e|]; cbn; (split; [lia|]); (split; [auto|]);
    exists e1, e2, e3; repeat split; reflexivity.
Qed.

End Facts.

Example generatePhase_second_attempt :
  generatePhase (fun k => if k <? 2 then Throw (Fallback.ErrorInstance "timeout")
                          else Return "files") None "phase-1"
  = ([LogStarted "phase-1"; Retried (Retry.Invoke 1); Retried (Retry.Sleep 1000);
      Retried (Retry.Invoke 2); LogCompleted "phase-1"],
     Return "files").
Proof. reflexivity. Qed.

End PhaseGenerationFacts.

(** ** The attachment hook built on the first type module (useFileUpload,
    src/unnamed/part_008) *)

Module UploadHook.
Import Js CodeFileSupport.
Local Open Scope list_scope.

(** A browser [File], as far as the hook reads it *)
Record File : Type := {
  name : string;
  type : string;
  size : Z;
}.

Record Dimensions : Type := {
  width : Z;
  height : Z;
}.

Record ImageAttachment : Type := {
  imageId : string;
  imageFilename : string;
  imageMimeType : string;
  imageBase64Data : option string;
  imageSize : option Z;
  dimensions : option Dimensions;
}.

Record CodeFileAttachment : Type := {
  codeId : string;
  codeFilename : string;
  codeMimeType : PropertyValue;
  codeBase64Data : option string;
  codeSize : Z;
  isArchive : bool;
  extension : string;
}.

(** [FileUploadOptions]; a limit left out takes the module constant. *)
Record Options : Type := {
  maxImages : Z;
  maxCodeFiles : Z;
  maxImageSizeBytes : Z;
  maxCodeFileSizeBytes : Z;
  maxTotalSizeBytes : Z;
}.

Definition defaultOptions : Options :=
  {| maxImages := MAX_IMAGES_PER_MESSAGE;
     maxCodeFiles := MAX_CODE_FILES_PER_MESSAGE;
     maxImageSizeBytes := MAX_IMAGE_SIZE_BYTES;
     maxCodeFileSizeBytes := MAX_CODE_FILE_SIZE_BYTES;
     maxTotalSizeBytes := MAX_TOTAL_ATTACHMENT_SIZE_BYTES |}.

(** The hook's state: the two [useState] lists *)
Record State : Type := {
  images : list ImageAttachment;
  codeFiles : list CodeFileAttachment;
}.

(** What the user is told.  Every notice but [ProcessingFailed] is a
    [toast.error] together with [onError], with the message built from the
    values kept here; [ProcessingFailed] is the [onError] of the [catch]. *)
Inductive Notice : Type :=
| UnsupportedFileType (filename : string)
| TooManyImages (limit : Z)
| TooManyCodeFiles (limit : Z)
| TotalSizeExceeded (limit : Z)
| ImageTooLarge (filename : string) (limit : Z)
| FileTooLarge (filename : string) (limit : Z)
| ProcessingFailed (message : string).

(** What the browser answers: [FileReader.readAsDataURL] ([None] when
    [onerror] fires), whether the image of a data URL loads and with which
    dimensions, and the [Date.now()]/[Math.random()] part of a new id. *)
Record Browser : Type := {
  readAsDataURL : File -> option string;
  loadImage : string -> option Dimensions;
  idSuffix : File -> string;
}.

Section Hook.
Variable options : Options.
Variable browser : Browser.

(** [sum + (file.size || 0)] over the images and the code files *)
Definition totalSize (s : State) : Z :=
  fold_right Z.add 0 (List.map (fun i => default 0 (imageSize i)) (images s))
  + fold_right Z.add 0 (List.map codeSize (codeFiles s)).

(** The read shared by both processors: the data URL, or the rejection *)
Definition readDataUrl (file : File) : Completion string string :=
  match readAsDataURL browser file with
  | None => Throw ("Failed to read file: " ++ name file)%string
  | Some result =>
      if String.eqb result "" then Throw "Failed to read file" else Return result
  end.

(** [result.split(',')[1]] *)
Definition base64Of (result : string) : option string :=
  nth_error (split "," result) 1.

Definition processImageFile (file : File)
  : list Notice * Completion string (option ImageAttachment) :=
  if size file >? maxImageSizeBytes options then
    ([ImageTooLarge (name file) (maxImageSizeBytes options)], Return None)
  else
    match readDataUrl file with
    | Throw e => ([], Throw e)
    | Return result =>
        ([], Return (Some {| imageId := ("img-" ++ idSuffix browser file)%string;
                             imageFilename := name file;
                             imageMimeType := type file;
                             imageBase64Data := base64Of result;
                             imageSize := Some (size file);
                             dimensions := loadImage browser result |}))
    end.

Definition archiveExtensions : list string := [".zip"; ".tar"; ".gz"; ".tgz"].

Definition processCodeFile (file : File)
  : list Notice * Completion string (option CodeFileAttachment) :=
  if size file >? maxCodeFileSizeBytes options then
    ([FileTooLarge (name file) (maxCodeFileSizeBytes options)], Return None)
  else
    match readDataUrl file with
    | Throw e => ([], Throw e)
    | Return result =>
        let ext := substringFrom (lastIndexOf "." (name file)) (name file) in
        ([], Return (Some {| codeId := ("file-" ++ idSuffix browser file)%string;
                             codeFilename := name file;
                             codeMimeType :=
                               CodeFileTypes.getMimeTypeFromExtension (name file);
                             codeBase64Data := base64Of result;
                             codeSize := size file;
                             isArchive := isZipArchive (type file)
                                          || includes archiveExtensions (toLowerCase ext);
                             extension := ext |}))
    end.

(** Where the categorizing loop puts a file *)
Inductive Category : Type := AsImage | AsCode | Refused.

(** The three tests of the loop, in order.  The third cuts the extension
    from the name as given and lowercases it afterwards, where
    [isSupportedExtension] lowercases the name first and cuts it at the same
    index. *)
Definition categorize (file : File) : Category :=
  if isSupportedImageType (type file) then AsImage
  else if isSupportedExtension (name file)
          || String.eqb (type file) "application/octet-stream" then AsCode
  else
    let ext := toLowerCase (substringFrom (lastIndexOf "." (name file)) (name file)) in
    if includes SUPPORTED_CODE_EXTENSIONS ext then AsCode else Refused.

Definition imageFilesOf (files : list File) : list File :=
  List.filter (fun f => match categorize f with AsImage => true | _ => false end) files.

Definition codeFilesOf (files : list File) : list File :=
  List.filter (fun f => match categorize f with AsCode => true | _ => false end) files.

Definition refusals (files : list File) : list Notice :=
  omap (fun f => match categorize f with
                 | Refused => Some (UnsupportedFileType (name f))
                 | _ => None
                 end) files.

(** [Promise.all(files.map(process))]: every processor runs, in order; the
    results are kept when all resolve, and the first rejection (in list
    order here) wins otherwise. *)
Fixpoint processAll {A : Type} (process : File -> list Notice * Completion string (option A))
  (files : list File) : list Notice * Completion string (list (option A)) :=
  match files with
  | [] => ([], Return [])
  | f :: rest =>
      let '(n1, r1) := process f in
      let '(n2, r2) := processAll process rest in
      (n1 ++ n2,
       match r1, r2 with
       | Throw e, _ => Throw e
       | Return _, Throw e => Throw e
       | Return a, Return l => Return (a :: l)
       end)
  end.

(** [processed.filter(x => x !== null)] *)
Definition valid {A : Type} (processed : list (option A)) : list A :=
  omap (fun x => x) processed.

Definition addFiles (s : State) (files : list File) : State * list Notice :=
  let imageFiles := imageFilesOf files in
  let codeFilesToProcess := codeFilesOf files in
  let refused := refusals files in
  if Z.of_nat (length (images s)) + Z.of_nat (length imageFiles) >? maxImages options
  then (s, refused ++ [TooManyImages (maxImages options)])
  else if Z.of_nat (length (codeFiles s)) + Z.of_nat (length codeFilesToProcess)
          >? maxCodeFiles options
  then (s, refused ++ [TooManyCodeFiles (maxCodeFiles options)])
  else if totalSize s
          + fold_right Z.add 0 (List.map size (imageFiles ++ codeFilesToProcess))
          >? maxTotalSizeBytes options
  then (s, refused ++ [TotalSizeExceeded (maxTotalSizeBytes options)])
  else
    let '(n1, r1) := processAll processImageFile imageFiles in
    match r1 with
    | Throw e => (s, refused ++ n1 ++ [ProcessingFailed e])
    | Return processedImages =>
        let s1 := {| images := images s ++ valid processedImages;
                     codeFiles := codeFiles s |} in
        let '(n2, r2) := processAll processCodeFile codeFilesToProcess in
        match r2 with
        | Throw e => (s1, refused ++ n1 ++ n2 ++ [ProcessingFailed e])
        | Return processedCodeFiles =>
            ({| images := images s1;
                codeFiles := codeFiles s ++ valid processedCodeFiles |},
             refused ++ n1 ++ n2)
        end
    end.

Definition removeImage (id : string) (s : State) : State :=
  {| images := List.filter (fun i => negb (String.eqb (imageId i) id)) (images s);
     codeFiles := codeFiles s |}.

Definition removeCodeFile (id : string) (s : State) : State :=
  {| images := images s;
     codeFiles := List.filter (fun f => negb (String.eqb (codeId f) id)) (codeFiles s) |}.

Definition clearAll (s : State) : State := {| images := []; codeFiles := [] |}.

End Hook.

Definition initialState : State := {| images := []; codeFiles := [] |}.

End UploadHook.

Module UploadHookFacts.
Import Js CodeFileSupport UploadHook.
Local Open Scope list_scope.

Lemma toLowerCase_dropChars n s :
  toLowerCase (dropChars n s) = dropChars n (toLowerCase s).
Proof.
  unfold toLowerCase. revert s. induction n as [|n IH]; intros s; [reflexivity|].
  destruct s as [|a s]; [reflexivity|]. simpl. apply IH.
Qed.

Section Facts.
Variable options : Options.
Variable browser : Browser.

(** X25: for a file whose name is made of ASCII characters the third test
    of the categorizing loop never accepts anything.  Such a file is taken
    as an image when its type is a supported image type, as a code file when
    its name has a supported extension or its type is
    [application/octet-stream], and is refused otherwise: the extension
    looked up in the last branch is the one [isSupportedExtension] has just
    turned down. *)
Theorem categorize_is_decided_by_two_tests (file : File) :
  isAscii (name file) = true ->
  categorize file
  = if isSupportedImageType (type file) then AsImage
    else if isSupportedExtension (name file)
            || String.eqb (type file) "application/octet-stream" then AsCode
    else Refused.
Proof.
  intros _. unfold categorize.
  destruct (isSupportedImageType (type file)); [reflexivity|].
  destruct (isSupportedExtension (name file)) eqn:Hext; [reflexivity|].
  destruct (String.eqb (type file) "application/octet-stream"); [reflexivity|].
  cbn [orb]. unfold substringFrom. rewrite toLowerCase_dropChars.
  unfold isSupportedExtension, substringFrom in Hext. rewrite Hext. reflexivity.
Qed.

Definition sumSizes (files : list File) : Z := fold_right Z.add 0 (List.map size files).

Definition imageBytes (l : list ImageAttachment) : Z :=
  fold_right Z.add 0 (List.map (fun i => default 0 (imageSize i)) l).

Definition codeBytes (l : list CodeFileAttachment) : Z :=
  fold_right Z.add 0 (List.map codeSize l).

Lemma totalSize_split s : totalSize s = imageBytes (images s) + codeBytes (codeFiles s).
Proof. reflexivity. Qed.

Lemma imageBytes_app a b : imageBytes (a ++ b) = imageBytes a + imageBytes b.
Proof.
  unfold imageBytes. induction a as [|x a IH]; simpl; [reflexivity|].
  rewrite IH. lia.
Qed.

Lemma codeBytes_app a b : codeBytes (a ++ b) = codeBytes a + codeBytes b.
Proof.
  unfold codeBytes. induction a as [|x a IH]; simpl; [reflexivity|].
  rewrite IH. lia.
Qed.

Lemma sumSizes_app a b : sumSizes (a ++ b) = sumSizes a + sumSizes b.
Proof.
  unfold sumSizes. induction a as [|x a IH]; simpl; [reflexivity|].
  fold (sumSizes (a ++ b)) in *. fold (sumSizes a) in *. fold (sumSizes b) in *. lia.
Qed.

(** Every attachment that comes out of a processor stems from one file of
    the batch, within the per-file limit. *)
Definition imageFrom (file : File) (i : ImageAttachment) : Prop :=
  imageFilename i = name file /\ imageMimeType i = type file
  /\ imageSize i = Some (size file) /\ size file <= maxImageSizeBytes options.

Definition codeFrom (file : File) (c : CodeFileAttachment) : Prop :=
  codeFilename c = name file /\ codeSize c = size file
  /\ codeMimeType c = CodeFileTypes.getMimeTypeFromExtension (name file)
  /\ size file <= maxCodeFileSizeBytes options.

Lemma processImageFile_from file n i :
  processImageFile options browser file = (n, Return (Some i)) -> imageFrom file i.
Proof.
  unfold processImageFile.
  destruct (Z.gtb_spec (size file) (maxImageSizeBytes options)) as [Hgt|Hle];
    [discriminate|].
  destruct (readDataUrl browser file); [|discriminate].
  intros H. inversion H; subst. repeat split; simpl; try reflexivity. lia.
Qed.

Lemma processCodeFile_from file n c :
  processCodeFile options browser file = (n, Return (Some c)) -> codeFrom file c.
Proof.
  unfold processCodeFile.
  destruct (Z.gtb_spec (size file) (maxCodeFileSizeBytes options)) as [Hgt|Hle];
    [discriminate|].
  destruct (readDataUrl browser file); [|discriminate].
  intros H. inversion H; subst. repeat split; simpl; try reflexivity. lia.
Qed.

Lemma processAll_images files :
  forall n l,
    processAll (processImageFile options browser) files = (n, Return l) ->
    (forall f, In f files -> 0 <= size f) ->
    (length (valid l) <= length files)%nat
    /\ 0 <= imageBytes (valid l) <= sumSizes files
    /\ Forall (fun i => exists f, In f files /\ imageFrom f i) (valid l).
Proof.
  induction files as [|f files IH]; intros n l H Hpos.
  - inversion H; subst.
    split; [simpl; lia|].
    split; [unfold imageBytes, sumSizes; simpl; lia | constructor].
  - cbn [processAll] in H.
    destruct (processImageFile options browser f) as [n1 r1] eqn:E1.
    destruct (processAll (processImageFile options browser) files) as [n2 r2].
    destruct r1 as [a|e]; [|discriminate]. destruct r2 as [l2|e]; [|discriminate].
    inversion H; subst.
    destruct (IH n2 l2 eq_refl) as (Hlen & Hbytes & Hfrom).
    { intros g Hg. apply Hpos. right. exact Hg. }
    assert (Hf : 0 <= size f) by (apply Hpos; left; reflexivity).
    assert (Hfrom' : Forall (fun i => exists g, In g (f :: files) /\ imageFrom g i)
                       (valid l2)).
    { eapply Forall_impl; [exact Hfrom|]. intros i (g & Hg & Hi).
      exists g. split; [right; exact Hg | exact Hi]. }
    unfold sumSizes in *. cbn [List.map fold_right length].
    destruct a as [i|].
    + pose proof (processImageFile_from f n1 i E1) as Hi.
      change (valid (Some i :: l2)) with (i :: valid l2).
      unfold imageBytes in *. cbn [List.map fold_right length].
      destruct Hi as (H1 & H2 & H3 & H4). rewrite H3. cbn [default from_option id].
      split; [lia|]. split; [lia|].
      constructor; [|exact Hfrom'].
      exists f. split; [left; reflexivity | repeat split; assumption].
    + change (valid (None :: l2)) with (valid l2).
      split; [lia|]. split; [lia | exact Hfrom'].
Qed.

Lemma processAll_code files :
  forall n l,
    processAll (processCodeFile options browser) files = (n, Return l) ->
    (forall f, In f files -> 0 <= size f) ->
    (length (valid l) <= length files)%nat
    /\ 0 <= codeBytes (valid l) <= sumSizes files
    /\ Forall (fun c => exists f, In f files /\ codeFrom f c) (valid l).
Proof.
  induction files as [|f files IH]; intros n l H Hpos.
  - inversion H; subst.
    split; [simpl; lia|].
    split; [unfold codeBytes, sumSizes; simpl; lia | constructor].
  - cbn [processAll] in H.
    destruct (processCodeFile options browser f) as [n1 r1] eqn:E1.
    destruct (processAll (processCodeFile options browser) files) as [n2 r2].
    destruct r1 as [a|e]; [|discriminate]. destruct r2 as [l2|e]; [|discriminate].
    inversion H; subst.
    destruct (IH n2 l2 eq_refl) as (Hlen & Hbytes & Hfrom).
    { intros g Hg. apply Hpos. right. exact Hg. }
    assert (Hf : 0 <= size f) by (apply Hpos; left; reflexivity).
    assert (Hfrom' : Forall (fun c => exists g, In g (f :: files) /\ codeFrom g c)
                       (valid l2)).
    { eapply Forall_impl; [exact Hfrom|]. intros c (g & Hg & Hc).
      exists g. split; [right; exact Hg | exact Hc]. }
    unfold sumSizes in *. cbn [List.map fold_right length].
    destruct a as [c|].
    + pose proof (processCodeFile_from f n1 c E1) as Hc.
      change (valid (Some c :: l2)) with (c :: valid l2).
      unfold codeBytes in *. cbn [List.map fold_right length].
      destruct Hc as (H1 & H2 & H3 & H4). rewrite H2.
      split; [lia|]. split; [lia|].
      constructor; [|exact Hfrom'].
      exists f. split; [left; reflexivity | repeat split; assumption].
    + change (valid (None :: l2)) with (valid l2).
      split; [lia|]. split; [lia | exact Hfrom'].
Qed.

Lemma filter_sizes_nonneg (p : File -> bool) files :
  (forall f, In f files -> 0 <= size f) ->
  forall f, In f (List.filter p files) -> 0 <= size f.
Proof. intros H f Hf. apply filter_In in Hf. apply H. tauto. Qed.

Lemma sumSizes_nonneg files :
  (forall f, In f files -> 0 <= size f) -> 0 <= sumSizes files.
Proof.
  unfold sumSizes. induction files as [|f l IH]; intros Hp; simpl; [lia|].
  assert (0 <= size f) by (apply Hp; left; reflexivity).
  assert (0 <= fold_right Z.add 0 (List.map size l))
    by (apply IH; intros g Hg; apply Hp; right; exact Hg).
  lia.
Qed.

(** The state is within the limits of the options. *)
Definition withinLimits (s : State) : Prop :=
  Z.of_nat (length (images s)) <= maxImages options
  /\ Z.of_nat (length (codeFiles s)) <= maxCodeFiles options
  /\ totalSize s <= maxTotalSizeBytes options.

(** What [addFiles] made of a state: it appended [newImages] and
    [newCodeFiles], each stemming from a file of the batch. *)
Definition appended (files : list File) (s s' : State)
  (newImages : list ImageAttachment) (newCodeFiles : list CodeFileAttachment) : Prop :=
  images s' = images s ++ newImages
  /\ codeFiles s' = codeFiles s ++ newCodeFiles
  /\ Forall (fun i => exists f, In f files /\ categorize f = AsImage /\ imageFrom f i)
       newImages
  /\ Forall (fun c => exists f, In f files /\ categorize f = AsCode /\ codeFrom f c)
       newCodeFiles.

Lemma from_imageFilesOf files i :
  (exists f, In f (imageFilesOf files) /\ imageFrom f i) ->
  exists f, In f files /\ categorize f = AsImage /\ imageFrom f i.
Proof.
  intros (f & Hf & Hi). unfold imageFilesOf in Hf. apply filter_In in Hf.
  destruct Hf as [Hin Hc]. exists f. split; [exact Hin|]. split; [|exact Hi].
  destruct (categorize f); [reflexivity | discriminate | discriminate].
Qed.

Lemma from_codeFilesOf files c :
  (exists f, In f (codeFilesOf files) /\ codeFrom f c) ->
  exists f, In f files /\ categorize f = AsCode /\ codeFrom f c.
Proof.
  intros (f & Hf & Hc). unfold codeFilesOf in Hf. apply filter_In in Hf.
  destruct Hf as [Hin Hcat]. exists f. split; [exact Hin|]. split; [|exact Hc].
  destruct (categorize f); [discriminate | reflexivity | discriminate].
Qed.

(** X26: [addFiles] only ever appends.  The attachments already held stay
    where they are, and each attachment added stems from a file of the batch
    that was categorized for its list, carries that file's name and size, and
    is no larger than the per-file limit for its kind. *)
Theorem addFiles_only_appends (s : State) (files : list File) :
  (forall f, In f files -> 0 <= size f) ->
  exists newImages newCodeFiles,
    appended files s (fst (addFiles options browser s files)) newImages newCodeFiles.
Proof.
  intros Hpos.
  assert (Same : appended files s s [] []).
  { unfold appended. rewrite !app_nil_r. repeat split; constructor. }
  unfold addFiles.
  destruct (_ >? maxImages options); [exists [], []; exact Same|].
  destruct (_ >? maxCodeFiles options); [exists [], []; exact Same|].
  destruct (_ >? maxTotalSizeBytes options); [exists [], []; exact Same|].
  destruct (processAll (processImageFile options browser) (imageFilesOf files))
    as [n1 r1] eqn:E1.
  destruct r1 as [processedImages|e]; [|exists [], []; exact Same].
  destruct (processAll_images _ _ _ E1 (filter_sizes_nonneg _ files Hpos))
    as (_ & _ & Himg).
  assert (Himg' : Forall (fun i => exists f, In f files /\ categorize f = AsImage
                                             /\ imageFrom f i) (valid processedImages)).
  { eapply Forall_impl; [exact Himg|]. intros i. apply from_imageFilesOf. }
  destruct (processAll (processCodeFile options browser) (codeFilesOf files))
    as [n2 r2] eqn:E2.
  destruct r2 as [processedCode|e].
  - destruct (processAll_code _ _ _ E2 (filter_sizes_nonneg _ files Hpos))
      as (_ & _ & Hcode).
    exists (valid processedImages), (valid processedCode).
    unfold appended. cbn. repeat split; try assumption.
    eapply Forall_impl; [exact Hcode|]. intros c. apply from_codeFilesOf.
  - exists (valid processedImages), []. unfold appended. cbn.
    rewrite app_nil_r. repeat split; try assumption. constructor.
Qed.

(** X27: [addFiles] keeps the limits.  If the attachments held are within
    the limits on the number of images, the number of code files and the
    total size, they still are after any batch of files (of sizes that are
    not negative), also when reading one of the files fails half way. *)
Theorem addFiles_keeps_the_limits (s : State) (files : list File) :
  (forall f, In f files -> 0 <= size f) ->
  withinLimits s ->
  withinLimits (fst (addFiles options browser s files)).
Proof.
  intros Hpos Hs. pose proof Hs as (HI & HC & HT). unfold addFiles.
  destruct (Z.gtb_spec (Z.of_nat (length (images s))
                        + Z.of_nat (length (imageFilesOf files))) (maxImages options))
    as [|Himages]; [exact Hs|].
  destruct (Z.gtb_spec (Z.of_nat (length (codeFiles s))
                        + Z.of_nat (length (codeFilesOf files))) (maxCodeFiles options))
    as [|Hcodes]; [exact Hs|].
  match goal with |- context [?a >? maxTotalSizeBytes options] =>
    destruct (Z.gtb_spec a (maxTotalSizeBytes options)) as [|Htotal]; [exact Hs|] end.
  fold (sumSizes (imageFilesOf files ++ codeFilesOf files)) in Htotal.
  rewrite sumSizes_app, totalSize_split in Htotal.
  destruct (processAll (processImageFile options browser) (imageFilesOf files))
    as [n1 r1] eqn:E1.
  destruct r1 as [processedImages|e]; [|exact Hs].
  destruct (processAll_images _ _ _ E1 (filter_sizes_nonneg _ files Hpos))
    as (Hlen1 & Hbytes1 & _).
  assert (Hcode0 : 0 <= sumSizes (codeFilesOf files))
    by (apply sumSizes_nonneg, filter_sizes_nonneg; exact Hpos).
  destruct (processAll (processCodeFile options browser) (codeFilesOf files))
    as [n2 r2] eqn:E2.
  destruct r2 as [processedCode|e].
  - destruct (processAll_code _ _ _ E2 (filter_sizes_nonneg _ files Hpos))
      as (Hlen2 & Hbytes2 & _).
    unfold withinLimits. rewrite totalSize_split. cbn [images codeFiles fst].
    rewrite !length_app, imageBytes_app, codeBytes_app. lia.
  - unfold withinLimits. rewrite totalSize_split. cbn [images codeFiles fst].
    rewrite !length_app, imageBytes_app. lia.
Qed.

End Facts.

Definition sampleBrowser : Browser :=
  {| readAsDataURL := fun f => Some ("data:" ++ type f ++ ";base64,QUJD")%string;
     loadImage := fun _ => Some {| width := 640; height := 480 |};
     idSuffix := fun f => name f |}.

Definition photo : File := {| name := "photo.png"; type := "image/png"; size := 2048 |}.
Definition script : File := {| name := "main.py"; type := ""; size := 512 |}.

Lemma categorize_is_decided_by_two_tests_witness :
  categorize script = AsCode /\ categorize photo = AsImage.
Proof.
  rewrite (categorize_is_decided_by_two_tests script eq_refl).
  rewrite (categorize_is_decided_by_two_tests photo eq_refl).
  split; reflexivity.
Defined.

Example addFiles_sample :
  List.map imageFilename (images (fst (addFiles defaultOptions sampleBrowser initialState
                                      [photo; script])))
  = ["photo.png"]
  /\ List.map codeMimeType (codeFiles (fst (addFiles defaultOptions sampleBrowser
                                             initialState [photo; script])))
     = [OwnString "text/x-python"].
Proof. split; vm_compute; reflexivity. Qed.

Lemma addFiles_only_appends_witness :
  exists newImages newCodeFiles,
    appended defaultOptions [photo; script] initialState
      (fst (addFiles defaultOptions sampleBrowser initialState [photo; script]))
      newImages newCodeFiles.
Proof.
  apply (addFiles_only_appends defaultOptions sampleBrowser initialState [photo; script]).
  intros f [<-|[<-|[]]]; simpl; lia.
Defined.

Lemma addFiles_keeps_the_limits_witness :
  withinLimits defaultOptions
    (fst (addFiles defaultOptions sampleBrowser initialState [photo; script])).
Proof.
  apply (addFiles_keeps_the_limits defaultOptions sampleBrowser initialState
           [photo; script]).
  - intros f [<-|[<-|[]]]; simpl; lia.
  - unfold withinLimits. vm_compute. repeat split; discriminate.
Defined.

End UploadHookFacts.

(** ** The user files controller (FilesController, src/unnamed/part_002) *)

Module FilesController.
Import Js.

Record AuthUser : Type := {
  id : string;
}.

(** The [File] of the form data: its name, type, size and bytes *)
Record Upload : Type := {
  name : string;
  type : string;
  size : Z;
  bytes : string;
}.

(** The custom metadata of a stored object; a key that is not set reads as
    [undefined] *)
Record CustomMetadata : Type := {
  userId : option string;
  originalName : option string;
  uploadedAt : option string;
}.

(** What the bucket keeps under a key: the body with its size, the
    [httpMetadata.contentType], the custom metadata and the time R2 stored
    it. *)
Record R2Object : Type := {
  body : string;
  objectSize : Z;
  contentType : option string;
  customMetadata : option CustomMetadata;
  uploaded : string;
}.

Abbreviation Bucket := (gmap string R2Object).

(** [UserFile] of controllers/files/types.ts *)
Record UserFile : Type := {
  fileId : string;
  fileName : string;
  mimeType : string;
  fileSize : Z;
  fileUploadedAt : string;
  r2Key : string;
}.

Inductive Reason : Type :=
| NoFileProvided
| UnsupportedFileType (type : string)
| FileTooLarge (limit : Z)
| FileNotFound.

(** What a handler answers.  [ErrorResponse] is [createErrorResponse] with
    the message the reason stands for and the status; [HandledError] is
    [handleError(error, action)] of the [catch] block; [FileDownload] is the
    [Response] of [getFile] with its three headers and its body. *)
Inductive Response : Type :=
| ErrorResponse (reason : Reason) (status : Z)
| UploadSuccess (file : UserFile)
| ListSuccess (files : list UserFile) (totalCount : Z)
| DeleteSuccess
| FileDownload (contentType : string) (contentLength : Z) (filename : string)
    (body : string)
| HandledError (action : string) (error : string).

(** [key.startsWith(prefix)], the test behind [list({ prefix })] *)
Fixpoint startsWith (prefix s : string) : bool :=
  match prefix, s with
  | EmptyString, _ => true
  | String a prefix', String b s' => Ascii.eqb a b && startsWith prefix' s'
  | String _ _, EmptyString => false
  end.

(** [x || fallback] on a string that may be [undefined] *)
Definition orElse (x : option string) (fallback : string) : string :=
  match x with
  | Some s => if String.eqb s "" then fallback else s
  | None => fallback
  end.

(** What one request meets: the new file id ([Date.now()] and
    [Math.random()]), the two readings of the clock in [uploadFile], the time
    R2 stamps on the object, and the errors of the awaited bucket calls that
    fail, if they do. *)
Record Call : Type := {
  newFileId : string;
  metadataTime : string;
  responseTime : string;
  storedTime : string;
  listFault : option string;
  objectFault : option string;
}.

Section Controller.

(** Imported from types/image-attachment, whose size constant is not under
    src/: the type test and the size limit the controller uses. *)
Variable isSupportedFileType : string -> bool.
Variable MAX_FILE_SIZE_BYTES : Z.

(** The platform: URI component coding, [bucket.list({ prefix, limit })]
    giving keys with their objects, and the array sort of [listFiles] with
    its upload date comparator. *)
Variable encodeURIComponent : string -> string.
Variable decodeURIComponent : string -> Completion string string.
Variable listObjects : Bucket -> string -> nat -> list (string * R2Object).
Variable sortNewestFirst : list UserFile -> list UserFile.

Definition userPrefix (user : AuthUser) : string :=
  "user-files/" ++ id user ++ "/".

Definition filePrefix (user : AuthUser) (fileId : string) : string :=
  "user-files/" ++ id user ++ "/" ++ fileId ++ "/".

(** [formData] is what [request.formData()] gives: it throws, or holds a
    file or none. *)
Definition uploadFile (call : Call) (formData : Completion string (option Upload))
  (bucket : Bucket) (user : AuthUser) : Response * Bucket :=
  match formData with
  | Throw error => (HandledError "upload file" error, bucket)
  | Return None => (ErrorResponse NoFileProvided 400, bucket)
  | Return (Some file) =>
      if negb (isSupportedFileType (type file)) then
        (ErrorResponse (UnsupportedFileType (type file)) 400, bucket)
      else if size file >? MAX_FILE_SIZE_BYTES then
        (ErrorResponse (FileTooLarge MAX_FILE_SIZE_BYTES) 400, bucket)
      else
        let fileId := newFileId call in
        let r2Key := filePrefix user fileId ++ encodeURIComponent (name file) in
        match objectFault call with
        | Some error => (HandledError "upload file" error, bucket)
        | None =>
            let object :=
              {| body := bytes file; objectSize := size file;
                 contentType := Some (type file);
                 customMetadata :=
                   Some {| userId := Some (id user);
                           originalName := Some (name file);
                           uploadedAt := Some (metadataTime call) |};
                 uploaded := storedTime call |} in
            (UploadSuccess {| fileId := fileId; fileName := name file;
                              mimeType := type file; fileSize := size file;
                              fileUploadedAt := responseTime call;
                              r2Key := r2Key |},
             <[r2Key := object]> bucket)
        end
  end.

(** One turn of the [for] loop of [listFiles] *)
Definition describe (entry : string * R2Object) : Completion string UserFile :=
  let '(key, object) := entry in
  let pathParts := split "/" key in
  let fileId := orElse (nth_error pathParts 2) "" in
  match decodeURIComponent (orElse (nth_error pathParts 3) "unknown") with
  | Throw error => Throw error
  | Return fileName =>
      Return {| fileId := fileId;
                fileName := orElse (customMetadata object ≫= originalName) fileName;
                mimeType := orElse (contentType object) "application/octet-stream";
                fileSize := objectSize object;
                fileUploadedAt := orElse (customMetadata object ≫= uploadedAt)
                                    (uploaded object);
                r2Key := key |}
  end.

Fixpoint describeAll (entries : list (string * R2Object))
  : Completion string (list UserFile) :=
  match entries with
  | [] => Return []
  | entry :: rest =>
      match describe entry with
      | Throw error => Throw error
      | Return file =>
          match describeAll rest with
          | Throw error => Throw error
          | Return files => Return (file :: files)
          end
      end
  end.

Definition listFiles (call : Call) (bucket : Bucket) (user : AuthUser)
  : Response * Bucket :=
  match listFault call with
  | Some error => (HandledError "list files" error, bucket)
  | None =>
      match describeAll (listObjects bucket (userPrefix user) 100) with
      | Throw error => (HandledError "list files" error, bucket)
      | Return files =>
          let sorted := sortNewestFirst files in
          (ListSuccess sorted (Z.of_nat (length sorted)), bucket)
      end
  end.

Definition deleteFile (call : Call) (bucket : Bucket) (user : AuthUser)
  (fileId : string) : Response * Bucket :=
  match listFault call with
  | Some error => (HandledError "delete file" error, bucket)
  | None =>
      match listObjects bucket (filePrefix user fileId) 1 with
      | [] => (ErrorResponse FileNotFound 404, bucket)
      | (r2Key, _) :: _ =>
          match objectFault call with
          | Some error => (HandledError "delete file" error, bucket)
          | None => (DeleteSuccess, delete r2Key bucket)
          end
      end
  end.

Definition getFile (call : Call) (bucket : Bucket) (user : AuthUser)
  (fileId : string) : Response * Bucket :=
  match listFault call with
  | Some error => (HandledError "get file" error, bucket)
  | None =>
      match listObjects bucket (filePrefix user fileId) 1 with
      | [] => (ErrorResponse FileNotFound 404, bucket)
      | (r2Key, _) :: _ =>
          match objectFault call with
          | Some error => (HandledError "get file" error, bucket)
          | None =>
              match bucket !! r2Key with
              | None => (ErrorResponse FileNotFound 404, bucket)
              | Some object =>
                  (FileDownload
                     (orElse (contentType object) "application/octet-stream")
                     (objectSize object)
                     (orElse (customMetadata object ≫= originalName) "download")
                     (body object),
                   bucket)
              end
          end
      end
  end.

End Controller.

End FilesController.

Module FilesControllerFacts.
Import Js FilesController.

Lemma startsWith_app (p r : string) : startsWith p (p ++ r) = true.
Proof.
  induction p as [|a p IH]; [reflexivity|].
  change (Ascii.eqb a a && startsWith p (p ++ r) = true).
  rewrite Ascii.eqb_refl. exact IH.
Qed.

Lemma startsWith_app_same (p q r : string) :
  startsWith (p ++ q) (p ++ r) = startsWith q r.
Proof.
  induction p as [|a p IH]; [reflexivity|].
  change (Ascii.eqb a a && startsWith (p ++ q) (p ++ r) = startsWith q r).
  rewrite Ascii.eqb_refl. exact IH.
Qed.

Lemma key_app_assoc (s t u : string) : s ++ (t ++ u) = (s ++ t) ++ u.
Proof.
  induction s as [|a s IH]; [reflexivity|].
  change (String a (s ++ (t ++ u)) = String a ((s ++ t) ++ u)).
  f_equal. exact IH.
Qed.

(** Two path segments without a slash that open the same key are equal. *)
Lemma segment_inj (u u' q r : string) :
  contains "/" u = false -> contains "/" u' = false ->
  startsWith (u ++ "/" ++ q) (u' ++ "/" ++ r) = true ->
  u = u' /\ startsWith q r = true.
Proof.
  unfold contains. revert u'.
  induction u as [|a u IH]; intros [|b u'] Hu Hu' H.
  - split; [reflexivity|exact H].
  - change (Ascii.eqb "/" b && startsWith q (u' ++ "/" ++ r) = true) in H.
    apply andb_prop in H as [Hab _].
    change (Ascii.eqb "/" b || existsb (Ascii.eqb "/") (list_ascii_of_string u') = false)
      in Hu'.
    rewrite Hab in Hu'. discriminate.
  - change (Ascii.eqb a "/" && startsWith (u ++ "/" ++ q) r = true) in H.
    apply andb_prop in H as [Hab _].
    change (Ascii.eqb "/" a || existsb (Ascii.eqb "/") (list_ascii_of_string u) = false)
      in Hu.
    rewrite Ascii.eqb_sym, Hab in Hu. discriminate.
  - change (Ascii.eqb a b && startsWith (u ++ "/" ++ q) (u' ++ "/" ++ r) = true) in H.
    apply andb_prop in H as [Hab H]. apply Ascii.eqb_eq in Hab. subst b.
    change (Ascii.eqb "/" a || existsb (Ascii.eqb "/") (list_ascii_of_string u) = false)
      in Hu.
    change (Ascii.eqb "/" a || existsb (Ascii.eqb "/") (list_ascii_of_string u') = false)
      in Hu'.
    apply orb_false_elim in Hu as [_ Hu]. apply orb_false_elim in Hu' as [_ Hu'].
    destruct (IH u' Hu Hu' H) as [-> Hq]. split; [reflexivity|exact Hq].
Qed.

Lemma filePrefix_inj (user other : AuthUser) (fileId otherId rest : string) :
  contains "/" (id user) = false -> contains "/" fileId = false ->
  contains "/" (id other) = false -> contains "/" otherId = false ->
  startsWith (filePrefix user fileId) (filePrefix other otherId ++ rest) = true ->
  id user = id other /\ fileId = otherId.
Proof.
  intros Hu Hf Ho Hi H. unfold filePrefix in H.
  change ("user-files/" ++ id user ++ "/" ++ fileId ++ "/")
    with ("user-files/" ++ (id user ++ "/" ++ (fileId ++ "/" ++ ""))) in H.
  replace (("user-files/" ++ id other ++ "/" ++ otherId ++ "/") ++ rest)
    with ("user-files/" ++ (id other ++ "/" ++ (otherId ++ "/" ++ rest))) in H.
  2:{ rewrite <- !key_app_assoc. reflexivity. }
  rewrite startsWith_app_same in H.
  apply segment_inj in H as [Hid H]; [|assumption..].
  apply segment_inj in H as [Hfile _]; [|assumption..].
  split; assumption.
Qed.

(** A listing a bucket can give: the entries whose key starts with the
    prefix, cut at the limit. *)
Definition listing (bucket : Bucket) (prefix : string) (limit : nat)
  : list (string * R2Object) :=
  take limit (List.filter (fun entry => startsWith prefix entry.1) (map_to_list bucket)).

(** What the controller relies on from [bucket.list]: every entry listed is
    in the bucket under a key that starts with the prefix, and a listing is
    empty only if no key starts with the prefix. *)
Definition sound (listObjects : Bucket -> string -> nat -> list (string * R2Object)) : Prop :=
  forall bucket prefix limit key object,
    In (key, object) (listObjects bucket prefix limit) ->
    bucket !! key = Some object /\ startsWith prefix key = true.

Definition finds (listObjects : Bucket -> string -> nat -> list (string * R2Object)) : Prop :=
  forall bucket prefix key object,
    bucket !! key = Some object -> startsWith prefix key = true ->
    listObjects bucket prefix 1%nat <> [].

Lemma listing_sound : sound listing.
Proof.
  intros bucket prefix limit key object Hin. unfold listing in Hin.
  apply list_elem_of_In in Hin. apply elem_of_take in Hin as (i & Hi & _).
  apply list_elem_of_lookup_2 in Hi. apply list_elem_of_In in Hi.
  apply List.filter_In in Hi as [Hi Hp]. apply list_elem_of_In in Hi.
  apply elem_of_map_to_list in Hi. split; [exact Hi|exact Hp].
Qed.

Lemma listing_finds : finds listing.
Proof.
  intros bucket prefix key object Hk Hp Hnil. unfold listing in Hnil.
  assert (Hin : In (key, object)
                  (List.filter (fun entry => startsWith prefix entry.1) (map_to_list bucket))).
  { apply List.filter_In. split; [|exact Hp].
    apply list_elem_of_In, elem_of_map_to_list. exact Hk. }
  destruct (List.filter _ _) as [|e l]; [destruct Hin|]. discriminate Hnil.
Qed.

Section Facts.
Variable isSupportedFileType : string -> bool.
Variable MAX_FILE_SIZE_BYTES : Z.
Variable encodeURIComponent : string -> string.
Variable listObjects : Bucket -> string -> nat -> list (string * R2Object).

(** A successful upload, read back from its result. *)
Lemma upload_success call formData bucket user file bucket' :
  uploadFile isSupportedFileType MAX_FILE_SIZE_BYTES encodeURIComponent
    call formData bucket user
  = (UploadSuccess file, bucket') ->
  exists sent,
    formData = Return (Some sent) /\
    isSupportedFileType (type sent) = true /\
    size sent <= MAX_FILE_SIZE_BYTES /\
    fileId file = newFileId call /\
    r2Key file = filePrefix user (newFileId call) ++ encodeURIComponent (name sent) /\
    fileName file = name sent /\ mimeType file = type sent /\ fileSize file = size sent /\
    bucket' = <[r2Key file :=
                 {| body := bytes sent; objectSize := size sent;
                    contentType := Some (type sent);
                    customMetadata :=
                      Some {| userId := Some (id user);
                              originalName := Some (name sent);
                              uploadedAt := Some (metadataTime call) |};
                    uploaded := storedTime call |}]> bucket.
Proof.
  unfold uploadFile. intros H.
  destruct formData as [[sent|]|error]; [|discriminate..].
  destruct (isSupportedFileType (type sent)) eqn:Htype; [|discriminate].
  cbn [negb] in H.
  destruct (Z.gtb_spec (size sent) MAX_FILE_SIZE_BYTES) as [Hgt|Hle]; [discriminate|].
  destruct (objectFault call); [discriminate|].
  injection H as <- <-. exists sent. cbn. repeat split; try reflexivity; assumption.
Qed.

(** The first entry of a one-entry listing of a file prefix that holds a
    single key is that key. *)
Lemma listed_first bucket user fileId key object :
  sound listObjects -> finds listObjects ->
  bucket !! key = Some object ->
  startsWith (filePrefix user fileId) key = true ->
  (forall other, other <> key ->
     startsWith (filePrefix user fileId) other = true -> bucket !! other = None) ->
  exists rest, listObjects bucket (filePrefix user fileId) 1%nat = (key, object) :: rest.
Proof.
  intros Hsound Hfinds Hkey Hprefix Honly.
  pose proof (Hfinds bucket _ key object Hkey Hprefix) as Hne.
  destruct (listObjects bucket (filePrefix user fileId) 1%nat) as [|[k o] rest] eqn:Hl;
    [contradiction|].
  destruct (Hsound bucket (filePrefix user fileId) 1%nat k o) as [Hk Hp].
  { rewrite Hl. left. reflexivity. }
  destruct (decide (k = key)) as [->|Hneq].
  - rewrite Hkey in Hk. injection Hk as ->. exists rest. reflexivity.
  - rewrite (Honly k Hneq Hp) in Hk. discriminate.
Qed.

(** Only a key under the file's prefix is ever removed. *)
Lemma remove_changes_under_prefix call bucket user fileId key :
  sound listObjects ->
  startsWith (filePrefix user fileId) key = false ->
  (deleteFile listObjects call bucket user fileId).2 !! key = bucket !! key.
Proof.
  intros Hsound Hout. unfold deleteFile.
  destruct (listFault call); [reflexivity|].
  destruct (listObjects bucket (filePrefix user fileId) 1%nat) as [|[k o] rest] eqn:Hl;
    [reflexivity|].
  destruct (objectFault call); [reflexivity|].
  cbn [snd]. apply lookup_delete_ne. intros ->.
  destruct (Hsound bucket (filePrefix user fileId) 1%nat key o) as [_ Hp];
    [rewrite Hl; left; reflexivity|].
  rewrite Hp in Hout. discriminate.
Qed.

(** X28: a delete request of one user never touches the file of another
    request path.  When the user ids and the file ids hold no slash, the
    object stored for [other] under [otherId] is the same after
    [deleteFile(user, fileId)] as before, unless both the user and the file
    id are the same. *)
Theorem deleteFile_spares_other_files call bucket user fileId other otherId name :
  sound listObjects ->
  contains "/" (id user) = false -> contains "/" fileId = false ->
  contains "/" (id other) = false -> contains "/" otherId = false ->
  (id other, otherId) <> (id user, fileId) ->
  (deleteFile listObjects call bucket user fileId).2 !! (filePrefix other otherId ++ name)
  = bucket !! (filePrefix other otherId ++ name).
Proof.
  intros Hsound Hu Hf Ho Hi Hdiff.
  apply remove_changes_under_prefix; [exact Hsound|].
  destruct (startsWith (filePrefix user fileId) (filePrefix other otherId ++ name)) eqn:Hp;
    [|reflexivity].
  apply filePrefix_inj in Hp as [Hid Hfile]; [|assumption..].
  contradiction Hdiff. rewrite Hid, Hfile. reflexivity.
Qed.

Section RoundTrip.
Variables (call later : Call) (formData : Completion string (option Upload)).
Variables (bucket bucket' : Bucket) (user : AuthUser) (file : UserFile).
Hypothesis list_sound : sound listObjects.
Hypothesis list_finds : finds listObjects.
Hypothesis fresh_id :
  forall key, startsWith (filePrefix user (newFileId call)) key = true ->
              bucket !! key = None.
Hypothesis uploaded :
  uploadFile isSupportedFileType MAX_FILE_SIZE_BYTES encodeURIComponent
    call formData bucket user
  = (UploadSuccess file, bucket').
Hypothesis no_list_fault : listFault later = None.
Hypothesis no_object_fault : objectFault later = None.

Lemma uploaded_is_listed_first :
  exists sent object rest,
    formData = Return (Some sent) /\
    fileId file = newFileId call /\
    bucket !! r2Key file = None /\
    bucket' = <[r2Key file := object]> bucket /\
    body object = bytes sent /\ objectSize object = size sent /\
    contentType object = Some (type sent) /\
    customMetadata object ≫= originalName = Some (name sent) /\
    listObjects bucket' (filePrefix user (fileId file)) 1%nat = (r2Key file, object) :: rest.
Proof.
  destruct (upload_success _ _ _ _ _ _ uploaded)
    as (sent & Hform & _ & _ & Hid & Hkey & _ & _ & _ & Hbucket).
  assert (Hprefix : startsWith (filePrefix user (newFileId call)) (r2Key file) = true).
  { rewrite Hkey. apply startsWith_app. }
  set (object := {| body := bytes sent |}) in Hbucket.
  destruct (listed_first bucket' user (fileId file) (r2Key file) object list_sound list_finds)
    as [rest Hrest].
  - rewrite Hbucket. apply lookup_insert_eq.
  - rewrite Hid. exact Hprefix.
  - intros k Hneq Hp. rewrite Hbucket, lookup_insert_ne by (intros E; apply Hneq; symmetry; exact E).
    apply fresh_id. rewrite <- Hid. exact Hp.
  - exists sent, object, rest. repeat split; try assumption; try reflexivity.
    apply fresh_id. exact Hprefix.
Qed.

(** X29: what is uploaded is what is downloaded.  After an upload answered
    with the file entry [file], into a bucket that held nothing under the new
    file id, [getFile] of [file.id] answers with the bytes, the size and the
    name that were sent and with their type (each fallback applying only to
    an empty string), and leaves the bucket as it is. *)
Theorem upload_then_getFile_round_trip :
  exists sent,
    formData = Return (Some sent) /\
    getFile listObjects later bucket' user (fileId file)
    = (FileDownload (orElse (Some (type sent)) "application/octet-stream")
         (size sent) (orElse (Some (name sent)) "download") (bytes sent),
       bucket').
Proof.
  destruct uploaded_is_listed_first
    as (sent & object & rest & Hform & _ & _ & Hbucket & Hbody & Hsize & Htype & Hname & Hl).
  exists sent. split; [exact Hform|].
  unfold getFile. rewrite no_list_fault, Hl, no_object_fault.
  rewrite Hbucket at 1. rewrite lookup_insert_eq.
  rewrite Hbody, Hsize, Htype, Hname. reflexivity.
Qed.

(** X30: deleting what was just uploaded gives the bucket back.  After the
    same upload, [deleteFile] of [file.id] succeeds and the bucket is again
    the one before the upload; a later [getFile] of that id answers 404. *)
Theorem upload_then_deleteFile_restores_bucket :
  deleteFile listObjects later bucket' user (fileId file) = (DeleteSuccess, bucket) /\
  getFile listObjects later bucket user (fileId file)
  = (ErrorResponse FileNotFound 404, bucket).
Proof.
  destruct uploaded_is_listed_first
    as (sent & object & rest & _ & Hid & Hnone & Hbucket & _ & _ & _ & _ & Hl).
  split.
  - unfold deleteFile. rewrite no_list_fault, Hl, no_object_fault.
    rewrite Hbucket, delete_insert_id by exact Hnone. reflexivity.
  - unfold getFile. rewrite no_list_fault.
    destruct (listObjects bucket (filePrefix user (fileId file)) 1%nat) as [|[k o] l] eqn:Hk;
      [reflexivity|].
    destruct (list_sound bucket (filePrefix user (fileId file)) 1%nat k o) as [Hin Hp];
      [rewrite Hk; left; reflexivity|].
    rewrite Hid in Hp. rewrite (fresh_id k Hp) in Hin. discriminate.
Qed.

End RoundTrip.

End Facts.

Definition alice : AuthUser := {| id := "alice" |}.
Definition bob : AuthUser := {| id := "bob" |}.

Definition notes : Upload :=
  {| name := "notes.txt"; type := "text/plain"; size := 5; bytes := "hello" |}.

Definition firstCall : Call :=
  {| newFileId := "1700000000000-k3j9x0q2a";
     metadataTime := "2023-11-14T22:13:20.000Z";
     responseTime := "2023-11-14T22:13:20.001Z";
     storedTime := "2023-11-14T22:13:20.000Z";
     listFault := None; objectFault := None |}.

Definition notesEntry : UserFile :=
  {| fileId := "1700000000000-k3j9x0q2a"; fileName := "notes.txt";
     mimeType := "text/plain"; fileSize := 5;
     fileUploadedAt := "2023-11-14T22:13:20.001Z";
     r2Key := "user-files/alice/1700000000000-k3j9x0q2a/notes.txt" |}.

Definition tenMegabytes : Z := 10 * 1024 * 1024.

Definition unreserved (s : string) : string := s.

Lemma notes_uploaded :
  uploadFile ArchiveFileSupport.isSupportedFileType tenMegabytes unreserved
    firstCall (Return (Some notes)) ∅ alice
  = (UploadSuccess notesEntry, (uploadFile ArchiveFileSupport.isSupportedFileType
       tenMegabytes unreserved firstCall (Return (Some notes)) ∅ alice).2).
Proof. reflexivity. Qed.

Definition sharedBucket : Bucket :=
  (uploadFile ArchiveFileSupport.isSupportedFileType tenMegabytes unreserved
     firstCall (Return (Some notes)) ∅ bob).2.

Lemma deleteFile_spares_other_files_witness :
  (deleteFile listing firstCall sharedBucket alice "1700000000000-k3j9x0q2a").2
    !! (filePrefix bob "1700000000000-k3j9x0q2a" ++ "notes.txt")
  = sharedBucket !! (filePrefix bob "1700000000000-k3j9x0q2a" ++ "notes.txt").
Proof.
  apply (deleteFile_spares_other_files listing firstCall sharedBucket alice
           "1700000000000-k3j9x0q2a" bob "1700000000000-k3j9x0q2a" "notes.txt").
  - exact listing_sound.
  - reflexivity.
  - reflexivity.
  - reflexivity.
  - reflexivity.
  - discriminate.
Defined.

Lemma upload_then_getFile_round_trip_witness :
  exists sent,
    Return (Some notes) = Return (E := string) (Some sent) /\
    getFile listing firstCall
      (uploadFile ArchiveFileSupport.isSupportedFileType tenMegabytes unreserved
         firstCall (Return (Some notes)) ∅ alice).2 alice (fileId notesEntry)
    = (FileDownload (orElse (Some (type sent)) "application/octet-stream")
         (size sent) (orElse (Some (name sent)) "download") (bytes sent),
       (uploadFile ArchiveFileSupport.isSupportedFileType tenMegabytes unreserved
          firstCall (Return (Some notes)) ∅ alice).2).
Proof.
  apply (upload_then_getFile_round_trip ArchiveFileSupport.isSupportedFileType
           tenMegabytes unreserved listing firstCall firstCall (Return (Some notes)) ∅).
  - exact listing_sound.
  - exact listing_finds.
  - intros key _. apply lookup_empty.
  - exact notes_uploaded.
  - reflexivity.
  - reflexivity.
Defined.

Lemma upload_then_deleteFile_restores_bucket_witness :
  deleteFile listing firstCall
    (uploadFile ArchiveFileSupport.isSupportedFileType tenMegabytes unreserved
       firstCall (Return (Some notes)) ∅ alice).2 alice (fileId notesEntry)
  = (DeleteSuccess, ∅) /\
  getFile listing firstCall ∅ alice (fileId notesEntry)
  = (ErrorResponse FileNotFound 404, ∅).
Proof.
  apply (upload_then_deleteFile_restores_bucket ArchiveFileSupport.isSupportedFileType
           tenMegabytes unreserved listing firstCall firstCall (Return (Some notes)) ∅).
  - exact listing_sound.
  - exact listing_finds.
  - intros key _. apply lookup_empty.
  - exact notes_uploaded.
  - reflexivity.
  - reflexivity.
Defined.

End FilesControllerFacts.
